(** * MultiModalDocSystem front end: task poller and segment editor

    A shallow embedding of the script parts of two Vue components of the
    front end:

    - the progress component ([src/unnamed/part_002], second script block):
      the status projections [currentStatus], [currentStep],
      [displayProgress] and the polling loop [startPolling] / [poll] /
      [stopPolling] together with the two watchers on [props.taskId];
    - the segment editor ([src/unnamed/part_000]): the watcher on
      [props.segments], [mergeSegments] and [processRAGContent].

    The components are single threaded and event driven.  A component is a
    record of its refs and props; the browser around it (pending timers,
    outstanding requests, emitted events, the object store) is a second
    record, and every callback of the source is a function from world to
    world. *)

From stdpp Require Import base option list strings gmap pretty sorting.
From Stdlib Require Import ZArith QArith Lia.

#[local] Set Warnings "-register-all".
Local Open Scope string_scope.
Local Open Scope list_scope.
Local Open Scope Z_scope.

(** JavaScript's [s || d] on strings: the empty string is falsy. *)
Definition str_or (s d : string) : string :=
  if decide (s = "") then d else s.

(** What a rejected request throws. The components read [error.message]
    at most, and it may be missing. *)
Record JsError := { err_message : option string }.

(** ** Tables written as object literals *)

(** The names of the properties of [Object.prototype], which every
    object literal inherits: those of the section on the properties of
    the Object prototype object of the language specification and those
    its annex for web browsers adds. *)
Definition Object_prototype : list string :=
  ["constructor"; "hasOwnProperty"; "isPrototypeOf"; "propertyIsEnumerable";
   "toLocaleString"; "toString"; "valueOf"; "__proto__";
   "__defineGetter__"; "__defineSetter__"; "__lookupGetter__";
   "__lookupSetter__"].

(** What a getter that reads one of its tables returns: a value of the
    kind the table holds, or what the key names in [Object.prototype] (a
    function; for [__proto__] the prototype object itself). *)
Inductive Read (A : Type) :=
| Val (a : A)
| Inherited (name : string).

Arguments Val {A} a.
Arguments Inherited {A} name.

#[global] Instance Read_eq_dec {A} `{EqDecision A} : EqDecision (Read A).
Proof. solve_decision. Defined.

(** [table[key]] for a table written as an object literal, given as the
    map of its own properties: an own property first, then one of
    [Object.prototype]; [None] stands for [undefined]. *)
Definition index {A : Type} (table : gmap string A) (key : string)
  : option (Read A) :=
  match table !! key with
  | Some a => Some (Val a)
  | None =>
      if bool_decide (key ∈ Object_prototype) then Some (Inherited key)
      else None
  end.

(** ** Status payload and its projections (part_002, lines 607-669) *)

Module Poller.

(** [ProcessStatus] of [types/index.ts].  [displayProgress] tests
    [progress !== undefined], so the field is optional here.  Percentages
    are integers. *)
Record ProcessStatus := {
  task_id : string;
  status : string;
  progress : option Z;
  message : string
}.

(** The own properties of [statusToStep] of [currentStep]. Both tables
    are object literals read with a string key, through [index]. *)
Definition statusToStep : gmap string string :=
  list_to_map [
    ("pending", "pending");
    ("uploading", "uploading");
    ("processing", "processing_ocr");
    ("processing_ocr", "processing_ocr");
    ("cleaning", "cleaning");
    ("processing_rag", "processing_rag");
    ("completed", "completed");
    ("failed", "failed") ].

(** The own properties of [statusProgress] of [displayProgress]. *)
Definition statusProgress : gmap string Z :=
  list_to_map [
    ("pending", 0);
    ("uploading", 20);
    ("processing_ocr", 40);
    ("cleaning", 60);
    ("processing_rag", 80);
    ("completed", 100);
    ("failed", 100) ].

(** [statusInfo.value?.status || 'pending'] *)
Definition currentStatus (statusInfo : option ProcessStatus) : string :=
  match statusInfo with
  | Some info => str_or (status info) "pending"
  | None => "pending"
  end.

(** [statusToStep[status] || 'pending']: what [Object.prototype] holds is
    truthy, so the default does not replace it. *)
Definition currentStep (statusInfo : option ProcessStatus) : Read string :=
  match index statusToStep (currentStatus statusInfo) with
  | Some (Val step) => Val (str_or step "pending")
  | Some (Inherited name) => Inherited name
  | None => Val "pending"
  end.

(** [displayProgress]: 0 without a payload; [Math.min(progress, 100)] when
    the payload has a progress; otherwise [statusProgress[...] || 0] (for
    a number [n] of the table, [n || 0] is [n]). *)
Definition displayProgress (statusInfo : option ProcessStatus) : Read Z :=
  match statusInfo with
  | None => Val 0
  | Some info =>
      match progress info with
      | Some p => Val (Z.min p 100)
      | None =>
          match index statusProgress (currentStatus statusInfo) with
          | Some (Val n) => Val n
          | Some (Inherited name) => Inherited name
          | None => Val 0
          end
      end
  end.

(** ** The polling loop (part_002, lines 713-805) *)

(** The events of [Emits]. *)
Inductive Event :=
| status_update (s : ProcessStatus)
| polling_start
| polling_stop
| task_completed (s : ProcessStatus)
| task_failed (s : ProcessStatus).

(** Props and refs of the component. A timer handle is a positive integer,
    as [window.setTimeout] returns, so [if (pollTimer.value)] holds exactly
    when a handle is stored. *)
Record Component := {
  taskId : string;
  autoPoll : bool;
  pollInterval : Z;
  statusInfo : option ProcessStatus;
  errorMessage : string;
  isPolling : bool;
  pollTimer : option positive;
  startTime : Z
}.

(** The component in its browser: the timeouts that are set and have not
    fired (each one calls [poll]), the next handle [setTimeout] hands out,
    the job ids of the [getProcessStatus] requests [poll] is awaiting (one
    suspended [poll] each), the events emitted so far (oldest first) and
    [Date.now()]. *)
Record World := {
  comp : Component;
  timers : list (positive * Z);
  next_handle : positive;
  inflight : list string;
  emitted : list Event;
  clock : Z
}.

Definition upd (f : Component → Component) (w : World) : World :=
  {| comp := f (comp w); timers := timers w; next_handle := next_handle w;
     inflight := inflight w; emitted := emitted w; clock := clock w |}.

Definition set_taskId (v : string) (c : Component) : Component :=
  {| taskId := v; autoPoll := autoPoll c; pollInterval := pollInterval c;
     statusInfo := statusInfo c; errorMessage := errorMessage c;
     isPolling := isPolling c; pollTimer := pollTimer c;
     startTime := startTime c |}.

Definition set_statusInfo (v : option ProcessStatus) (c : Component) : Component :=
  {| taskId := taskId c; autoPoll := autoPoll c; pollInterval := pollInterval c;
     statusInfo := v; errorMessage := errorMessage c;
     isPolling := isPolling c; pollTimer := pollTimer c;
     startTime := startTime c |}.

Definition set_errorMessage (v : string) (c : Component) : Component :=
  {| taskId := taskId c; autoPoll := autoPoll c; pollInterval := pollInterval c;
     statusInfo := statusInfo c; errorMessage := v;
     isPolling := isPolling c; pollTimer := pollTimer c;
     startTime := startTime c |}.

Definition set_isPolling (v : bool) (c : Component) : Component :=
  {| taskId := taskId c; autoPoll := autoPoll c; pollInterval := pollInterval c;
     statusInfo := statusInfo c; errorMessage := errorMessage c;
     isPolling := v; pollTimer := pollTimer c;
     startTime := startTime c |}.

Definition set_pollTimer (v : option positive) (c : Component) : Component :=
  {| taskId := taskId c; autoPoll := autoPoll c; pollInterval := pollInterval c;
     statusInfo := statusInfo c; errorMessage := errorMessage c;
     isPolling := isPolling c; pollTimer := v;
     startTime := startTime c |}.

Definition set_startTime (v : Z) (c : Component) : Component :=
  {| taskId := taskId c; autoPoll := autoPoll c; pollInterval := pollInterval c;
     statusInfo := statusInfo c; errorMessage := errorMessage c;
     isPolling := isPolling c; pollTimer := pollTimer c;
     startTime := v |}.

(** [emit(e)] *)
Definition emit (e : Event) (w : World) : World :=
  {| comp := comp w; timers := timers w; next_handle := next_handle w;
     inflight := inflight w; emitted := emitted w ++ [e]; clock := clock w |}.

(** [clearTimeout(h)]: forgets the timeout, if it is still set. *)
Definition clearTimeout (h : positive) (w : World) : World :=
  {| comp := comp w;
     timers := filter (λ t, t.1 ≠ h) (timers w);
     next_handle := next_handle w;
     inflight := inflight w; emitted := emitted w; clock := clock w |}.

(** [window.setTimeout(poll, d)]: a fresh handle, and the world with the
    timeout set. *)
Definition setTimeout (d : Z) (w : World) : positive * World :=
  (next_handle w,
   {| comp := comp w;
      timers := timers w ++ [(next_handle w, d)];
      next_handle := Pos.succ (next_handle w);
      inflight := inflight w; emitted := emitted w; clock := clock w |}).

(** [getProcessStatus(id)] up to its [await]: the request is out. *)
Definition getProcessStatus (id : string) (w : World) : World :=
  {| comp := comp w; timers := timers w; next_handle := next_handle w;
     inflight := inflight w ++ [id]; emitted := emitted w; clock := clock w |}.

(** [stopPolling] *)
Definition stopPolling (w : World) : World :=
  let w := upd (set_isPolling false) w in
  let w :=
    match pollTimer (comp w) with
    | Some h => upd (set_pollTimer None) (clearTimeout h w)
    | None => w
    end in
  emit polling_stop w.

(** [poll], from its call to the [await]: it asks for the status of the
    job id the prop holds now. *)
Definition poll (w : World) : World :=
  getProcessStatus (taskId (comp w)) w.

(** [poll] after the [await], when the request returned [st]. *)
Definition poll_resolved (st : ProcessStatus) (w : World) : World :=
  let w := upd (set_statusInfo (Some st)) w in
  let w := emit (status_update st) w in
  if decide (status st = "completed") then
    emit (task_completed st) (stopPolling w)
  else if decide (status st = "failed") then
    emit (task_failed st) (stopPolling w)
  else if isPolling (comp w) then
    let '(h, w) := setTimeout (pollInterval (comp w)) w in
    upd (set_pollTimer (Some h)) w
  else w.

(** [error.message || '获取状态失败'] *)
Definition error_text (e : JsError) : string :=
  str_or (default "" (err_message e)) "获取状态失败".

(** [poll] after the [await], when the request threw [e]: the [catch]
    branch. *)
Definition poll_rejected (e : JsError) (w : World) : World :=
  stopPolling (upd (set_errorMessage (error_text e)) w).

(** [startPolling] *)
Definition startPolling (w : World) : World :=
  if decide (taskId (comp w) = "") then w
  else if isPolling (comp w) then w
  else
    let w := upd (set_isPolling true) w in
    let w := upd (set_errorMessage "") w in
    let w := upd (set_startTime (clock w)) w in
    let w := emit polling_start w in
    poll w.

(** [initPolling] *)
Definition initPolling (w : World) : World :=
  if decide (taskId (comp w) = "") then w
  else if autoPoll (comp w) then startPolling w
  else w.

(** The callback both watchers on [props.taskId] share (lines 725 and
    793; the first one also logs). *)
Definition watch_taskId (newTaskId : string) (w : World) : World :=
  if decide (newTaskId = "") then
    upd (set_statusInfo None) (stopPolling w)
  else initPolling w.

(** The parent assigns [props.taskId]. A watcher runs only when the value
    changed; then both callbacks run, in the order the watchers were
    made. *)
Definition change_taskId (new : string) (w : World) : World :=
  if decide (new = taskId (comp w)) then w
  else
    let w := upd (set_taskId new) w in
    watch_taskId new (watch_taskId new w).

(** [onUnmounted] *)
Definition onUnmounted (w : World) : World := stopPolling w.

(** The component right after [setup] with an empty [taskId] prop (its
    default; the parent assigns the id of a job later): the refs hold
    their initial values and both watchers, being [immediate], have run
    their callback once. *)
Definition initial_refs (auto : bool) (interval : Z) : Component :=
  {| taskId := ""; autoPoll := auto; pollInterval := interval;
     statusInfo := None; errorMessage := ""; isPolling := false;
     pollTimer := None; startTime := 0 |}.

Definition fresh (auto : bool) (interval now : Z) : World :=
  {| comp := initial_refs auto interval; timers := []; next_handle := 1%positive;
     inflight := []; emitted := []; clock := now |}.

Definition setup (auto : bool) (interval now : Z) : World :=
  watch_taskId "" (watch_taskId "" (fresh auto interval now)).

(** What can happen to a mounted component: the parent changes the job id,
    the user clicks the refresh or the stop button (a click stands for the
    call of its handler, whether the button is enabled or not), the
    component is unmounted, the [i]-th outstanding request returns a
    status or throws, the timeout [h] fires. *)
Inductive Action :=
| ChangeTaskId (new : string)
| ClickStart
| ClickStop
| Unmount
| Resolve (i : nat) (st : ProcessStatus)
| Reject (i : nat) (e : JsError)
| Fire (h : positive).

Definition finish_request (i : nat) (w : World) : World :=
  {| comp := comp w; timers := timers w; next_handle := next_handle w;
     inflight := delete i (inflight w); emitted := emitted w; clock := clock w |}.

Definition timer_set (h : positive) (w : World) : bool :=
  bool_decide (h ∈ (timers w).*1).

(** One turn of the event loop; [None] when the action cannot happen (no
    such request, no such timeout). *)
Definition step (a : Action) (w : World) : option World :=
  match a with
  | ChangeTaskId new => Some (change_taskId new w)
  | ClickStart => Some (startPolling w)
  | ClickStop => Some (stopPolling w)
  | Unmount => Some (onUnmounted w)
  | Resolve i st =>
      match inflight w !! i with
      | Some _ => Some (poll_resolved st (finish_request i w))
      | None => None
      end
  | Reject i e =>
      match inflight w !! i with
      | Some _ => Some (poll_rejected e (finish_request i w))
      | None => None
      end
  | Fire h =>
      if timer_set h w then Some (poll (clearTimeout h w)) else None
  end.

Fixpoint run (acts : list Action) (w : World) : option World :=
  match acts with
  | [] => Some w
  | a :: acts => step a w ≫= run acts
  end.

(** The events emitted on the way from [w] to [w']. *)
Definition since (w w' : World) : list Event :=
  drop (length (emitted w)) (emitted w').

(** ** Notions for the statements about the poller *)

(** A payload with a status and, possibly, an explicit progress. *)
Definition payload (id s : string) (p : option Z) : ProcessStatus :=
  {| task_id := id; status := s; progress := p; message := "" |}.

(** The percentages shown after each of the responses [sts], fed to the
    component one after the other. *)
Fixpoint percentages_after (sts : list ProcessStatus) (w : World)
  : list (Read Z) :=
  match sts with
  | [] => []
  | st :: sts =>
      let w' := poll_resolved st w in
      displayProgress (statusInfo (comp w')) :: percentages_after sts w'
  end.

Definition happy_path : list string :=
  ["pending"; "uploading"; "processing_ocr"; "cleaning"; "processing_rag";
   "completed"].

(** The actions of the environment of a session: they need no user and no
    parent. *)
Definition environment (a : Action) : bool :=
  match a with
  | Resolve _ _ | Reject _ _ | Fire _ => true
  | _ => false
  end.

(** The events that report the end of a job. *)
Definition terminal_event (ev : Event) : bool :=
  match ev with
  | task_completed _ | task_failed _ => true
  | _ => false
  end.

(** A session that began in [w0] and is left alone: in [w] the poller is
    polling and waits for one response or for one timeout, its error
    message is empty, and since [w0] it has emitted neither a completed
    nor a failed event. *)
Inductive session (w0 w : World) : Prop :=
| awaiting_response id evs :
    isPolling (comp w) = true →
    errorMessage (comp w) = "" →
    inflight w = [id] →
    timers w = [] →
    emitted w = emitted w0 ++ evs →
    filter terminal_event evs = [] →
    session w0 w
| awaiting_timeout h d evs :
    isPolling (comp w) = true →
    errorMessage (comp w) = "" →
    inflight w = [] →
    timers w = [(h, d)] →
    pollTimer (comp w) = Some h →
    emitted w = emitted w0 ++ evs →
    filter terminal_event evs = [] →
    session w0 w.

(** Nothing is polling, out or set. *)
Definition halted (w : World) : Prop :=
  isPolling (comp w) = false ∧ inflight w = [] ∧ timers w = [].

End Poller.

(** ** The object store (JavaScript arrays and objects, JSON) *)

Module Store.

(** A JSON document, as [JSON.stringify] writes it and [JSON.parse] reads
    it: a tree, with no sharing. *)
Inductive json :=
| JNull
| JBool (b : bool)
| JNum (q : Q)
| JStr (s : string)
| JArr (items : list json)
| JObj (fields : list (string * json)).

(** A JavaScript value: a primitive, or a reference to an array or an
    object in the store. Two references to one location are the same
    object. *)
Inductive val :=
| VNull
| VBool (b : bool)
| VNum (q : Q)
| VStr (s : string)
| VRef (l : nat).

Inductive cell :=
| CArr (items : list val)
| CObj (fields : list (string * val)).

#[global] Instance Q_eq_dec : EqDecision Q.
Proof. solve_decision. Defined.

#[global] Instance val_eq_dec : EqDecision val.
Proof. solve_decision. Defined.

(** The store: location [l] is the [l]-th cell; an allocation appends. *)
Abbreviation heap := (list cell).

(** [JSON.stringify(v)], as the tree it writes. It follows references, so
    it needs fuel: [None] when the fuel runs out (an object that contains
    itself, on which [JSON.stringify] throws) or a reference dangles. *)
Fixpoint stringify (fuel : nat) (h : heap) (v : val) : option json :=
  match v with
  | VNull => Some JNull
  | VBool b => Some (JBool b)
  | VNum q => Some (JNum q)
  | VStr s => Some (JStr s)
  | VRef l =>
      match fuel with
      | O => None
      | S fuel =>
          match h !! l with
          | None => None
          | Some (CArr items) => JArr <$> mapM (stringify fuel h) items
          | Some (CObj fields) =>
              JObj <$> mapM (λ kv, pair kv.1 <$> stringify fuel h kv.2) fields
          end
      end
  end.

(** Fuel that suffices whenever any fuel does: a chain of references
    without a cycle is no longer than the store. *)
Definition to_json (h : heap) (v : val) : option json :=
  stringify (length h) h v.

Section alloc_list.
Context {A B : Type} (alloc : A → heap → heap * B).

Fixpoint alloc_list (xs : list A) (h : heap) : heap * list B :=
  match xs with
  | [] => (h, [])
  | x :: xs =>
      let '(h1, y) := alloc x h in
      let '(h2, ys) := alloc_list xs h1 in
      (h2, y :: ys)
  end.
End alloc_list.

(** [JSON.parse]: every array and every object of the document becomes a
    new cell, children before their parent. *)
Fixpoint parse (j : json) (h : heap) : heap * val :=
  match j with
  | JNull => (h, VNull)
  | JBool b => (h, VBool b)
  | JNum q => (h, VNum q)
  | JStr s => (h, VStr s)
  | JArr items =>
      let '(h', vs) := alloc_list parse items h in
      (h' ++ [CArr vs], VRef (length h'))
  | JObj fields =>
      let '(h', fs) :=
        alloc_list
          (λ kv h, let '(h1, v) := parse kv.2 h in (h1, (kv.1, v)))
          fields h in
      (h' ++ [CObj fs], VRef (length h'))
  end.

(** How deep arrays and objects nest in a document. *)
Fixpoint depth (j : json) : nat :=
  match j with
  | JArr items => S (max_list (depth <$> items))
  | JObj fields => S (max_list ((λ kv, depth kv.2) <$> fields))
  | _ => O
  end.

(** [v.k] on a stored object ([None] for [undefined]). *)
Definition assoc {V : Type} (k : string) (fields : list (string * V)) : option V :=
  snd <$> find (λ kv, bool_decide (kv.1 = k)) fields.

Definition get_field (k : string) (j : json) : option json :=
  match j with
  | JObj fields => assoc k fields
  | _ => None
  end.

(** Truthiness of a JSON value, for [||]. *)
Definition truthy (j : json) : bool :=
  match j with
  | JNull => false
  | JBool b => b
  | JNum q => negb (Qeq_bool q 0)
  | JStr s => bool_decide (s ≠ "")
  | JArr _ | JObj _ => true
  end.

(** [a || d] where [a] may be [undefined]. *)
Definition or_else (a : option json) (d : json) : json :=
  match a with
  | Some j => if truthy j then j else d
  | None => d
  end.

(** ** Notions for the statements about the store *)

(** Induction over documents, with the hypothesis for every item of an
    array and every field of an object. *)
Section json_tree_ind.
Variable P : json → Prop.
Hypothesis Hnull : P JNull.
Hypothesis Hbool : ∀ b, P (JBool b).
Hypothesis Hnum : ∀ q, P (JNum q).
Hypothesis Hstr : ∀ s, P (JStr s).
Hypothesis Harr : ∀ items, Forall P items → P (JArr items).
Hypothesis Hobj : ∀ fields, Forall (λ kv, P kv.2) fields → P (JObj fields).

Fixpoint json_tree_ind (j : json) : P j :=
  match j with
  | JNull => Hnull
  | JBool b => Hbool b
  | JNum q => Hnum q
  | JStr s => Hstr s
  | JArr items =>
      Harr items
        ((fix all (js : list json) : Forall P js :=
            match js with
            | [] => List.Forall_nil _
            | j :: js => List.Forall_cons _ _ _ (json_tree_ind j) (all js)
            end) items)
  | JObj fields =>
      Hobj fields
        ((fix all (fs : list (string * json)) : Forall (λ kv, P kv.2) fs :=
            match fs with
            | [] => List.Forall_nil _
            | kv :: fs =>
                List.Forall_cons (λ kv, P kv.2) _ _ (json_tree_ind kv.2) (all fs)
            end) fields)
  end.
End json_tree_ind.

(** [v] reads as the document [j] from the cells [ext] alone: whatever the
    [n] cells before them hold, whatever is allocated after them, and with
    any fuel from the depth of [j] on. *)
Definition reads_back (n : nat) (ext : list cell) (v : val) (j : json) : Prop :=
  ∀ old later fuel,
    length old = n → (depth j ≤ fuel)%nat →
    stringify fuel (old ++ ext ++ later) v = Some j.

(** What [parse] promises: it only appends cells, at least as many as the
    document is deep, and the value it returns reads back as the document
    from the new cells alone. *)
Definition parse_ok (j : json) : Prop :=
  ∀ h, ∃ ext v,
    parse j h = (h ++ ext, v)
    ∧ reads_back (length h) ext v j
    ∧ (depth j ≤ length ext)%nat.

(** The values a cell holds, and the document of a cell from the
    documents of its values. *)
Definition cell_values (c : cell) : list val :=
  match c with
  | CArr items => items
  | CObj fields => fields.*2
  end.

Definition rebuild (c : cell) (js : list json) : json :=
  match c with
  | CArr _ => JArr js
  | CObj fields => JObj (zip (fields.*1) js)
  end.

(** Writes into the first [n] cells of a store. *)
Definition writes_below (n : nat) (ws : list (nat * cell)) : Prop :=
  Forall (λ lc, (lc.1 < n)%nat) ws.

Definition write_all (ws : list (nat * cell)) (h : heap) : heap :=
  foldl (λ h lc, <[lc.1 := lc.2]> h) h ws.

End Store.

(** ** The segment editor (part_000, lines 149-389) *)

(** [RAGProcessRequest] of [api/api.ts]; the editor fills every field. *)
Module Api.
Record RAGProcessRequest := {
  content : string;
  chunk_size : Z;
  overlap : Z;
  llm_backend : string;
  llm_model : string;
  llm_timeout : Z
}.
End Api.

Module Editor.
Import Store.

(** What the [catch] clause of [processRAGContent] catches: what the
    request was rejected with, or the [TypeError] the engine makes when
    the code after the [await] fails on the response. Of the latter the
    model keeps only that it is one: its message is the engine's. *)
Inductive Caught :=
| rejection (e : JsError)
| engine_TypeError.

(** The events of [Emits]; a segment list travels as the reference to its
    array. *)
Inductive Event :=
| segments_update (segments : val)
| rag_start
| rag_success (segments : val)
| rag_error (error : Caught)
| export_request.

Inductive MessageType := success | error | info.

Record RagConfig := {
  chunkSize : Z;
  overlap : Z;
  llmModel : string;
  llmBackend : string;
  llmTimeout : Z
}.

(** Props ([segments], [ragContent]) and refs of the component. *)
Record Component := {
  segments : val;
  ragContent : option string;
  editedSegments : val;
  editingSegmentId : string;
  selectedSegments : list string;
  isProcessing : bool;
  processingProgress : Z;
  processingMessage : string;
  showConfig : bool;
  showResultMessage : bool;
  resultMessageType : MessageType;
  ragConfig : RagConfig
}.

(** The component in its browser: the object store it shares with its
    parent, the [processRAG] requests it is awaiting, how many of the
    two-second timeouts of the success path are set, the events emitted so
    far (oldest first) and [Date.now()]. *)
Record World := {
  comp : Component;
  store : heap;
  requests : list Api.RAGProcessRequest;
  resets : nat;
  emitted : list Event;
  clock : Z
}.

Definition upd (f : Component → Component) (w : World) : World :=
  {| comp := f (comp w); store := store w; requests := requests w;
     resets := resets w; emitted := emitted w; clock := clock w |}.

Definition set_store (h : heap) (w : World) : World :=
  {| comp := comp w; store := h; requests := requests w;
     resets := resets w; emitted := emitted w; clock := clock w |}.

Definition set_segments (v : val) (c : Component) : Component :=
  {| segments := v; ragContent := ragContent c;
     editedSegments := editedSegments c;
     editingSegmentId := editingSegmentId c;
     selectedSegments := selectedSegments c;
     isProcessing := isProcessing c;
     processingProgress := processingProgress c;
     processingMessage := processingMessage c; showConfig := showConfig c;
     showResultMessage := showResultMessage c;
     resultMessageType := resultMessageType c; ragConfig := ragConfig c |}.

Definition set_editedSegments (v : val) (c : Component) : Component :=
  {| segments := segments c; ragContent := ragContent c;
     editedSegments := v; editingSegmentId := editingSegmentId c;
     selectedSegments := selectedSegments c;
     isProcessing := isProcessing c;
     processingProgress := processingProgress c;
     processingMessage := processingMessage c; showConfig := showConfig c;
     showResultMessage := showResultMessage c;
     resultMessageType := resultMessageType c; ragConfig := ragConfig c |}.

Definition set_editingSegmentId (v : string) (c : Component) : Component :=
  {| segments := segments c; ragContent := ragContent c;
     editedSegments := editedSegments c; editingSegmentId := v;
     selectedSegments := selectedSegments c;
     isProcessing := isProcessing c;
     processingProgress := processingProgress c;
     processingMessage := processingMessage c; showConfig := showConfig c;
     showResultMessage := showResultMessage c;
     resultMessageType := resultMessageType c; ragConfig := ragConfig c |}.

Definition set_isProcessing (v : bool) (c : Component) : Component :=
  {| segments := segments c; ragContent := ragContent c;
     editedSegments := editedSegments c;
     editingSegmentId := editingSegmentId c;
     selectedSegments := selectedSegments c; isProcessing := v;
     processingProgress := processingProgress c;
     processingMessage := processingMessage c; showConfig := showConfig c;
     showResultMessage := showResultMessage c;
     resultMessageType := resultMessageType c; ragConfig := ragConfig c |}.

Definition set_processingProgress (v : Z) (c : Component) : Component :=
  {| segments := segments c; ragContent := ragContent c;
     editedSegments := editedSegments c;
     editingSegmentId := editingSegmentId c;
     selectedSegments := selectedSegments c;
     isProcessing := isProcessing c; processingProgress := v;
     processingMessage := processingMessage c; showConfig := showConfig c;
     showResultMessage := showResultMessage c;
     resultMessageType := resultMessageType c; ragConfig := ragConfig c |}.

Definition set_processingMessage (v : string) (c : Component) : Component :=
  {| segments := segments c; ragContent := ragContent c;
     editedSegments := editedSegments c;
     editingSegmentId := editingSegmentId c;
     selectedSegments := selectedSegments c;
     isProcessing := isProcessing c;
     processingProgress := processingProgress c; processingMessage := v;
     showConfig := showConfig c; showResultMessage := showResultMessage c;
     resultMessageType := resultMessageType c; ragConfig := ragConfig c |}.

Definition set_showResultMessage (v : bool) (c : Component) : Component :=
  {| segments := segments c; ragContent := ragContent c;
     editedSegments := editedSegments c;
     editingSegmentId := editingSegmentId c;
     selectedSegments := selectedSegments c;
     isProcessing := isProcessing c;
     processingProgress := processingProgress c;
     processingMessage := processingMessage c; showConfig := showConfig c;
     showResultMessage := v; resultMessageType := resultMessageType c;
     ragConfig := ragConfig c |}.

Definition set_resultMessageType (v : MessageType) (c : Component) : Component :=
  {| segments := segments c; ragContent := ragContent c;
     editedSegments := editedSegments c;
     editingSegmentId := editingSegmentId c;
     selectedSegments := selectedSegments c;
     isProcessing := isProcessing c;
     processingProgress := processingProgress c;
     processingMessage := processingMessage c; showConfig := showConfig c;
     showResultMessage := showResultMessage c; resultMessageType := v;
     ragConfig := ragConfig c |}.

Definition set_ragContent (v : option string) (c : Component) : Component :=
  {| segments := segments c; ragContent := v;
     editedSegments := editedSegments c;
     editingSegmentId := editingSegmentId c;
     selectedSegments := selectedSegments c;
     isProcessing := isProcessing c;
     processingProgress := processingProgress c;
     processingMessage := processingMessage c; showConfig := showConfig c;
     showResultMessage := showResultMessage c;
     resultMessageType := resultMessageType c; ragConfig := ragConfig c |}.

Definition set_showConfig (v : bool) (c : Component) : Component :=
  {| segments := segments c; ragContent := ragContent c;
     editedSegments := editedSegments c;
     editingSegmentId := editingSegmentId c;
     selectedSegments := selectedSegments c;
     isProcessing := isProcessing c;
     processingProgress := processingProgress c;
     processingMessage := processingMessage c; showConfig := v;
     showResultMessage := showResultMessage c;
     resultMessageType := resultMessageType c; ragConfig := ragConfig c |}.

Definition emit (e : Event) (w : World) : World :=
  {| comp := comp w; store := store w; requests := requests w;
     resets := resets w; emitted := emitted w ++ [e]; clock := clock w |}.

(** [processRAG(request)] up to its [await]. *)
Definition processRAG (request : Api.RAGProcessRequest) (w : World) : World :=
  {| comp := comp w; store := store w; requests := requests w ++ [request];
     resets := resets w; emitted := emitted w; clock := clock w |}.

Definition finish_request (i : nat) (w : World) : World :=
  {| comp := comp w; store := store w; requests := delete i (requests w);
     resets := resets w; emitted := emitted w; clock := clock w |}.

(** [setTimeout(() => { ... }, 2000)] of the success path. *)
Definition set_reset (w : World) : World :=
  {| comp := comp w; store := store w; requests := requests w;
     resets := S (resets w); emitted := emitted w; clock := clock w |}.

(** The callback of the watcher on [props.segments]:
    [editedSegments.value = JSON.parse(JSON.stringify(newSegments))].
    When [JSON.stringify] throws, the assignment does not happen. *)
Definition watch_segments (newSegments : val) (w : World) : World :=
  match to_json (store w) newSegments with
  | Some j =>
      let '(h, copy) := parse j (store w) in
      upd (set_editedSegments copy) (set_store h w)
  | None => w
  end.

(** The parent assigns [props.segments]; the watcher runs when the value
    (for an array, the reference) is another one than before. *)
Definition change_segments (new : val) (w : World) : World :=
  if decide (new = segments (comp w)) then w
  else watch_segments new (upd (set_segments new) w).

(** The parent writes into an object or array it holds. *)
Definition external_write (l : nat) (c : cell) (w : World) : World :=
  set_store (<[l := c]> (store w)) w.

(** The working collection as a document. *)
Definition collection (w : World) : option json :=
  to_json (store w) (editedSegments (comp w)).

(** [editSegment] *)
Definition editSegment (segmentId : string) (w : World) : World :=
  if decide (editingSegmentId (comp w) = segmentId) then
    let w := upd (set_editingSegmentId "") w in
    emit (segments_update (editedSegments (comp w))) w
  else upd (set_editingSegmentId segmentId) w.

(** [mergeSegments]: it logs, and does nothing else. *)
Definition mergeSegments (w : World) : World := w.

(** JavaScript's truthiness of an optional string prop. *)
Definition has_text (o : option string) : bool :=
  match o with
  | Some text => bool_decide (text ≠ "")
  | None => false
  end.

(** [props.segments.length] *)
Definition segments_length (w : World) : nat :=
  match segments (comp w) with
  | VRef a =>
      match store w !! a with
      | Some (CArr items) => length items
      | _ => O
      end
  | _ => O
  end.

(** The callback of the watcher on [props.ragContent]. *)
Definition watch_ragContent (newContent : option string) (w : World) : World :=
  if has_text newContent && bool_decide (segments_length w = O)
  then upd (set_showConfig true) w
  else w.

Definition change_ragContent (new : option string) (w : World) : World :=
  if decide (new = ragContent (comp w)) then w
  else watch_ragContent new (upd (set_ragContent new) w).

(** [a || b] where both may be [undefined]. *)
Definition or_opt (a b : option json) : option json :=
  match a with
  | Some j => if truthy j then a else b
  | None => b
  end.

(** [props.segments[0]?.fileId || ''], read through the store (a file id
    is a string; were it an object, the new segment would share it). *)
Definition first_fileId (w : World) : json :=
  match segments (comp w) with
  | VRef a =>
      match store w !! a with
      | Some (CArr (VRef o :: _)) =>
          match store w !! o with
          | Some (CObj fields) =>
              match assoc "fileId" fields with
              | Some v => or_else (to_json (store w) v) (JStr "")
              | None => JStr ""
              end
          | _ => JStr ""
          end
      | _ => JStr ""
      end
  | _ => JStr ""
  end.

(** The own enumerable properties [{...j}] copies. *)
Definition spread (j : json) : list (string * json) :=
  match j with
  | JObj fields => fields
  | JArr items => imap (λ i x, (pretty i, x)) items
  | JStr s =>
      imap (λ i c, (pretty i, JStr (String c EmptyString)))
           (String.list_ascii_of_string s)
  | _ => []
  end.

(** [{...fields, k: v}]: [k] keeps its place when the spread has it. *)
Fixpoint set_key (k : string) (v : json) (fields : list (string * json))
  : list (string * json) :=
  match fields with
  | [] => [(k, v)]
  | (k', v') :: rest =>
      if decide (k' = k) then (k, v) :: rest
      else (k', v') :: set_key k v rest
  end.

(** [seg.metadata?.confidence] *)
Definition metadata_confidence (seg : json) : option json :=
  match get_field "metadata" seg with
  | None | Some JNull => None
  | Some m => get_field "confidence" m
  end.

(** The body of [segments.map((seg, index) => ...)]; [None] when [seg] is
    [null] and [seg.id] throws a [TypeError]. *)
Definition format_segment (w : World) (index : nat) (seg : json) : option json :=
  match seg with
  | JNull => None
  | _ =>
      Some (JObj [
        ("id", or_else (get_field "id" seg)
                 (JStr ("rag-" +:+ pretty (clock w) +:+ "-" +:+ pretty index)));
        ("fileId", first_fileId w);
        ("content", or_else (or_opt (get_field "content" seg)
                                    (get_field "text" seg))
                      (JStr ""));
        ("chunkIndex", JNum (inject_Z (Z.of_nat index)));
        ("metadata",
          JObj (set_key "confidence"
                  (or_else (or_opt (metadata_confidence seg)
                                   (get_field "confidence" seg))
                     (JNum (9 # 10)))
                  (spread (or_else (get_field "metadata" seg) (JObj [])))))
      ])
  end.

(** [processRAGContent] from the click to the [await]. *)
Definition processRAGContent (w : World) : World :=
  match ragContent (comp w) with
  | None => w
  | Some text =>
      if decide (text = "") then w
      else if isProcessing (comp w) then w
      else
        let w := upd (set_isProcessing true) w in
        let w := upd (set_processingProgress 10) w in
        let w := upd (set_processingMessage "准备RAG处理...") w in
        let w := upd (set_showResultMessage false) w in
        let w := emit rag_start w in
        let w := upd (set_processingProgress 30) w in
        let w := upd (set_processingMessage "发送请求到服务器...") w in
        let request :=
          {| Api.content := text;
             Api.chunk_size := chunkSize (ragConfig (comp w));
             Api.overlap := overlap (ragConfig (comp w));
             Api.llm_model := llmModel (ragConfig (comp w));
             Api.llm_backend := llmBackend (ragConfig (comp w));
             Api.llm_timeout := llmTimeout (ragConfig (comp w)) |} in
        let w := upd (set_processingProgress 50) w in
        let w := upd (set_processingMessage "正在处理分段...") w in
        processRAG request w
  end.

(** The [catch] branch of [processRAGContent]. *)
Definition processRAGContent_catch (e : Caught) (w : World) : World :=
  let w := upd (set_processingMessage "处理失败") w in
  let w := upd (set_showResultMessage true) w in
  let w := upd (set_resultMessageType error) w in
  let w := emit (rag_error e) w in
  let w := upd (set_isProcessing false) w in
  upd (set_processingProgress 0) w.

(** [processRAGContent] after the [await], when the request returned
    [response]. *)
Definition processRAGContent_resolved (response : json) (w : World) : World :=
  match response with
  | JArr segs =>
      match mapM id (imap (format_segment w) segs) with
      | Some formatted =>
          let '(h, formattedSegments) := parse (JArr formatted) (store w) in
          let w := set_store h w in
          let w := upd (set_editedSegments formattedSegments) w in
          let w := upd (set_processingProgress 100) w in
          let w := upd (set_processingMessage "RAG处理完成！") w in
          let w := upd (set_showResultMessage true) w in
          let w := upd (set_resultMessageType success) w in
          let w := emit (rag_success formattedSegments) w in
          let w := emit (segments_update formattedSegments) w in
          set_reset w
      | None => processRAGContent_catch engine_TypeError w
      end
  | _ => processRAGContent_catch engine_TypeError w
  end.

(** The two-second timeout of the success path fires. *)
Definition reset_fires (w : World) : World :=
  let w := upd (set_isProcessing false) w in
  let w := upd (set_processingProgress 0) w in
  let w := upd (set_processingMessage "") w in
  {| comp := comp w; store := store w; requests := requests w;
     resets := pred (resets w); emitted := emitted w; clock := clock w |}.

(** What can happen to a mounted editor. A click stands for the call of
    its handler, whether the button is enabled or not. *)
Inductive Action :=
| ChangeSegments (new : val)
| ChangeRagContent (new : option string)
| ExternalWrite (l : nat) (c : cell)
| ClickEdit (segmentId : string)
| ClickProcess
| ClickMerge
| Respond (i : nat) (response : json)
| Fail (i : nat) (e : JsError)
| ResetFires.

(** One turn of the event loop; [None] when the action cannot happen. *)
Definition step (a : Action) (w : World) : option World :=
  match a with
  | ChangeSegments new => Some (change_segments new w)
  | ChangeRagContent new => Some (change_ragContent new w)
  | ExternalWrite l c => Some (external_write l c w)
  | ClickEdit segmentId => Some (editSegment segmentId w)
  | ClickProcess => Some (processRAGContent w)
  | ClickMerge => Some (mergeSegments w)
  | Respond i response =>
      match requests w !! i with
      | Some _ => Some (processRAGContent_resolved response (finish_request i w))
      | None => None
      end
  | Fail i e =>
      match requests w !! i with
      | Some _ =>
          Some (processRAGContent_catch (rejection e) (finish_request i w))
      | None => None
      end
  | ResetFires =>
      match resets w with
      | O => None
      | S _ => Some (reset_fires w)
      end
  end.

Fixpoint run (acts : list Action) (w : World) : option World :=
  match acts with
  | [] => Some w
  | a :: acts => step a w ≫= run acts
  end.

(** The editor right after [setup]: the refs hold their initial values and
    the two [immediate] watchers have run. *)
Definition initial_refs (segs : val) (text : option string) (empty : val)
  : Component :=
  {| segments := segs; ragContent := text; editedSegments := empty;
     editingSegmentId := ""; selectedSegments := [];
     isProcessing := false; processingProgress := 0;
     processingMessage := ""; showConfig := false;
     showResultMessage := false; resultMessageType := info;
     ragConfig := {| chunkSize := 500; overlap := 50;
                     llmModel := "deepseek-chat"; llmBackend := "deepseek";
                     llmTimeout := 60 |} |}.

Definition setup (h : heap) (segs : val) (text : option string) (now : Z) : World :=
  let w := {| comp := initial_refs segs text (VRef (length h));
              store := h ++ [CArr []]; requests := [];
              resets := O; emitted := []; clock := now |} in
  watch_ragContent text (watch_segments segs w).

(** ** Notions for the statements about the editor *)

(** A store for the examples: three segments of one file, the array the
    parent passes as [props.segments] at first, and a second array, of the
    first and the last segment. *)
Definition segment_cell (id text : string) : cell :=
  CObj [("id", VStr id); ("fileId", VStr "file-1"); ("content", VStr text)].

Definition three_segments : heap :=
  [segment_cell "a" "x"; segment_cell "b" "y"; segment_cell "c" "z";
   CArr [VRef 0; VRef 1; VRef 2]; CArr [VRef 0; VRef 2]].

Definition mounted : World :=
  setup three_segments (VRef 3) (Some "hello world") 0.

Definition segment_json (id text : string) : json :=
  JObj [("id", JStr id); ("fileId", JStr "file-1"); ("content", JStr text)].

(** An editor in which the segments [ids] are selected. (The source has
    no assignment to [selectedSegments]; the state is one the refs can be
    in all the same.) *)
Definition set_selectedSegments (v : list string) (c : Component) : Component :=
  {| segments := segments c; ragContent := ragContent c;
     editedSegments := editedSegments c;
     editingSegmentId := editingSegmentId c;
     selectedSegments := v;
     isProcessing := isProcessing c;
     processingProgress := processingProgress c;
     processingMessage := processingMessage c; showConfig := showConfig c;
     showResultMessage := showResultMessage c;
     resultMessageType := resultMessageType c; ragConfig := ragConfig c |}.

Definition selecting (ids : list string) (w : World) : World :=
  upd (set_selectedSegments ids) w.

(** The parent's writes, as actions. *)
Definition external (ws : list (nat * cell)) : list Action :=
  (λ lc, ExternalWrite lc.1 lc.2) <$> ws.

End Editor.

(** * What the specification says

    Definitions that follow the words of the specification, for the
    comparison with what the components do. *)

Module Specification.
Import Store.

(** The clamp of the specification: into the interval from 0 to 100. *)
Definition spec_clamp (p : Z) : Z := Z.max 0 (Z.min p 100).

(** What the specification asks of a halt without a session. *)
Definition spec_halt_is_noop (w : Poller.World) : Prop :=
  Poller.emitted (Poller.stopPolling w) = Poller.emitted w
  ∧ Poller.comp (Poller.stopPolling w) = Poller.comp w
  ∧ Poller.timers (Poller.stopPolling w) = Poller.timers w.

(** The merge of the specification, on the segments of a collection:
    with two or more segments selected, the first of them (in the order of
    the collection) gets the contents of all of them, concatenated in that
    order, and the others are removed; otherwise nothing changes. *)
Definition is_selected (ids : list string) (seg : json) : bool :=
  match get_field "id" seg with
  | Some (JStr id) => bool_decide (id ∈ ids)
  | _ => false
  end.

Definition content_of (seg : json) : string :=
  match get_field "content" seg with
  | Some (JStr text) => text
  | _ => ""
  end.

Definition with_content (text : string) (seg : json) : json :=
  match seg with
  | JObj fields => JObj (Editor.set_key "content" (JStr text) fields)
  | _ => seg
  end.

Fixpoint spec_merge_into_first
    (ids : list string) (merged : string) (first_seen : bool)
    (segs : list json) : list json :=
  match segs with
  | [] => []
  | seg :: rest =>
      if is_selected ids seg then
        if first_seen then spec_merge_into_first ids merged true rest
        else with_content merged seg
             :: spec_merge_into_first ids merged true rest
      else seg :: spec_merge_into_first ids merged first_seen rest
  end.

Definition spec_mergeSelected (ids : list string) (segs : list json)
  : list json :=
  match filter (is_selected ids) segs with
  | (_ :: _ :: _) as chosen =>
      spec_merge_into_first ids
        (foldr (λ seg acc, content_of seg +:+ acc) "" chosen) false segs
  | _ => segs
  end.

End Specification.

(** * The rest of the progress component (part_002, lines 613-711) *)

Module PollerView.
Import Poller.

(** One entry of [processingSteps]. *)
Record Step := { id : string; icon : string; label : string }.

Definition processingSteps : list Step :=
  [ {| id := "pending"; icon := "⏳"; label := "等待" |};
    {| id := "uploading"; icon := "📤"; label := "上传" |};
    {| id := "processing_ocr"; icon := "🔍"; label := "文字识别" |};
    {| id := "cleaning"; icon := "🧹"; label := "清洗" |};
    {| id := "processing_rag"; icon := "📝"; label := "RAG分段" |};
    {| id := "completed"; icon := "✅"; label := "完成" |};
    {| id := "failed"; icon := "❌"; label := "失败" |} ].

(** [Array.prototype.findIndex]: the first index whose element satisfies
    the test, -1 when there is none. *)
Fixpoint findIndex_from {A : Type} (test : A → bool) (l : list A) (i : Z) : Z :=
  match l with
  | [] => -1
  | x :: l => if test x then i else findIndex_from test l (i + 1)
  end.

Definition findIndex {A : Type} (test : A → bool) (l : list A) : Z :=
  findIndex_from test l 0.

(** [isStepCompleted] *)
Definition isStepCompleted (statusInfo : option ProcessStatus) (stepId : string)
  : bool :=
  if decide (currentStatus statusInfo = "failed") then false
  else
    let stepIndex :=
      findIndex (λ step, bool_decide (id step = stepId)) processingSteps in
    let currentIndex :=
      findIndex (λ step, bool_decide (Val (id step) = currentStep statusInfo))
                processingSteps in
    (stepIndex <? currentIndex)
    && bool_decide (currentStatus statusInfo ≠ "failed").



(** The getter of the computed [elapsedTime], run when [Date.now()] is
    [now]: the empty text while [startTime] is 0; otherwise the whole
    seconds from [startTime] to now ([Math.floor] of integers is the floor
    quotient, [%] the remainder with the sign of the dividend), as seconds
    below one minute and as minutes and seconds from there on. *)
Definition elapsedTime_getter (startTime now : Z) : string :=
  if decide (startTime = 0) then ""
  else
    let elapsed := now - startTime in
    let seconds := elapsed / 1000 in
    if seconds <? 60 then pretty seconds +:+ "秒"
    else
      let minutes := seconds / 60 in
      let remainingSeconds := Z.rem seconds 60 in
      pretty minutes +:+ "分" +:+ pretty remainingSeconds +:+ "秒".

(** [elapsedTime] is a computed ref. Its getter reads one ref,
    [startTime], and the clock, which is no ref; so Vue runs the getter
    at the first read and after that only at the first read after
    [startTime] has been assigned another value, and every other read
    returns the value kept from the last run. [kept] is that value,
    [None] before the first read and after such an assignment. *)
Record View := { world : World; kept : option string }.

(** A read of [elapsedTime], as the template makes when it renders: the
    text, and the view with the text kept. *)
Definition elapsedTime (v : View) : string * View :=
  match kept v with
  | Some text => (text, v)
  | None =>
      let text :=
        elapsedTime_getter (startTime (comp (world v))) (clock (world v)) in
      (text, {| world := world v; kept := Some text |})
  end.

Definition set_clock (now : Z) (w : World) : World :=
  {| comp := comp w; timers := timers w; next_handle := next_handle w;
     inflight := inflight w; emitted := emitted w; clock := now |}.

(** What happens to the component and its view: a turn of the event loop
    (a handler assigns [startTime] at most once, and the value kept is
    dropped when the value assigned is another one than before), the
    clock moves on, the template reads [elapsedTime]. *)
Inductive Moment :=
| Does (a : Action)
| Passes (now : Z)
| Renders.

Definition moment (m : Moment) (v : View) : option View :=
  match m with
  | Does a =>
      w' ← step a (world v);
      Some {| world := w';
              kept := if decide (startTime (comp w')
                                 = startTime (comp (world v)))
                      then kept v else None |}
  | Passes now => Some {| world := set_clock now (world v); kept := kept v |}
  | Renders => Some (elapsedTime v).2
  end.

Fixpoint moments (ms : list Moment) (v : View) : option View :=
  match ms with
  | [] => Some v
  | m :: ms => moment m v ≫= moments ms
  end.

(** The moments that start no polling: everything but a change of the job
    id and a click on the start button. *)
Definition starts_nothing (m : Moment) : bool :=
  match m with
  | Does (ChangeTaskId _) | Does ClickStart => false
  | _ => true
  end.

(** The state of polling the parent can tell from the events: on after a
    start event, off after a stop event. *)
Definition polling_by_events (evs : list Event) : bool :=
  foldl (λ on ev,
           match ev with
           | polling_start => true
           | polling_stop => false
           | _ => on
           end) false evs.

(** The payload of the last update event, if there was one. *)
Definition last_update (evs : list Event) : option ProcessStatus :=
  foldl (λ shown ev,
           match ev with
           | status_update st => Some st
           | _ => shown
           end) None evs.

(** What the parent can tell from the events agrees with the refs. *)
Definition in_step_with_events (w : World) : Prop :=
  isPolling (comp w) = polling_by_events (emitted w)
  ∧ (statusInfo (comp w) = None
     ∨ statusInfo (comp w) = last_update (emitted w)).

End PollerView.

(** * [pollTaskStatus] (api/api.ts, lines 183-206) *)

Module ApiPolling.
Import Poller.

(** How the promise of [pollTaskStatus] settles. *)
Inductive Outcome :=
| Resolved (status : ProcessStatus)
| Rejected (error : JsError).

(** [new Error('轮询超时')] *)
Definition timeout_error : JsError := {| err_message := Some "轮询超时" |}.

Definition terminal (st : ProcessStatus) : bool :=
  bool_decide (status st = "completed") || bool_decide (status st = "failed").

(** The loop [poll] of [pollTaskStatus]. [answers n] is what the [n]-th
    call of [getProcessStatus] (counted from 0) gives: a status, or the
    error it throws. [attempts] is the counter before the increment; the
    result is the outcome and the number of requests made. The loop needs
    fuel, one unit for each request. *)
Fixpoint poll_loop (fuel : nat) (answers : nat → ProcessStatus + JsError)
    (maxAttempts : Z) (attempts : nat) : option (Outcome * nat) :=
  match fuel with
  | O => None
  | S fuel =>
      let attempts := S attempts in
      match answers (pred attempts) with
      | inr error => Some (Rejected error, attempts)
      | inl st =>
          if terminal st then Some (Resolved st, attempts)
          else if Z.of_nat attempts >=? maxAttempts
               then Some (Rejected timeout_error, attempts)
               else poll_loop fuel answers maxAttempts attempts
      end
  end.

(** [pollTaskStatus(taskId, interval, maxAttempts)]; the interval only
    delays the requests. *)
Definition pollTaskStatus (answers : nat → ProcessStatus + JsError)
    (maxAttempts : Z) : option (Outcome * nat) :=
  poll_loop (S (Z.to_nat maxAttempts)) answers maxAttempts O.

(** The answer is a status that is neither completed nor failed. *)
Definition goes_on (answer : ProcessStatus + JsError) : Prop :=
  ∃ st, answer = inl st ∧ terminal st = false.

End ApiPolling.

(** * The rest of the segment editor (part_000, lines 199-241, 357-369) *)

Module EditorOps.
Import Store Editor.

(** Truthiness of a JavaScript value. *)
Definition val_truthy (v : val) : bool :=
  match v with
  | VNull => false
  | VBool b => b
  | VNum q => negb (Qeq_bool q 0)
  | VStr s => bool_decide (s ≠ "")
  | VRef _ => true
  end.

(** [o.k = v] on a stored object: an existing key keeps its place, a new
    one goes to the end. *)
Fixpoint put_field {V : Type} (k : string) (v : V) (fields : list (string * V))
  : list (string * V) :=
  match fields with
  | [] => [(k, v)]
  | (k', v') :: rest =>
      if decide (k' = k) then (k, v) :: rest
      else (k', v') :: put_field k v rest
  end.

(** [s.id === segmentId] for an element [s] of the working array; [None]
    when the property access throws ([s] is [null]). *)
Definition id_is (h : heap) (segmentId : string) (s : val) : option bool :=
  match s with
  | VNull => None
  | VRef o =>
      match h !! o with
      | Some (CObj fields) =>
          Some (bool_decide (assoc "id" fields = Some (VStr segmentId)))
      | Some (CArr _) => Some false
      | None => None
      end
  | _ => Some false
  end.

(** What [find] and [findIndex] with that test come to: the first element
    for which it holds, with its index; none; or the [TypeError] of the
    test. *)
Inductive Search :=
| Found (index : nat) (s : val)
| NotFound
| Throws.

Fixpoint find_segment (h : heap) (segmentId : string) (items : list val)
    (index : nat) : Search :=
  match items with
  | [] => NotFound
  | s :: items =>
      match id_is h segmentId s with
      | None => Throws
      | Some true => Found index s
      | Some false => find_segment h segmentId items (S index)
      end
  end.

(** The array [editedSegments.value] refers to, if it is one. *)
Definition working_items (w : World) : option (list val) :=
  match editedSegments (comp w) with
  | VRef a =>
      match store w !! a with
      | Some (CArr items) => Some items
      | _ => None
      end
  | _ => None
  end.

(** [updateSegmentContent]: the first segment with that id gets the
    content; without one, and when the search throws, nothing changes. *)
Definition updateSegmentContent (segmentId content : string) (w : World)
  : World :=
  match working_items w with
  | Some items =>
      match find_segment (store w) segmentId items O with
      | Found _ (VRef o) =>
          match store w !! o with
          | Some (CObj fields) =>
              set_store
                (<[o := CObj (put_field "content" (VStr content) fields)]>
                   (store w)) w
          | _ => w
          end
      | _ => w
      end
  | None => w
  end.

(** [deleteSegment]: [splice(index, 1)] on the working array itself, then
    the update event with that array. *)
Definition deleteSegment (segmentId : string) (w : World) : World :=
  match editedSegments (comp w), working_items w with
  | VRef a, Some items =>
      match find_segment (store w) segmentId items O with
      | Found index _ =>
          let w := set_store (<[a := CArr (delete index items)]> (store w)) w in
          emit (segments_update (editedSegments (comp w))) w
      | _ => w
      end
  | _, _ => w
  end.

(** [editedSegments.value[0]?.fileId || ''] *)
Definition working_fileId (h : heap) (items : list val) : val :=
  match items with
  | VRef o :: _ =>
      match h !! o with
      | Some (CObj fields) =>
          match assoc "fileId" fields with
          | Some v => if val_truthy v then v else VStr ""
          | None => VStr ""
          end
      | _ => VStr ""
      end
  | _ => VStr ""
  end.

(** The object [addNewSegment] builds, with its [metadata] at [m] and the
    [keywords] of that at [k]. *)
Definition new_segment_id (now : Z) : string := "segment-" +:+ pretty now.

Definition new_metadata (k : nat) : cell :=
  CObj [("section", VStr "新增分段"); ("keywords", VRef k);
        ("confidence", VNum (9 # 10))].

Definition new_segment (h : heap) (items : list val) (now : Z) (m : nat) : cell :=
  CObj [("id", VStr (new_segment_id now));
        ("fileId", working_fileId h items);
        ("content", VStr "新的分段内容...");
        ("chunkIndex", VNum (inject_Z (Z.of_nat (length items))));
        ("metadata", VRef m)].

(** [addNewSegment]: three new objects, the [push] onto the working array
    itself, and the edit mode on the new segment. *)
Definition addNewSegment (w : World) : World :=
  match editedSegments (comp w), working_items w with
  | VRef a, Some items =>
      let h := store w in
      let k := length h in
      let h1 := h ++ [CArr []; new_metadata k;
                      new_segment h items (clock w) (S k)] in
      let h2 := <[a := CArr (items ++ [VRef (S (S k))])]> h1 in
      upd (set_editingSegmentId (new_segment_id (clock w))) (set_store h2 w)
  | _, _ => w
  end.

(** [segment.content.length]: the length of a string, which is the
    number [units text] of its UTF-16 code units, or of an array. [None]
    stands for every other case (the access throws, there is no length, or
    [length] is a key of an object), which the model does not follow
    further; the segments of the editor have strings as content. *)
Definition content_length (units : string → nat) (h : heap) (s : val)
  : option nat :=
  match s with
  | VRef o =>
      match h !! o with
      | Some (CObj fields) =>
          match assoc "content" fields with
          | Some (VStr text) => Some (units text)
          | Some (VRef c) =>
              match h !! c with
              | Some (CArr items) => Some (length items)
              | _ => None
              end
          | _ => None
          end
      | _ => None
      end
  | _ => None
  end.

(** [totalCharacters]:
    [reduce((total, segment) => total + segment.content.length, 0)] *)
Definition totalCharacters (units : string → nat) (w : World) : option nat :=
  items ← working_items w;
  foldl (λ total s,
           n ← total; m ← content_length units (store w) s; Some (n + m)%nat)
        (Some O) items.

(** [saveAllSegments], [exportSegments], [toggleConfig] *)
Definition saveAllSegments (w : World) : World :=
  emit (segments_update (editedSegments (comp w))) w.

Definition exportSegments (w : World) : World := emit export_request w.

Definition toggleConfig (w : World) : World :=
  upd (set_showConfig (negb (showConfig (comp w)))) w.

(** ** Notions for the statements *)

(** The document [stringify] reads from [v] together with the cells it
    visits on the way, in the order of the visit and as often as it visits
    them. *)
Fixpoint visit (fuel : nat) (h : heap) (v : val) : option (json * list nat) :=
  match v with
  | VNull => Some (JNull, [])
  | VBool b => Some (JBool b, [])
  | VNum q => Some (JNum q, [])
  | VStr s => Some (JStr s, [])
  | VRef l =>
      match fuel with
      | O => None
      | S fuel =>
          match h !! l with
          | None => None
          | Some c =>
              rs ← mapM (visit fuel h) (cell_values c);
              Some (rebuild c (rs.*1), l :: mjoin (rs.*2))
          end
      end
  end.

(** [v] reads as the document [j] from cells from the [n]-th on alone,
    and no cell is visited twice on the way: the objects and arrays below
    [v] share nothing, with one another or with the first [n] cells. *)
Definition reads_apart (n : nat) (h : heap) (v : val) (j : json) : Prop :=
  ∃ fuel fp, visit fuel h v = Some (j, fp) ∧ NoDup fp
             ∧ ∀ l, l ∈ fp → (n ≤ l)%nat.

(** The segment of a document has that id. *)
Definition is_id (segmentId : string) (seg : json) : bool :=
  match get_field "id" seg with
  | Some (JStr id) => bool_decide (id = segmentId)
  | _ => false
  end.

(** The index of the first segment with that id. *)
Fixpoint index_of_id (segmentId : string) (segs : list json) : option nat :=
  match segs with
  | [] => None
  | seg :: segs =>
      if is_id segmentId seg then Some O
      else S <$> index_of_id segmentId segs
  end.

(** A segment with another content. *)
Definition with_content (text : string) (seg : json) : json :=
  match seg with
  | JObj fields => JObj (put_field "content" (JStr text) fields)
  | _ => seg
  end.

(** The length of the content of a segment of a document. *)
Definition characters (units : string → nat) (seg : json) : option nat :=
  match get_field "content" seg with
  | Some (JStr text) => Some (units text)
  | Some (JArr items) => Some (length items)
  | _ => None
  end.

(** The sum of the lengths of the contents of the segments. *)
Definition sum_characters (units : string → nat) (segs : list json)
  : option nat :=
  foldl (λ total seg, n ← total; m ← characters units seg; Some (n + m)%nat)
        (Some O) segs.

(** A document that is neither an array nor an object. *)
Definition atomic (j : json) : bool :=
  match j with
  | JArr _ | JObj _ => false
  | _ => true
  end.

(** [segs[0]?.fileId || ''] on a document. *)
Definition fileId_of_first (segs : list json) : json :=
  match segs with
  | JObj fields :: _ => or_else (assoc "fileId" fields) (JStr "")
  | _ => JStr ""
  end.

(** The segment [addNewSegment] makes, as a document. *)
Definition new_segment_json (now : Z) (fileId : json) (chunkIndex : nat)
  : json :=
  JObj [("id", JStr (new_segment_id now));
        ("fileId", fileId);
        ("content", JStr "新的分段内容...");
        ("chunkIndex", JNum (inject_Z (Z.of_nat chunkIndex)));
        ("metadata",
         JObj [("section", JStr "新增分段"); ("keywords", JArr []);
               ("confidence", JNum (9 # 10))])].

(** A segment the editing operations can work on: not [null], and with a
    file id, if any, that is neither an array nor an object. *)
Definition workable (seg : json) : Prop :=
  seg ≠ JNull
  ∧ ∀ v, get_field "fileId" seg = Some v → atomic v = true.

(** What the user does to the working collection: typing into the
    textarea of a segment, the delete button of one, the add button. *)
Inductive Edit :=
| Retype (segmentId content : string)
| Remove (segmentId : string)
| Append.

Definition edit (e : Edit) (w : World) : World :=
  match e with
  | Retype segmentId content => updateSegmentContent segmentId content w
  | Remove segmentId => deleteSegment segmentId w
  | Append => addNewSegment w
  end.

Definition edits (es : list Edit) (w : World) : World :=
  foldl (λ w e, edit e w) w es.

(** At most one segmentation request is out, and [isProcessing] is on
    from the request to the end of the two seconds after its success. *)
Definition one_run_at_a_time (w : World) : Prop :=
  (requests w = [] ∧ resets w = O)
  ∨ (isProcessing (comp w) = true ∧ length (requests w) = 1%nat
     ∧ resets w = O)
  ∨ (isProcessing (comp w) = true ∧ requests w = [] ∧ resets w = 1%nat).

(** The segment of a response has an id of its own. *)
Definition has_id (seg : json) : bool :=
  match get_field "id" seg with
  | Some id => truthy id
  | None => false
  end.

End EditorOps.

(** * Properties of the task poller *)

Section PollerFacts.
Import Poller Specification.

Implicit Types (w : World) (st : ProcessStatus) (e : JsError).

(** ** Small facts about the callbacks *)

Lemma stopPolling_comp w :
  comp (stopPolling w) = set_pollTimer None (set_isPolling false (comp w)).
Proof.
  destruct w as [[tid ap pi si em ip pt stt] ts n fl ev ck].
  unfold stopPolling; simpl. destruct pt; reflexivity.
Qed.

Lemma stopPolling_emitted w :
  emitted (stopPolling w) = emitted w ++ [polling_stop].
Proof.
  unfold stopPolling; simpl. destruct (pollTimer (comp w)); reflexivity.
Qed.

Lemma stopPolling_inflight w : inflight (stopPolling w) = inflight w.
Proof.
  unfold stopPolling; simpl. destruct (pollTimer (comp w)); reflexivity.
Qed.

Lemma stopPolling_next_handle w : next_handle (stopPolling w) = next_handle w.
Proof.
  unfold stopPolling; simpl. destruct (pollTimer (comp w)); reflexivity.
Qed.

Lemma stopPolling_timers w :
  timers (stopPolling w) =
  match pollTimer (comp w) with
  | Some h => filter (λ t, t.1 ≠ h) (timers w)
  | None => timers w
  end.
Proof.
  unfold stopPolling; simpl. destruct (pollTimer (comp w)); reflexivity.
Qed.

Lemma since_app w w' evs : emitted w' = emitted w ++ evs → since w w' = evs.
Proof. unfold since. intros ->. by rewrite drop_app_length. Qed.

Lemma poll_resolved_statusInfo st w :
  statusInfo (comp (poll_resolved st w)) = Some st.
Proof.
  unfold poll_resolved. repeat case_decide.
  - change (statusInfo (comp (stopPolling
      (emit (status_update st) (upd (set_statusInfo (Some st)) w)))) = Some st).
    by rewrite stopPolling_comp.
  - change (statusInfo (comp (stopPolling
      (emit (status_update st) (upd (set_statusInfo (Some st)) w)))) = Some st).
    by rewrite stopPolling_comp.
  - simpl. destruct (isPolling (comp w)); reflexivity.
Qed.

Lemma percentages_after_shown sts w :
  percentages_after sts w = (λ st, displayProgress (Some st)) <$> sts.
Proof.
  revert w. induction sts as [|st sts IH]; intros w; [done |].
  cbn [percentages_after fmap list_fmap].
  by rewrite poll_resolved_statusInfo, IH.
Qed.

(** ** The derived percentage *)

(** C6, as stated, fails: a present progress below zero is shown as it is,
    not clamped up to 0. *)
Lemma displayProgress_negative_not_clamped :
  displayProgress (Some (payload "job-1" "uploading" (Some (-5)))) = Val (-5)
  ∧ displayProgress (Some (payload "job-1" "uploading" (Some (-5))))
    ≠ Val (spec_clamp (-5)).
Proof. split; [reflexivity | discriminate]. Qed.

(** C6, amended: a present progress is capped at 100 from above and not
    bounded from below: that is the clamp into 0..100 exactly when the
    progress is not negative. An absent progress is looked up in the static
    table by the status (an empty status counting as pending): pending 0,
    uploading 20, processing_ocr 40, cleaning 60, processing_rag 80,
    completed 100, failed 100. A status the table does not have gives 0,
    unless it names a property of [Object.prototype]: then the getter
    returns what that name stands for there, which is no number. *)
Theorem displayProgress_capped_above (id s m : string) (p : option Z) :
  let info := {| task_id := id; status := s; progress := p; message := m |} in
  match p with
  | Some n =>
      displayProgress (Some info) = Val (Z.min n 100)
      ∧ (0 ≤ n → displayProgress (Some info) = Val (spec_clamp n))
      ∧ (n < 0 → displayProgress (Some info) = Val n ∧ spec_clamp n = 0)
  | None =>
      displayProgress (Some info)
      = match statusProgress !! str_or s "pending" with
        | Some n => Val n
        | None =>
            if bool_decide (str_or s "pending" ∈ Object_prototype)
            then Inherited (str_or s "pending")
            else Val 0
        end
  end
  ∧ (λ k, statusProgress !! k)
    <$> ["pending"; "uploading"; "processing_ocr"; "cleaning";
         "processing_rag"; "completed"; "failed"]
    = Some <$> [0; 20; 40; 60; 80; 100; 100]
  ∧ (λ k, displayProgress (Some (payload id k None)))
    <$> ["pending"; "uploading"; "processing_ocr"; "cleaning";
         "processing_rag"; "completed"; "failed"; "archived"; "constructor"]
    = [Val 0; Val 20; Val 40; Val 60; Val 80; Val 100; Val 100; Val 0;
       Inherited "constructor"].
Proof.
  split; [| split; reflexivity].
  destruct p as [n|]; unfold displayProgress, spec_clamp; simpl.
  - split_and!; [done | intros; f_equal; lia | intros; split; [f_equal|]; lia].
  - unfold index. destruct (statusProgress !! str_or s "pending"); [done |].
    by case_bool_decide.
Qed.

Lemma displayProgress_capped_above_witness :
  displayProgress (Some (payload "job-1" "cleaning" (Some 150))) = Val 100
  ∧ displayProgress (Some (payload "job-1" "cleaning" (Some 40)))
    = Val (spec_clamp 40).
Proof.
  split.
  - exact (proj1 (proj1 (displayProgress_capped_above
                           "job-1" "cleaning" "" (Some 150)))).
  - destruct (displayProgress_capped_above "job-1" "cleaning" "" (Some 40))
      as [(_ & Hclamp & _) _].
    apply Hclamp. lia.
Defined.

(** C9: fed the statuses of the happy path, none with a progress field,
    the component shows 0, 20, 40, 60, 80, 100: never less than before,
    and 100 at the end. *)
Theorem happy_path_monotone (w : World) (id : string) :
  let shown :=
    percentages_after ((λ s, payload id s None) <$> happy_path) w in
  ∃ percentages,
    shown = Val <$> percentages
    ∧ percentages = [0; 20; 40; 60; 80; 100]
    ∧ Sorted Z.le percentages
    ∧ last percentages = Some 100.
Proof.
  exists [0; 20; 40; 60; 80; 100]. split_and!; [| done | | done].
  - rewrite percentages_after_shown. reflexivity.
  - repeat (constructor; try lia).
Qed.

(** C10: for the status 'processing' without a progress field the step is
    processing_ocr, yet the percentage is 0: the table of percentages has
    no entry for 'processing'. *)
Theorem processing_alias_step_but_zero_progress (id m : string) :
  let info := {| task_id := id; status := "processing"; progress := None;
                 message := m |} in
  currentStep (Some info) = Val "processing_ocr"
  ∧ displayProgress (Some info) = Val 0
  ∧ statusProgress !! "processing" = None
  ∧ statusProgress !! "processing_ocr" = Some 40.
Proof. split_and!; reflexivity. Qed.

(** ** Halting *)

(** C3, as stated, fails: on a poller that never began, a halt emits a
    stop event, and a second halt emits another. *)
Lemma halt_without_session_emits :
  emitted (stopPolling (fresh true 2000 0)) = [polling_stop]
  ∧ emitted (stopPolling (stopPolling (fresh true 2000 0)))
    = [polling_stop; polling_stop]
  ∧ ¬ spec_halt_is_noop (fresh true 2000 0).
Proof. split_and!; [reflexivity | reflexivity |]. intros [? _]. discriminate. Qed.

(** C3, amended: a halt with no session (the poller never began, or the
    call before was a halt) leaves the refs, the timers and the requests
    as they were, with no polling and no timer handle, and emits exactly
    one stop event, every time. *)
Theorem halt_without_session (w : World) :
  (isPolling (comp w) = false ∧ pollTimer (comp w) = None)
  ∨ (∃ w0, w = stopPolling w0) →
  comp (stopPolling w) = comp w
  ∧ isPolling (comp (stopPolling w)) = false
  ∧ pollTimer (comp (stopPolling w)) = None
  ∧ timers (stopPolling w) = timers w
  ∧ inflight (stopPolling w) = inflight w
  ∧ since w (stopPolling w) = [polling_stop].
Proof.
  intros H.
  assert (isPolling (comp w) = false ∧ pollTimer (comp w) = None) as [Hp Ht].
  { destruct H as [H | [w0 ->]]; [done |]. by rewrite stopPolling_comp. }
  rewrite stopPolling_comp, stopPolling_timers, stopPolling_inflight, Ht.
  split_and!; try done.
  - destruct (comp w); simpl in *; by subst.
  - apply since_app, stopPolling_emitted.
Qed.

Lemma halt_without_session_witness :
  since (fresh true 2000 0) (stopPolling (fresh true 2000 0)) = [polling_stop]
  ∧ since (stopPolling (fresh true 2000 0))
          (stopPolling (stopPolling (fresh true 2000 0))) = [polling_stop].
Proof.
  split.
  - apply (halt_without_session (fresh true 2000 0)).
    left. split; reflexivity.
  - apply (halt_without_session (stopPolling (fresh true 2000 0))).
    right. by eexists.
Defined.

(** ** A failed fetch *)

(** After a halt with no handle kept, a response or a failure of a
    request that is still out sets no timeout and sends no request. *)
Lemma poll_resolved_halted st w :
  isPolling (comp w) = false → pollTimer (comp w) = None →
  timers (poll_resolved st w) = timers w
  ∧ inflight (poll_resolved st w) = inflight w
  ∧ isPolling (comp (poll_resolved st w)) = false.
Proof.
  destruct w as [[tid ap pi si em ip pt stt] ts nh fl ev ck]. simpl.
  intros -> ->. unfold poll_resolved, stopPolling.
  repeat case_decide; simpl; done.
Qed.

Lemma poll_rejected_halted e w :
  isPolling (comp w) = false → pollTimer (comp w) = None →
  timers (poll_rejected e w) = timers w
  ∧ inflight (poll_rejected e w) = inflight w
  ∧ isPolling (comp (poll_rejected e w)) = false.
Proof.
  destruct w as [[tid ap pi si em ip pt stt] ts nh fl ev ck]. simpl.
  by intros -> ->.
Qed.

(** C4: when a status request throws, the catch branch records the
    message of the error (a fixed text when it has none) and halts: no
    polling, one stop event, the handle dropped and the timeout it names
    cancelled, so that it can no longer fire, and every other timeout left
    as it was. It neither sets a timeout nor sends a request, and no
    response or failure of a request that is still out sets a timeout
    afterwards. When the request, and a timeout under the kept handle if
    there is one, was all that was pending, nothing is pending afterwards
    and nothing more can happen without the user or the parent. *)
Theorem failed_fetch_is_terminal (w : World) (i : nat) (id : string) (e : JsError) :
  inflight w !! i = Some id →
  ∃ w', step (Reject i e) w = Some w'
    ∧ errorMessage (comp w') = error_text e
    ∧ error_text e ≠ ""
    ∧ (∀ m, err_message e = Some m → m ≠ "" → errorMessage (comp w') = m)
    ∧ isPolling (comp w') = false
    ∧ pollTimer (comp w') = None
    ∧ since w w' = [polling_stop]
    ∧ inflight w' = delete i (inflight w)
    ∧ timers w' =
        match pollTimer (comp w) with
        | Some h => filter (λ t, t.1 ≠ h) (timers w)
        | None => timers w
        end
    ∧ timers w' ⊆ timers w
    ∧ (∀ h, pollTimer (comp w) = Some h → step (Fire h) w' = None)
    ∧ next_handle w' = next_handle w
    ∧ (∀ j st w'', step (Resolve j st) w' = Some w'' →
         timers w'' = timers w'
         ∧ inflight w'' = delete j (inflight w')
         ∧ isPolling (comp w'') = false)
    ∧ (∀ j e' w'', step (Reject j e') w' = Some w'' →
         timers w'' = timers w'
         ∧ inflight w'' = delete j (inflight w')
         ∧ isPolling (comp w'') = false)
    ∧ (inflight w = [id] →
       (∀ t, t ∈ timers w → pollTimer (comp w) = Some t.1) →
       inflight w' = [] ∧ timers w' = []
       ∧ ∀ j st e' h, step (Resolve j st) w' = None
                      ∧ step (Reject j e') w' = None
                      ∧ step (Fire h) w' = None).
Proof.
  intros Hi.
  set (w1 := upd (set_errorMessage (error_text e)) (finish_request i w)).
  exists (stopPolling w1).
  assert (inflight (stopPolling w1) = delete i (inflight w)) as Hfl
    by by rewrite stopPolling_inflight.
  assert (timers (stopPolling w1) =
          match pollTimer (comp w) with
          | Some h => filter (λ t, t.1 ≠ h) (timers w)
          | None => timers w
          end) as Hts by by rewrite stopPolling_timers.
  assert (isPolling (comp (stopPolling w1)) = false
          ∧ pollTimer (comp (stopPolling w1)) = None) as [Hp Hpt]
    by by rewrite stopPolling_comp.
  split; [by simpl; rewrite Hi |].
  split_and!; try done.
  - by rewrite stopPolling_comp.
  - unfold error_text, str_or. by case_decide.
  - intros m Hm Hne. rewrite stopPolling_comp. simpl.
    unfold error_text, str_or. rewrite Hm. simpl. by rewrite decide_False.
  - apply since_app. by rewrite stopPolling_emitted.
  - rewrite Hts. destruct (pollTimer (comp w)); [|done].
    intros t Ht. by apply list_elem_of_filter in Ht as [_ ?].
  - intros h Hh. unfold step, timer_set. rewrite Hts, Hh.
    rewrite bool_decide_eq_false_2; [done |].
    intros ([h' d] & -> & [Hne _]%list_elem_of_filter)%list_elem_of_fmap.
    by apply Hne.
  - by rewrite stopPolling_next_handle.
  - intros j st w'' Hstep. unfold step in Hstep.
    destruct (inflight (stopPolling w1) !! j); [| done].
    injection Hstep as <-.
    by apply (poll_resolved_halted st (finish_request j (stopPolling w1))).
  - intros j e' w'' Hstep. unfold step in Hstep.
    destruct (inflight (stopPolling w1) !! j); [| done].
    injection Hstep as <-.
    by apply (poll_rejected_halted e' (finish_request j (stopPolling w1))).
  - intros Hw Ht.
    assert (i = 0%nat) as ->.
    { rewrite Hw in Hi. destruct i; [done | by destruct i]. }
    assert (timers (stopPolling w1) = []) as Hts'.
    { rewrite Hts. destruct (pollTimer (comp w)) as [h|] eqn:Hh.
      - destruct (filter (λ t, t.1 ≠ h) (timers w)) as [|t ts'] eqn:E;
          [done |].
        assert (t ∈ filter (λ t, t.1 ≠ h) (timers w)) as Hin
          by (rewrite E; left).
        apply list_elem_of_filter in Hin as [Hne Hin].
        specialize (Ht t Hin). by simplify_eq.
      - destruct (timers w) as [|t ts']; [done |].
        by specialize (Ht t ltac:(left)). }
    rewrite Hfl, Hw. split_and!; [done | done |].
    intros j st e' h. unfold step, timer_set.
    rewrite Hfl, Hts', Hw. simpl. done.
Qed.

Lemma failed_fetch_is_terminal_witness :
  (∃ w', step (Reject 0 {| err_message := Some "Network Error" |})
              (startPolling (upd (set_taskId "job-1") (fresh true 2000 0)))
         = Some w'
     ∧ errorMessage (comp w') = "Network Error"
     ∧ isPolling (comp w') = false
     ∧ inflight w' = [] ∧ timers w' = [])
  ∧ (∃ w w',
       run [ChangeTaskId "job-1"; ClickStop; ClickStart;
            Resolve 0 (payload "job-1" "uploading" None)]
           (setup true 2000 0) = Some w
       ∧ inflight w = ["job-1"] ∧ timers w = [(1%positive, 2000)]
       ∧ step (Reject 0 {| err_message := None |}) w = Some w'
       ∧ isPolling (comp w') = false
       ∧ inflight w' = [] ∧ timers w' = []
       ∧ step (Fire 1) w' = None).
Proof.
  split.
  - destruct (failed_fetch_is_terminal
              (startPolling (upd (set_taskId "job-1") (fresh true 2000 0)))
              0 "job-1" {| err_message := Some "Network Error" |} eq_refl)
      as (w' & Hs & Hm & _ & _ & Hp & _ & _ & _ & _ & _ & _ & _ & _ & _ & Hq).
    exists w'. destruct (Hq eq_refl) as (? & ? & _).
    { intros t Ht. by apply elem_of_nil in Ht. }
    split_and!; done.
  - eexists. 
    destruct (failed_fetch_is_terminal
                (poll_resolved (payload "job-1" "uploading" None)
                   (finish_request 0
                      (startPolling
                         (stopPolling
                            (change_taskId "job-1" (setup true 2000 0))))))
                0 "job-1" {| err_message := None |})
      as (w' & Hs & _ & _ & _ & Hp & _ & _ & _ & _ & _ & Hc & _ & _ & _ & Hq);
      [vm_compute; reflexivity |].
    exists w'. destruct (Hq eq_refl) as (Hfl & Hts & _).
    { intros t Ht. vm_compute in Ht.
      apply list_elem_of_singleton in Ht as ->. reflexivity. }
    split_and!; [vm_compute; reflexivity | vm_compute; reflexivity
                | vm_compute; reflexivity | exact Hs | exact Hp | exact Hfl
                | exact Hts | by apply Hc].
Defined.

(** ** A session that is left alone *)

Lemma halted_stuck w a : halted w → environment a → step a w = None.
Proof.
  intros (_ & Hfl & Hts) Ha.
  destruct a; try done; simpl; unfold timer_set; rewrite ?Hfl, ?Hts; done.
Qed.

Lemma filter_own_handle (h : positive) (d : Z) :
  filter (λ t : positive * Z, t.1 ≠ h) [(h, d)] = [].
Proof. rewrite filter_cons. simpl. by rewrite decide_False by naive_solver. Qed.

Lemma startPolling_session w0 :
  taskId (comp w0) ≠ "" → isPolling (comp w0) = false →
  inflight w0 = [] → timers w0 = [] →
  session w0 (startPolling w0).
Proof.
  intros Hid Hp Hfl Hts. unfold startPolling.
  rewrite decide_False, Hp by done.
  apply awaiting_response with (id := taskId (comp w0)) (evs := [polling_start]);
    simpl; try done.
  by rewrite Hfl.
Qed.

Lemma session_step w0 w a w1 :
  session w0 w → environment a → step a w = Some w1 →
  session w0 w1 ∨ halted w1.
Proof.
  intros Hs Ha Hstep.
  destruct w as [[tid ap pi si em ip pt stt] ts nh fl ev ck].
  destruct Hs as [id evs Hp He Hfl Hts Hev Hf | h d evs Hp He Hfl Hts Hpt Hev Hf];
    simpl in *; subst; destruct a as [| | | |j st|j e|h']; try done;
    simpl in Hstep; unfold timer_set in Hstep; simpl in Hstep.
  - (* a response, while one is awaited *)
    destruct j; [|done]. simpl in Hstep. injection Hstep as <-.
    unfold poll_resolved, stopPolling.
    destruct (decide (status st = "completed")) as [Hc|Hc];
      [|destruct (decide (status st = "failed")) as [Hd|Hd]].
    + right. by destruct pt.
    + right. by destruct pt.
    + left. eapply awaiting_timeout with (evs := evs ++ [status_update st]);
        simpl; try done.
      * by rewrite (assoc_L (++)).
      * rewrite filter_app, Hf. done.
  - (* the awaited request throws *)
    destruct j; [|done]. simpl in Hstep. injection Hstep as <-.
    right. unfold poll_rejected, stopPolling. by destruct pt.
  - (* the timeout fires *)
    case_bool_decide as Hin; [|done]. injection Hstep as <-.
    apply list_elem_of_singleton in Hin as ->.
    left. eapply awaiting_response with (evs := evs); simpl; try done.
    apply filter_own_handle.
Qed.

Lemma session_terminal w0 w i st w' :
  session w0 w →
  status st = "completed" ∨ status st = "failed" →
  step (Resolve i st) w = Some w' →
  halted w'
  ∧ pollTimer (comp w') = None
  ∧ statusInfo (comp w') = Some st
  ∧ errorMessage (comp w') = ""
  ∧ filter terminal_event (since w0 w') =
      [if decide (status st = "completed") then task_completed st
       else task_failed st].
Proof.
  intros Hs Hst Hstep.
  destruct w as [[tid ap pi si em ip pt stt] ts nh fl ev ck].
  destruct Hs as [id evs Hp He Hfl Hts Hev Hf | h d evs Hp He Hfl Hts Hpt Hev Hf];
    simpl in *; subst; simpl in Hstep; [|done].
  destruct i; [|done]. simpl in Hstep. injection Hstep as <-.
  unfold poll_resolved, stopPolling.
  destruct (decide (status st = "completed")) as [Hc|Hc];
    [|destruct (decide (status st = "failed")) as [Hd|Hd]; [|by destruct Hst]].
  - destruct pt; (split_and!; [done .. |]); simpl;
      (erewrite since_app;
         [|by simpl; rewrite <-!(assoc_L (++))]);
      by rewrite filter_app, Hf.
  - destruct pt; (split_and!; [done .. |]); simpl;
      (erewrite since_app;
         [|by simpl; rewrite <-!(assoc_L (++))]);
      by rewrite filter_app, Hf.
Qed.

Lemma session_run w0 acts : ∀ w i st w',
  session w0 w →
  forallb environment acts = true →
  status st = "completed" ∨ status st = "failed" →
  run (acts ++ [Resolve i st]) w = Some w' →
  halted w'
  ∧ pollTimer (comp w') = None
  ∧ statusInfo (comp w') = Some st
  ∧ errorMessage (comp w') = ""
  ∧ filter terminal_event (since w0 w') =
      [if decide (status st = "completed") then task_completed st
       else task_failed st].
Proof.
  induction acts as [|a acts IH]; intros w i st w' Hs Henv Hst Hrun.
  - change (step (Resolve i st) w ≫= run [] = Some w') in Hrun.
    destruct (step (Resolve i st) w) as [w1|] eqn:Hstep; [|done].
    injection Hrun as <-. by eapply session_terminal.
  - simpl in Henv. apply andb_prop in Henv as [Ha Henv].
    change (step a w ≫= run (acts ++ [Resolve i st]) = Some w') in Hrun.
    destruct (step a w) as [w1|] eqn:Hstep; [|done].
    change (run (acts ++ [Resolve i st]) w1 = Some w') in Hrun.
    destruct (session_step _ _ _ _ Hs (Is_true_true_2 _ Ha) Hstep) as [Hs1 | Hh].
    + by eapply IH.
    + (* once halted, nothing of the environment can happen *)
      destruct acts as [|a' acts].
      * change (step (Resolve i st) w1 ≫= run [] = Some w') in Hrun.
        by rewrite (halted_stuck _ (Resolve i st) Hh I) in Hrun.
      * simpl in Henv. apply andb_prop in Henv as [Ha' _].
        change (step a' w1 ≫= run (acts ++ [Resolve i st]) = Some w') in Hrun.
        by rewrite (halted_stuck _ a' Hh (Is_true_true_2 _ Ha')) in Hrun.
Qed.

(** What one terminal response does, in any world. *)
Lemma terminal_response_step w i id st :
  inflight w !! i = Some id →
  status st = "completed" ∨ status st = "failed" →
  ∃ w', step (Resolve i st) w = Some w'
    ∧ since w w' =
        [status_update st; polling_stop;
         if decide (status st = "completed") then task_completed st
         else task_failed st]
    ∧ isPolling (comp w') = false
    ∧ pollTimer (comp w') = None
    ∧ errorMessage (comp w') = errorMessage (comp w)
    ∧ timers w' ⊆ timers w
    ∧ next_handle w' = next_handle w
    ∧ inflight w' = delete i (inflight w).
Proof.
  intros Hi Hst. eexists. split; [by simpl; rewrite Hi |].
  destruct w as [[tid ap pi si em ip pt stt] ts nh fl ev ck].
  unfold poll_resolved, stopPolling.
  destruct (decide (status st = "completed")) as [Hc|Hc];
    [|destruct (decide (status st = "failed")) as [Hd|Hd]; [|by destruct Hst]].
  - destruct pt; simpl; (split_and!; try done);
      try (apply since_app; simpl; by rewrite <-!(assoc_L (++)));
      intros t Ht; by apply list_elem_of_filter in Ht as [_ ?].
  - destruct pt; simpl; (split_and!; try done);
      try (apply since_app; simpl; by rewrite <-!(assoc_L (++)));
      intros t Ht; by apply list_elem_of_filter in Ht as [_ ?].
Qed.

(** C5, as stated, fails: a completed payload that carries a progress of
    50 ends the session with 50 on display. *)
Lemma completed_shows_explicit_progress :
  ∃ w', run [ChangeTaskId "job-1";
             Resolve 0 (payload "job-1" "processing_ocr" None);
             Fire 1;
             Resolve 0 (payload "job-1" "completed" (Some 50))]
            (setup true 2000 0) = Some w'
    ∧ currentStatus (statusInfo (comp w')) = "completed"
    ∧ displayProgress (statusInfo (comp w')) = Val 50
    ∧ displayProgress (statusInfo (comp w')) ≠ Val 100.
Proof.
  eexists. split; [vm_compute; reflexivity |].
  vm_compute. split_and!; done.
Qed.

(** C5, amended: in a session that starts with nothing pending and is
    then left to the responses and timeouts, the arrival of a completed
    (failed) status is followed by exactly one completed (failed) event
    and no other terminal event, the poller is halted with no timeout set
    and no request out, so that no further poll can happen, and the error
    message is still empty, unlike after a failed fetch. The percentage
    shown at the end is 100 when the payload has no progress field, and
    the payload's progress capped at 100 otherwise. *)
Theorem terminal_status_ends_session
    (w0 : World) (acts : list Action) (i : nat) (st : ProcessStatus) (w' : World) :
  taskId (comp w0) ≠ "" →
  isPolling (comp w0) = false →
  inflight w0 = [] →
  timers w0 = [] →
  forallb environment acts = true →
  status st = "completed" ∨ status st = "failed" →
  run (ClickStart :: acts ++ [Resolve i st]) w0 = Some w' →
  filter terminal_event (since w0 w') =
    [if decide (status st = "completed") then task_completed st
     else task_failed st]
  ∧ isPolling (comp w') = false
  ∧ pollTimer (comp w') = None
  ∧ timers w' = []
  ∧ inflight w' = []
  ∧ (∀ a, environment a → step a w' = None)
  ∧ errorMessage (comp w') = ""
  ∧ statusInfo (comp w') = Some st
  ∧ displayProgress (statusInfo (comp w')) =
      Val match progress st with
          | Some p => Z.min p 100
          | None => 100
          end.
Proof.
  intros Hid Hp Hfl Hts Henv Hst Hrun.
  change (run (acts ++ [Resolve i st]) (startPolling w0) = Some w') in Hrun.
  destruct (session_run w0 acts (startPolling w0) i st w'
              (startPolling_session w0 Hid Hp Hfl Hts) Henv Hst Hrun)
    as (Hh & Hpt & Hsi & Hem & Hev).
  destruct Hh as (Hp' & Hfl' & Hts').
  split_and!; try done.
  - intros a Ha. by apply halted_stuck.
  - rewrite Hsi. unfold displayProgress.
    destruct (progress st); [done |].
    unfold currentStatus, str_or. by destruct Hst as [-> | ->].
Qed.

Lemma terminal_status_ends_session_witness :
  ∃ w', run [ClickStart;
             Resolve 0 (payload "job-1" "processing_ocr" None);
             Fire 1;
             Resolve 0 (payload "job-1" "completed" None)]
            (upd (set_taskId "job-1") (fresh false 2000 0)) = Some w'
    ∧ filter terminal_event
        (since (upd (set_taskId "job-1") (fresh false 2000 0)) w')
      = [task_completed (payload "job-1" "completed" None)]
    ∧ timers w' = [] ∧ inflight w' = []
    ∧ displayProgress (statusInfo (comp w')) = Val 100.
Proof.
  eexists. split; [vm_compute; reflexivity |].
  edestruct (terminal_status_ends_session
               (upd (set_taskId "job-1") (fresh false 2000 0))
               [Resolve 0 (payload "job-1" "processing_ocr" None); Fire 1]
               0 (payload "job-1" "completed" None))
    as (Hev & _ & _ & Hts & Hfl & _ & _ & _ & Hpc);
    [done | reflexivity | reflexivity | reflexivity | reflexivity
    | by left | vm_compute; reflexivity |].
  split_and!; [exact Hev | exact Hts | exact Hfl | exact Hpc].
Defined.

(** ** A change of the job id *)

Lemma startPolling_while_polling w :
  isPolling (comp w) = true → startPolling w = w.
Proof. intros H. unfold startPolling. rewrite H. by case_decide. Qed.

Lemma initPolling_while_polling w :
  isPolling (comp w) = true → initPolling w = w.
Proof.
  intros H. unfold initPolling.
  rewrite startPolling_while_polling by done. by repeat case_match.
Qed.

Lemma watch_taskId_while_polling w new :
  new ≠ "" → isPolling (comp w) = true → watch_taskId new w = w.
Proof.
  intros Hnew Hp. unfold watch_taskId. case_decide; [done |].
  by apply initPolling_while_polling.
Qed.

(** C2, as stated, fails: with a session for job-1 active, the change to
    job-2 emits no stop (and no start) event, and the response to the
    request that was sent for job-1 is then stored and emitted as an
    update. *)
Lemma stale_update_after_job_change :
  ∃ w1 w2 w3,
    run [ChangeTaskId "job-1"] (setup true 2000 0) = Some w1
    ∧ isPolling (comp w1) = true ∧ inflight w1 = ["job-1"]
    ∧ step (ChangeTaskId "job-2") w1 = Some w2
    ∧ since w1 w2 = []
    ∧ step (Resolve 0 (payload "job-1" "processing_ocr" None)) w2 = Some w3
    ∧ taskId (comp w3) = "job-2"
    ∧ statusInfo (comp w3) = Some (payload "job-1" "processing_ocr" None)
    ∧ since w2 w3 = [status_update (payload "job-1" "processing_ocr" None)].
Proof. do 3 eexists. split_and!; vm_compute; reflexivity. Qed.

(** C2, amended: while a session is active, a change of the job id to
    another non-empty id changes the prop and nothing else: the session is
    neither halted nor restarted and no event is emitted. The running loop
    goes on: a timeout that fires afterwards asks for the new id, and a
    response that returns afterwards is stored and emitted as an update,
    whichever id its request was sent for. A change to the empty id halts
    (each of the two watchers emits a stop event) and clears the stored
    status. *)
Theorem job_id_change_keeps_session (w : World) (new : string) :
  isPolling (comp w) = true →
  new ≠ taskId (comp w) →
  if decide (new = "") then
    isPolling (comp (change_taskId new w)) = false
    ∧ pollTimer (comp (change_taskId new w)) = None
    ∧ statusInfo (comp (change_taskId new w)) = None
    ∧ inflight (change_taskId new w) = inflight w
    ∧ since w (change_taskId new w) = [polling_stop; polling_stop]
  else
    change_taskId new w = upd (set_taskId new) w
    ∧ since w (change_taskId new w) = []
    ∧ (∀ h, timer_set h w →
         ∃ w2, step (Fire h) (change_taskId new w) = Some w2
               ∧ inflight w2 = inflight w ++ [new])
    ∧ (∀ i id st, inflight w !! i = Some id →
         ∃ w2, step (Resolve i st) (change_taskId new w) = Some w2
               ∧ statusInfo (comp w2) = Some st
               ∧ head (since (change_taskId new w) w2)
                 = Some (status_update st)).
Proof.
  intros Hp Hnew. unfold change_taskId.
  rewrite (decide_False (P := new = taskId (comp w))) by done.
  case_decide as Hempty.
  - subst new. unfold watch_taskId. simpl.
    destruct w as [[tid ap pi si em ip pt stt] ts nh fl ev ck].
    unfold stopPolling. destruct pt; simpl; (split_and!; try done);
      apply since_app; simpl; by rewrite <-!(assoc_L (++)).
  - rewrite !(watch_taskId_while_polling (upd (set_taskId new) w)) by done.
    split_and!.
    + done.
    + apply since_app. simpl. by rewrite (right_id_L [] (++)).
    + intros h Hh. eexists. split.
      * simpl. unfold timer_set in *. simpl. by rewrite bool_decide_eq_true_2
          by by apply bool_decide_unpack in Hh.
      * done.
    + intros i id st Hi. eexists. split; [by simpl; rewrite Hi |].
      split; [apply poll_resolved_statusInfo |].
      destruct w as [[tid ap pi si em ip pt stt] ts nh fl ev ck].
      unfold poll_resolved, stopPolling, since. simpl in *. subst ip.
      repeat case_decide; destruct pt; simpl;
        rewrite <-?(assoc_L (++)), drop_app_length; done.
Qed.

Lemma job_id_change_keeps_session_witness :
  change_taskId "job-2" (startPolling (upd (set_taskId "job-1") (fresh true 2000 0)))
  = upd (set_taskId "job-2")
        (startPolling (upd (set_taskId "job-1") (fresh true 2000 0))).
Proof.
  exact (proj1 (job_id_change_keeps_session
                  (startPolling (upd (set_taskId "job-1") (fresh true 2000 0)))
                  "job-2" eq_refl ltac:(discriminate))).
Defined.

End PollerFacts.

(** * Properties of the object store *)

Section StoreFacts.
Import Store.

(** ** Fuel *)

Lemma Forall2_with_elem {A B} (P : A → B → Prop) l k :
  Forall2 P l k → Forall2 (λ x y, P x y ∧ y ∈ k) l k.
Proof.
  induction 1 as [|x y l k Hxy _ IH]; constructor.
  - split; [done | by left].
  - eapply Forall2_impl; [exact IH |].
    intros x' y' [? ?]. split; [done | by right].
Qed.

Lemma stringify_fields f h (fields : list (string * val)) fs :
  mapM (λ kv, pair kv.1 <$> stringify f h kv.2) fields = Some fs ↔
  ∃ js, Forall2 (λ x y, stringify f h x = Some y) (fields.*2) js
        ∧ fs = zip (fields.*1) js.
Proof.
  rewrite mapM_Some. revert fs.
  induction fields as [|[k v] fields IH]; intros fs; simpl.
  - split.
    + intros ->%Forall2_nil_inv_l. exists []. split; [constructor | done].
    + intros (js & ->%Forall2_nil_inv_l & ->). constructor.
  - split.
    + intros (kv' & fs' & Hkv & Hfs & ->)%Forall2_cons_inv_l.
      apply fmap_Some in Hkv as (j & Hj & ->).
      apply IH in Hfs as (js & Hjs & ->).
      exists (j :: js). split; [by constructor | done].
    + intros (js & (j & js' & Hj & Hjs & ->)%Forall2_cons_inv_l & ->).
      simpl. constructor; [simpl; by rewrite Hj |]. apply IH. by exists js'.
Qed.

Lemma stringify_ref f h l j :
  stringify (S f) h (VRef l) = Some j ↔
  ∃ c js, h !! l = Some c
          ∧ Forall2 (λ x y, stringify f h x = Some y) (cell_values c) js
          ∧ j = rebuild c js.
Proof.
  simpl. destruct (h !! l) as [[items|fields]|]; simpl.
  - rewrite fmap_Some. setoid_rewrite mapM_Some. split.
    + intros (js & Hjs & ->). by exists (CArr items), js.
    + intros (c & js & [= <-] & Hjs & ->). by exists js.
  - rewrite fmap_Some. setoid_rewrite stringify_fields. split.
    + intros (fs & (js & Hjs & ->) & ->). by exists (CObj fields), js.
    + intros (c & js & [= <-] & Hjs & ->). exists (zip fields.*1 js).
      split; [by exists js | done].
  - split; [done | by intros (c & js & [=] & _)].
Qed.

Lemma depth_rebuild c js :
  length js = length (cell_values c) →
  depth (rebuild c js) = S (max_list (depth <$> js)).
Proof.
  destruct c as [items|fields]; simpl; [done |]. intros Hlen.
  rewrite length_fmap in Hlen. f_equal. f_equal.
  rewrite <-(snd_zip (fields.*1) js) at 2 by (rewrite length_fmap; lia).
  by rewrite <-list_fmap_compose.
Qed.

(** More fuel reads the same document. *)
Lemma stringify_mono f : ∀ h v j f',
  stringify f h v = Some j → (f ≤ f')%nat → stringify f' h v = Some j.
Proof.
  induction f as [|f IH]; intros h v j f' Hj Hle.
  - destruct v; by destruct f'.
  - destruct v as [| | | |l]; try by destruct f'.
    destruct f' as [|f']; [lia |].
    apply stringify_ref in Hj as (c & js & Hc & Hjs & ->).
    apply stringify_ref. exists c, js. split_and!; [done | | done].
    eapply Forall2_impl; [exact Hjs |].
    intros x y Hxy. eapply IH; [exact Hxy | lia].
Qed.

Lemma stringify_functional f1 f2 h v j1 j2 :
  stringify f1 h v = Some j1 → stringify f2 h v = Some j2 → j1 = j2.
Proof.
  intros H1 H2.
  apply (stringify_mono _ _ _ _ (f1 `max` f2)%nat) in H1; [|lia].
  apply (stringify_mono _ _ _ _ (f1 `max` f2)%nat) in H2; [|lia].
  congruence.
Qed.

(** The depth of the document is fuel enough to read it. *)
Lemma stringify_at_depth f : ∀ h v j,
  stringify f h v = Some j → stringify (depth j) h v = Some j.
Proof.
  induction f as [|f IH]; intros h v j Hj.
  - destruct v; simplify_eq/=; done.
  - destruct v as [| | | |l]; [by simplify_eq/= .. |].
    apply stringify_ref in Hj as (c & js & Hc & Hjs & ->).
    rewrite depth_rebuild by (symmetry; by eapply Forall2_length).
    apply stringify_ref. exists c, js. split_and!; [done | | done].
    eapply Forall2_impl; [exact (Forall2_with_elem _ _ _ Hjs) |].
    intros x y [Hxy Hin]. simpl in *. eapply stringify_mono; [by apply IH |].
    by apply max_list_elem_of_le, list_elem_of_fmap_2.
Qed.

(** A document of depth [d] is read along [d] references, each to a cell
    whose own document is one level less deep than the one before. *)
Lemma stringify_chain f : ∀ h v j,
  stringify f h v = Some j →
  ∃ ls : list nat,
    length ls = depth j
    ∧ ∀ i l, ls !! i = Some l →
        (l < length h)%nat
        ∧ ∃ j', stringify (depth j') h (VRef l) = Some j'
                ∧ depth j' = (depth j - i)%nat.
Proof.
  induction f as [|f IH]; intros h v j Hj.
  - destruct v; simplify_eq/=; by exists [].
  - destruct v as [| | | |l]; [simplify_eq/=; by exists [] .. |].
    pose proof (stringify_at_depth _ _ _ _ Hj) as Hself.
    apply stringify_ref in Hj as (c & js & Hc & Hjs & ->).
    assert (depth (rebuild c js) = S (max_list (depth <$> js))) as Hd
      by (apply depth_rebuild; symmetry; by eapply Forall2_length).
    assert (∃ ls' : list nat,
              length ls' = max_list (depth <$> js)
              ∧ ∀ i l', ls' !! i = Some l' →
                  (l' < length h)%nat
                  ∧ ∃ j', stringify (depth j') h (VRef l') = Some j'
                          ∧ depth j' = (max_list (depth <$> js) - i)%nat)
      as (ls' & Hlen & Hls').
    { destruct (decide (js = [])) as [-> | Hne]; [by exists [] |].
      assert (depth <$> js ≠ []) as Hne' by by destruct js.
      pose proof (max_list_elem_of (depth <$> js) Hne') as Hin.
      apply list_elem_of_fmap in Hin as (y & Hy & Hyin).
      apply list_elem_of_lookup in Hyin as [k Hk].
      destruct (Forall2_lookup_r _ _ _ _ _ Hjs Hk) as (x & _ & Hx).
      destruct (IH _ _ _ Hx) as (ls' & Hlen & Hls').
      exists ls'. rewrite Hy. done. }
    exists (l :: ls'). split; [simpl; lia |].
    intros [|i] l' Hl'; simplify_eq/=.
    + split; [by eapply lookup_lt_Some |].
      eexists. split; [exact Hself |]. lia.
    + destruct (Hls' _ _ Hl') as (Hlt & j' & Hj' & Hdj').
      split; [done |]. exists j'. split; [done |]. lia.
Qed.

(** The length of the store is fuel enough: whatever [stringify] reads
    with some fuel, [to_json] reads. *)
Lemma to_json_complete f h v j : stringify f h v = Some j → to_json h v = Some j.
Proof.
  intros Hj. unfold to_json.
  eapply stringify_mono; [by eapply stringify_at_depth |].
  destruct (stringify_chain _ _ _ _ Hj) as (ls & <- & Hls).
  assert (length ls ≤ length (seq 0 (length h)))%nat as Hle;
    [|by rewrite length_seq in Hle].
  apply submseteq_length, NoDup_submseteq.
  - apply NoDup_alt. intros i k l Hi Hk.
    destruct (Hls _ _ Hi) as (_ & ji & Hji & Hdi).
    destruct (Hls _ _ Hk) as (_ & jk & Hjk & Hdk).
    assert (ji = jk) as -> by by eapply stringify_functional.
    apply lookup_lt_Some in Hi, Hk. lia.
  - intros l [i Hi]%list_elem_of_lookup.
    destruct (Hls _ _ Hi) as (Hlt & _).
    apply elem_of_seq. lia.
Qed.

(** ** Parsing *)

Lemma reads_back_more n ext ext' v j :
  reads_back n ext v j → reads_back n (ext ++ ext') v j.
Proof.
  intros H old later fuel Hn Hd.
  rewrite <-(assoc_L (++) ext). by apply H.
Qed.

Lemma reads_back_shift n e1 e2 v j :
  reads_back (n + length e1) e2 v j → reads_back n (e1 ++ e2) v j.
Proof.
  intros H old later fuel Hn Hd.
  rewrite <-(assoc_L (++) e1), (assoc_L (++) old).
  apply H; [|done]. rewrite length_app. lia.
Qed.

Lemma alloc_items_ok items :
  Forall parse_ok items →
  ∀ h, ∃ ext vs,
    alloc_list parse items h = (h ++ ext, vs)
    ∧ Forall2 (reads_back (length h) ext) vs items
    ∧ (max_list (depth <$> items) ≤ length ext)%nat.
Proof.
  induction 1 as [|j items Hj _ IH]; intros h.
  - exists [], []. simpl. rewrite (right_id_L [] (++)). split_and!; [done | constructor | simpl; lia].
  - destruct (Hj h) as (e1 & v & Hp & Hr & Hd).
    destruct (IH (h ++ e1)) as (e2 & vs & Ha & Hrs & Hds).
    exists (e1 ++ e2), (v :: vs). simpl. rewrite Hp, Ha.
    split_and!.
    + by rewrite (assoc_L (++)).
    + constructor; [by apply reads_back_more |].
      eapply Forall2_impl; [exact Hrs |].
      intros v' j' Hv'. apply reads_back_shift. by rewrite <-length_app.
    + change (depth j `max` max_list (depth <$> items) ≤ length (e1 ++ e2))%nat.
      rewrite length_app. lia.
Qed.

Lemma alloc_fields_ok fields :
  Forall (λ kv, parse_ok kv.2) fields →
  ∀ h, ∃ ext fs,
    alloc_list (λ kv h, let '(h1, v) := parse kv.2 h in (h1, (kv.1, v)))
               fields h = (h ++ ext, fs)
    ∧ Forall2 (λ (kv' : string * val) (kv : string * json),
                 kv'.1 = kv.1 ∧ reads_back (length h) ext kv'.2 kv.2)
              fs fields
    ∧ (max_list ((λ kv : string * json, depth kv.2) <$> fields)
       ≤ length ext)%nat.
Proof.
  induction 1 as [|[k j] fields Hj _ IH]; intros h.
  - exists [], []. simpl. rewrite (right_id_L [] (++)). split_and!; [done | constructor | simpl; lia].
  - destruct (Hj h) as (e1 & v & Hp & Hr & Hd). simpl in *.
    destruct (IH (h ++ e1)) as (e2 & fs & Ha & Hrs & Hds).
    exists (e1 ++ e2), ((k, v) :: fs). simpl. rewrite Hp, Ha.
    split_and!.
    + by rewrite (assoc_L (++)).
    + constructor; [split; [done | by apply reads_back_more] |].
      eapply Forall2_impl; [exact Hrs |].
      intros kv' kv [? Hv']. split; [done |].
      apply reads_back_shift. by rewrite <-length_app.
    + change (depth j `max`
                max_list ((λ kv : string * json, depth kv.2) <$> fields)
              ≤ length (e1 ++ e2))%nat.
      rewrite length_app. lia.
Qed.

Lemma parse_spec j : parse_ok j.
Proof.
  induction j as [| b | q | s | items IH | fields IH] using json_tree_ind;
    intros h.
  1-4: eexists [], _; simpl; rewrite (right_id_L [] (++));
       (split_and!; [reflexivity | by intros old later [|fuel] | lia]).
  - destruct (alloc_items_ok items IH h) as (ext & vs & Ha & Hrs & Hds).
    exists (ext ++ [CArr vs]), (VRef (length (h ++ ext))).
    simpl. rewrite Ha. split_and!.
    + by rewrite (assoc_L (++)).
    + intros old later [|fuel] Hn Hd; [simpl in Hd; lia |].
      simpl in Hd. simpl.
      rewrite <-(assoc_L (++) ext), (assoc_L (++) old).
      change ([CArr vs] ++ later) with (CArr vs :: later).
      rewrite list_lookup_middle by (rewrite !length_app; lia).
      erewrite mapM_Some_2; [done |].
      eapply Forall2_impl; [exact (Forall2_with_elem _ _ _ Hrs) |].
      intros v j [Hv Hin]. simpl.
      change (CArr vs :: later) with ([CArr vs] ++ later).
      rewrite <-(assoc_L (++) old). apply Hv; [done |].
      assert (depth j ≤ max_list (depth <$> items))%nat; [|lia].
      by apply max_list_elem_of_le, list_elem_of_fmap_2.
    + rewrite length_app. simpl. lia.
  - destruct (alloc_fields_ok fields IH h) as (ext & fs & Ha & Hrs & Hds).
    exists (ext ++ [CObj fs]), (VRef (length (h ++ ext))).
    simpl. rewrite Ha. split_and!.
    + by rewrite (assoc_L (++)).
    + intros old later [|fuel] Hn Hd; [simpl in Hd; lia |].
      simpl in Hd. simpl.
      rewrite <-(assoc_L (++) ext), (assoc_L (++) old).
      change ([CObj fs] ++ later) with (CObj fs :: later).
      rewrite list_lookup_middle by (rewrite !length_app; lia).
      erewrite mapM_Some_2; [done |].
      eapply Forall2_impl; [exact (Forall2_with_elem _ _ _ Hrs) |].
      intros [k v] [k' j] [[Hk Hv] Hin]. simpl in *. subst k'.
      change (CObj fs :: later) with ([CObj fs] ++ later).
      rewrite <-(assoc_L (++) old), Hv; [done | done |].
      assert (depth j
              ≤ max_list ((λ kv : string * json, depth kv.2) <$> fields))%nat;
        [|lia].
      apply max_list_elem_of_le.
      by apply (list_elem_of_fmap_2 (λ kv : string * json, depth kv.2) _ (k, j)).
    + rewrite length_app. simpl. lia.
Qed.

Lemma write_all_below ws : ∀ old ext,
  writes_below (length old) ws →
  ∃ old', length old' = length old ∧ write_all ws (old ++ ext) = old' ++ ext.
Proof.
  induction ws as [|[l c] ws IH]; intros old ext Hws.
  - by exists old.
  - apply Forall_cons in Hws as [Hl Hws]. simpl in Hl.
    destruct (IH (<[l := c]> old) ext) as (old' & Hlen & Hw).
    { by rewrite length_insert. }
    exists old'. rewrite length_insert in Hlen. split; [done |].
    simpl. by rewrite insert_app_l.
Qed.

(** The copy [JSON.parse(JSON.stringify(v))] makes. *)
Lemma parse_reads_back h j :
  ∃ ext copy,
    parse j h = (h ++ ext, copy)
    ∧ to_json (h ++ ext) copy = Some j
    ∧ ∀ ws, writes_below (length h) ws →
        to_json (write_all ws (h ++ ext)) copy = Some j.
Proof.
  destruct (parse_spec j h) as (ext & copy & Hp & Hr & Hd).
  exists ext, copy. split; [done |].
  assert (∀ old, length old = length h → to_json (old ++ ext) copy = Some j) as Hall.
  { intros old Hlen. unfold to_json.
    rewrite <-(right_id_L [] (++) ext) at 2.
    apply Hr; [done |]. rewrite length_app. lia. }
  split; [by apply Hall |].
  intros ws Hws.
  destruct (write_all_below ws h ext Hws) as (old' & Hlen & ->).
  by apply Hall.
Qed.

End StoreFacts.

(** * Properties of the segment editor *)

Section EditorFacts.
Import Store Editor Specification.

Implicit Types (w : World) (e : JsError).

(** ** Small facts *)

Lemma editor_since_app w w' evs :
  emitted w' = emitted w ++ evs → drop (length (emitted w)) (emitted w') = evs.
Proof. intros ->. by rewrite drop_app_length. Qed.

Lemma run_external ws : ∀ w,
  run (external ws) w = Some (set_store (write_all ws (store w)) w).
Proof.
  induction ws as [|[l c] ws IH]; intros w.
  - by destruct w.
  - change (run (external ws) (external_write l c w)
            = Some (set_store (write_all ws (<[l:=c]> (store w))) w)).
    by rewrite IH.
Qed.

(** ** Merging *)

(** The length the specified merge leaves. *)
Lemma spec_merge_into_first_length ids merged first_seen segs :
  length (spec_merge_into_first ids merged first_seen segs)
  = (length segs - length (filter (is_selected ids) segs)
     + (if first_seen then 0
        else if decide (filter (is_selected ids) segs = []) then 0 else 1))%nat.
Proof.
  revert first_seen. induction segs as [|seg segs IH]; intros first_seen.
  { by destruct first_seen. }
  pose proof (length_filter (is_selected ids) segs) as Hle.
  cbn [spec_merge_into_first]. destruct (is_selected ids seg) eqn:E.
  - rewrite filter_cons_True by apply Is_true_true_2, E.
    destruct first_seen; simpl; rewrite IH; simpl; lia.
  - rewrite filter_cons_False by apply Is_true_false_2, E. simpl. rewrite IH.
    destruct first_seen; [lia |].
    destruct (decide (filter (is_selected ids) segs = [])); lia.
Qed.

Lemma spec_mergeSelected_length ids segs :
  length (spec_mergeSelected ids segs)
  = (length segs - (length (filter (is_selected ids) segs) - 1))%nat.
Proof.
  pose proof (length_filter (is_selected ids) segs) as Hle.
  unfold spec_mergeSelected.
  destruct (filter (is_selected ids) segs) as [|s1 [|s2 chosen]] eqn:E;
    [simpl; lia | simpl; lia |].
  rewrite spec_merge_into_first_length, E. simpl in *. lia.
Qed.

(** C1, as stated, fails: with the segments a, b, c holding x, y, z and
    the ids of b and c selected, the specified merge leaves two segments,
    the second holding yz; [mergeSegments] leaves all three as they were. *)
Lemma mergeSegments_does_not_merge :
  selectedSegments (comp (selecting ["c"; "b"] mounted)) = ["c"; "b"]
  ∧ collection (selecting ["c"; "b"] mounted)
    = Some (JArr [segment_json "a" "x"; segment_json "b" "y";
                  segment_json "c" "z"])
  ∧ spec_mergeSelected ["c"; "b"]
      [segment_json "a" "x"; segment_json "b" "y"; segment_json "c" "z"]
    = [segment_json "a" "x"; segment_json "b" "yz"]
  ∧ collection (mergeSegments (selecting ["c"; "b"] mounted))
    = Some (JArr [segment_json "a" "x"; segment_json "b" "y";
                  segment_json "c" "z"])
  ∧ collection (mergeSegments (selecting ["c"; "b"] mounted))
    ≠ Some (JArr (spec_mergeSelected ["c"; "b"]
                    [segment_json "a" "x"; segment_json "b" "y";
                     segment_json "c" "z"])).
Proof. split_and!; [by vm_compute .. |]. vm_compute. discriminate. Qed.

(** C1, amended: [mergeSegments] takes no ids and is a placeholder. In
    every state, whatever is selected, it leaves the collection, the
    selection and everything else as it was and emits nothing. The
    specified merge leaves as many segments fewer as there are selected
    ones beyond the first, so [mergeSegments] is the specified merge
    exactly when fewer than two segments of the collection are selected:
    with two or more it never is. *)
Theorem mergeSegments_changes_nothing (w : World) (ids : list string) (segs : list json) :
  collection w = Some (JArr segs) →
  mergeSegments w = w
  ∧ step ClickMerge w = Some w
  ∧ collection (mergeSegments w) = Some (JArr segs)
  ∧ selectedSegments (comp (mergeSegments w)) = selectedSegments (comp w)
  ∧ emitted (mergeSegments w) = emitted w
  ∧ ((length (filter (is_selected ids) segs) < 2)%nat →
     collection (mergeSegments w) = Some (JArr (spec_mergeSelected ids segs)))
  ∧ ((2 ≤ length (filter (is_selected ids) segs))%nat →
     collection (mergeSegments w) ≠ Some (JArr (spec_mergeSelected ids segs))
     ∧ (length (spec_mergeSelected ids segs) < length segs)%nat)
  ∧ (collection (mergeSegments w) = Some (JArr (spec_mergeSelected ids segs))
     ↔ (length (filter (is_selected ids) segs) < 2)%nat)
  ∧ length (spec_mergeSelected ids segs)
    = (length segs - (length (filter (is_selected ids) segs) - 1))%nat.
Proof.
  intros Hc. unfold mergeSegments.
  pose proof (length_filter (is_selected ids) segs) as Hle.
  pose proof (spec_mergeSelected_length ids segs) as Hlen.
  assert ((length (filter (is_selected ids) segs) < 2)%nat →
          spec_mergeSelected ids segs = segs) as Hfew.
  { intros Hlt. unfold spec_mergeSelected.
    destruct (filter (is_selected ids) segs) as [|? [|? ?]]; [done | done |].
    simpl in Hlt. lia. }
  assert ((2 ≤ length (filter (is_selected ids) segs))%nat →
          spec_mergeSelected ids segs ≠ segs) as Hmany.
  { intros Hge Heq. rewrite Heq in Hlen. lia. }
  split_and!; try done.
  - intros Hlt. by rewrite Hc, Hfew.
  - intros Hge. split; [| lia].
    rewrite Hc. intros [= Heq]. by apply Hmany.
  - rewrite Hc. split.
    + intros [= Heq].
      destruct (decide (length (filter (is_selected ids) segs) < 2)%nat);
        [done |].
      exfalso. apply Hmany; [lia | done].
    + intros Hlt. by rewrite Hfew.
Qed.

Lemma mergeSegments_changes_nothing_witness :
  mergeSegments mounted = mounted
  ∧ collection (mergeSegments mounted)
    = Some (JArr (spec_mergeSelected ["b"]
                    [segment_json "a" "x"; segment_json "b" "y";
                     segment_json "c" "z"]))
  ∧ mergeSegments (selecting ["c"; "b"] mounted) = selecting ["c"; "b"] mounted
  ∧ collection (mergeSegments (selecting ["c"; "b"] mounted))
    ≠ Some (JArr (spec_mergeSelected
                    (selectedSegments (comp (selecting ["c"; "b"] mounted)))
                    [segment_json "a" "x"; segment_json "b" "y";
                     segment_json "c" "z"])).
Proof.
  destruct (mergeSegments_changes_nothing mounted ["b"]
              [segment_json "a" "x"; segment_json "b" "y";
               segment_json "c" "z"])
    as (H1 & _ & _ & _ & _ & H2 & _); [by vm_compute |].
  destruct (mergeSegments_changes_nothing (selecting ["c"; "b"] mounted)
              ["c"; "b"]
              [segment_json "a" "x"; segment_json "b" "y";
               segment_json "c" "z"])
    as (H3 & _ & _ & _ & _ & _ & H4 & _); [by vm_compute |].
  split_and!; [exact H1 | | exact H3 |].
  - apply H2. vm_compute. lia.
  - apply H4. vm_compute. lia.
Defined.

(** ** Taking over a new list of segments *)

Lemma watch_segments_copy w new j :
  to_json (store w) new = Some j →
  ∃ ext copy,
    parse j (store w) = (store w ++ ext, copy)
    ∧ watch_segments new w
      = upd (set_editedSegments copy) (set_store (store w ++ ext) w)
    ∧ ∀ ws, writes_below (length (store w)) ws →
        to_json (write_all ws (store w ++ ext)) copy = Some j.
Proof.
  intros Hj. destruct (parse_reads_back (store w) j) as (ext & copy & Hp & _ & Hws).
  exists ext, copy. split; [done |]. split; [|done].
  unfold watch_segments. by rewrite Hj, Hp.
Qed.

(** C7, as stated, fails: with the segment a in edit mode, a new list of
    segments replaces the collection and the editor is still editing a. *)
Lemma replaceAll_keeps_edit_mode :
  ∃ w1 w2,
    run [ClickEdit "a"] mounted = Some w1
    ∧ editingSegmentId (comp w1) = "a"
    ∧ run [ChangeSegments (VRef 4)] w1 = Some w2
    ∧ collection w2 = Some (JArr [segment_json "a" "x"; segment_json "c" "z"])
    ∧ editingSegmentId (comp w2) = "a"
    ∧ editingSegmentId (comp w2) ≠ "".
Proof.
  do 2 eexists. split_and!; [vm_compute; reflexivity .. |].
  vm_compute. discriminate.
Qed.

(** C7, amended: when the parent hands over a list of segments that
    [JSON.stringify] can write (with whatever fuel), the working
    collection becomes a copy in new cells of the store: it reads as the same document as the input,
    the cells that were there before are untouched, and no later write of
    the parent into those cells, the input included, changes what the
    working collection reads as. The id of the segment in edit mode stays
    as it was. *)
Theorem replaceAll_deep_copy (w : World) (new : val) (j : json) (fuel : nat) :
  new ≠ segments (comp w) →
  stringify fuel (store w) new = Some j →
  collection (change_segments new w) = Some j
  ∧ (∃ ext, store (change_segments new w) = store w ++ ext)
  ∧ (∀ ws, writes_below (length (store w)) ws →
       ∃ w', run (external ws) (change_segments new w) = Some w'
             ∧ collection w' = Some j)
  ∧ segments (comp (change_segments new w)) = new
  ∧ editingSegmentId (comp (change_segments new w))
    = editingSegmentId (comp w)
  ∧ emitted (change_segments new w) = emitted w.
Proof.
  intros Hnew Hj%to_json_complete. unfold change_segments.
  rewrite decide_False by done.
  destruct (watch_segments_copy (upd (set_segments new) w) new j Hj)
    as (ext & copy & Hp & -> & Hws).
  split_and!; try done.
  - unfold collection. simpl. apply (Hws []). constructor.
  - by exists ext.
  - intros ws Hbelow. eexists. split; [apply run_external |].
    unfold collection. simpl. by apply Hws.
Qed.

Lemma replaceAll_deep_copy_witness :
  ∃ w',
    run (ChangeSegments (VRef 4)
         :: external [(2%nat, segment_cell "c" "edited by the parent");
                      (4%nat, CArr [])])
        mounted = Some w'
    ∧ to_json (store w') (VRef 4) = Some (JArr [])
    ∧ collection w'
      = Some (JArr [segment_json "a" "x"; segment_json "c" "z"]).
Proof.
  destruct (replaceAll_deep_copy mounted (VRef 4)
              (JArr [segment_json "a" "x"; segment_json "c" "z"]) 2)
    as (_ & _ & Hws & _); [by vm_compute | by vm_compute |].
  destruct (Hws [(2%nat, segment_cell "c" "edited by the parent");
                 (4%nat, CArr [])]) as (w' & Hrun & Hc).
  { repeat constructor; simpl; lia. }
  exists w'. split; [exact Hrun |]. split; [|exact Hc].
  vm_compute in Hrun. injection Hrun as <-. by vm_compute.
Defined.

(** ** A segmentation run *)

(** C8: a [processRAG] request that throws leaves the store, the working
    collection and what it reads as unchanged, emits one error event that
    carries the thrown error, and ends the run, so that the user may try
    again. A click while a run is in progress, or while there is no source
    text, changes nothing at all: no request, no event. An accepted click
    followed by the failure of its request emits the start and the error
    event and leaves the collection as it was. *)
Theorem segmentation_failure_keeps_collection (w : World) :
  (∀ i request e, requests w !! i = Some request →
     ∃ w', step (Fail i e) w = Some w'
       ∧ store w' = store w
       ∧ editedSegments (comp w') = editedSegments (comp w)
       ∧ collection w' = collection w
       ∧ emitted w' = emitted w ++ [rag_error (rejection e)]
       ∧ requests w' = delete i (requests w)
       ∧ isProcessing (comp w') = false)
  ∧ (isProcessing (comp w) = true ∨ has_text (ragContent (comp w)) = false →
     processRAGContent w = w ∧ step ClickProcess w = Some w)
  ∧ (isProcessing (comp w) = false → has_text (ragContent (comp w)) = true →
     ∀ e, ∃ w', run [ClickProcess; Fail (length (requests w)) e] w = Some w'
       ∧ store w' = store w
       ∧ collection w' = collection w
       ∧ emitted w' = emitted w ++ [rag_start; rag_error (rejection e)]
       ∧ requests w' = requests w
       ∧ isProcessing (comp w') = false).
Proof.
  split_and!.
  - intros i request e Hi. eexists. split; [by simpl; rewrite Hi |].
    split_and!; done.
  - intros Hguard. assert (processRAGContent w = w) as Hnoop.
    { unfold processRAGContent. destruct (ragContent (comp w)) as [text|]; [|done].
      case_decide; [done |]. destruct Hguard as [-> | Htext]; [done |].
      simpl in Htext. by apply bool_decide_eq_false in Htext. }
    split; [done |]. simpl. by rewrite Hnoop.
  - intros Hp Htext e.
    destruct (ragContent (comp w)) as [text|] eqn:Hrc; [|done].
    simpl in Htext. apply bool_decide_eq_true in Htext.
    eexists. split.
    + simpl. unfold processRAGContent. rewrite Hrc, Hp.
      rewrite decide_False by done. simpl.
      rewrite lookup_app_r, Nat.sub_diag by done. simpl. reflexivity.
    + simpl. split_and!; try done.
      * by rewrite <-(assoc_L (++)).
      * rewrite delete_middle. apply (right_id_L [] (++)).
Qed.

Lemma segmentation_failure_keeps_collection_witness :
  ∃ w', run [ClickProcess; Fail 0 {| err_message := Some "Network Error" |}]
            mounted = Some w'
    ∧ collection w' = collection mounted
    ∧ emitted w'
      = [rag_start;
         rag_error (rejection {| err_message := Some "Network Error" |})]
    ∧ processRAGContent (processRAGContent mounted)
      = processRAGContent mounted.
Proof.
  destruct (segmentation_failure_keeps_collection mounted) as (_ & _ & Hrun).
  destruct (Hrun eq_refl eq_refl {| err_message := Some "Network Error" |})
    as (w' & Hw' & _ & Hc & Hev & _).
  exists w'. split_and!; [exact Hw' | exact Hc | exact Hev |].
  destruct (segmentation_failure_keeps_collection (processRAGContent mounted))
    as (_ & Hguard & _).
  apply Hguard. left. reflexivity.
Defined.

End EditorFacts.

(** * More properties of the progress component *)

Section PollerViewFacts.
Import Poller PollerView.

Implicit Types (w : World) (st : ProcessStatus) (si : option ProcessStatus).

(** ** The steps *)

(** The current step is a step, or what the status names in
    [Object.prototype]. *)
Lemma currentStep_cases si :
  (currentStatus si ∈ Object_prototype
   ∧ currentStep si = Inherited (currentStatus si))
  ∨ ((currentStatus si ∉ Object_prototype)
     ∧ (∃ step, currentStep si = Val step ∧ step ∈ id <$> processingSteps)).
Proof.
  unfold currentStep, index.
  destruct (statusToStep !! currentStatus si) as [step|] eqn:E.
  - right. apply elem_of_list_to_map_2 in E.
    repeat (apply elem_of_cons in E as [[= -> ->]|E];
            [split; [by apply (bool_decide_unpack _) |];
             eexists; split; [reflexivity | by apply (bool_decide_unpack _)] |]).
    by apply elem_of_nil in E.
  - case_bool_decide as Hp; [by left |]. right. split; [done |].
    exists "pending". split; [done | by apply (bool_decide_unpack _)].
Qed.

(** X1: the current step is one of the seven steps of [processingSteps],
    whatever the status payload is, unless the status names a property of
    [Object.prototype]: then it is what that name stands for there, and no
    step. *)
Theorem currentStep_is_a_step si :
  if bool_decide (currentStatus si ∈ Object_prototype)
  then currentStep si = Inherited (currentStatus si)
  else ∃ step, currentStep si = Val step ∧ step ∈ id <$> processingSteps.
Proof.
  destruct (currentStep_cases si) as [[Hp Hc] | [Hp Hc]].
  - by rewrite bool_decide_eq_true_2.
  - by rewrite bool_decide_eq_false_2.
Qed.

(** X2: the steps shown as completed are the steps before the current one,
    in the order of [processingSteps], and none at all once the status is
    failed; the current step itself is never among them. *)
Theorem completed_steps_are_the_prefix si :
  filter (λ stepId, isStepCompleted si stepId) (id <$> processingSteps)
  = (if decide (currentStatus si = "failed") then []
     else take (Z.to_nat (findIndex
                            (λ step,
                               bool_decide (Val (id step) = currentStep si))
                            processingSteps))
               (id <$> processingSteps))
  ∧ ∀ stepId, currentStep si = Val stepId → isStepCompleted si stepId = false.
Proof.
  unfold isStepCompleted.
  destruct (decide (currentStatus si = "failed")) as [Hf|Hf]; [done |].
  rewrite (bool_decide_eq_true_2 _ Hf).
  destruct (currentStep_cases si) as [[_ ->] | [_ (step & -> & Hc)]].
  - split; [by vm_compute | done].
  - repeat (apply elem_of_cons in Hc as [->|Hc];
            [split; [by vm_compute | intros ? [= <-]; by vm_compute] |]).
    by apply elem_of_nil in Hc.
Qed.

(** X3: a step id that is not in [processingSteps] counts as completed
    whenever the status is not failed and is no name of a property of
    [Object.prototype]: its index is -1, below the index of every step;
    for such a name no step is the current one, and -1 is not below -1. *)
Theorem unknown_step_counts_as_completed si (stepId : string) :
  stepId ∉ id <$> processingSteps →
  isStepCompleted si stepId
  = bool_decide (currentStatus si ≠ "failed"
                 ∧ currentStatus si ∉ Object_prototype).
Proof.
  intros Hid.
  assert (findIndex (λ step, bool_decide (id step = stepId)) processingSteps
          = -1) as Hstep.
  { unfold findIndex, processingSteps. simpl.
    repeat (rewrite bool_decide_eq_false_2;
            [|intros <-; apply Hid; by apply (bool_decide_unpack _)]).
    done. }
  unfold isStepCompleted. rewrite Hstep.
  destruct (decide (currentStatus si = "failed")) as [Hf|Hf].
  { rewrite bool_decide_eq_false_2; [done | by intros [? _]]. }
  rewrite (bool_decide_eq_true_2 _ Hf).
  destruct (currentStep_cases si) as [[Hp ->] | [Hp (step & -> & Hc)]].
  - rewrite bool_decide_eq_false_2; [done | by intros [_ ?]].
  - rewrite bool_decide_eq_true_2 by done.
    repeat (apply elem_of_cons in Hc as [->|Hc]; [by vm_compute |]).
    by apply elem_of_nil in Hc.
Qed.

Lemma unknown_step_counts_as_completed_witness :
  isStepCompleted (Some (payload "job-1" "pending" None)) "archiving" = true
  ∧ isStepCompleted (Some (payload "job-1" "constructor" None)) "archiving"
    = false.
Proof.
  split.
  - rewrite (unknown_step_counts_as_completed
               (Some (payload "job-1" "pending" None)) "archiving").
    + reflexivity.
    + apply (bool_decide_unpack _). by vm_compute.
  - rewrite (unknown_step_counts_as_completed
               (Some (payload "job-1" "constructor" None)) "archiving").
    + reflexivity.
    + apply (bool_decide_unpack _). by vm_compute.
Defined.


(** ** The elapsed time *)

Lemma elapsedTime_getter_spec (start now : Z) :
  start ≠ 0 →
  let seconds := (now - start) / 1000 in
  if seconds <? 60 then elapsedTime_getter start now = pretty seconds +:+ "秒"
  else ∃ m r, elapsedTime_getter start now
              = pretty m +:+ "分" +:+ pretty r +:+ "秒"
              ∧ 1 ≤ m ∧ 0 ≤ r < 60 ∧ 60 * m + r = seconds.
Proof.
  intros Hs seconds. unfold elapsedTime_getter. rewrite decide_False by done.
  fold seconds. destruct (seconds <? 60) eqn:E; [done |].
  apply Z.ltb_ge in E.
  exists (seconds / 60), (Z.rem seconds 60). split; [done |].
  rewrite Z.rem_mod_nonneg by lia.
  pose proof (Z.div_mod seconds 60 ltac:(lia)).
  pose proof (Z.mod_pos_bound seconds 60 ltac:(lia)).
  split_and!; lia.
Qed.

(** Only a start assigns [startTime]. *)
Lemma step_keeps_startTime a w w' :
  starts_nothing (Does a) = true → step a w = Some w' →
  startTime (comp w') = startTime (comp w).
Proof.
  intros Ha Hstep.
  destruct w as [[tid ap pi si em ip pt stt] ts nh fl ev ck].
  destruct a as [| | | |j st|j e|h]; try done; simpl in Hstep.
  - injection Hstep as <-. unfold stopPolling. simpl. by destruct pt.
  - injection Hstep as <-. unfold onUnmounted, stopPolling. simpl.
    by destruct pt.
  - destruct (fl !! j); [| done]. injection Hstep as <-.
    unfold poll_resolved, stopPolling. simpl.
    repeat case_decide; destruct pt, ip; done.
  - destruct (fl !! j); [| done]. injection Hstep as <-.
    unfold poll_rejected, stopPolling. simpl. by destruct pt.
  - destruct (timer_set _ _); [| done]. by injection Hstep as <-.
Qed.

Lemma moments_keep_text ms : ∀ v v' text,
  kept v = Some text →
  forallb starts_nothing ms = true →
  moments ms v = Some v' →
  kept v' = Some text
  ∧ startTime (comp (world v')) = startTime (comp (world v)).
Proof.
  induction ms as [|m ms IH]; intros v v' text Hk Hms Hrun.
  { by simplify_eq/=. }
  apply andb_prop in Hms as [Hm Hms].
  change (moment m v ≫= moments ms = Some v') in Hrun.
  apply bind_Some in Hrun as (v1 & Hv1 & Hrun).
  assert (kept v1 = Some text
          ∧ startTime (comp (world v1)) = startTime (comp (world v)))
    as [Hk1 Hs1].
  { destruct m as [a | now |]; simpl in Hv1.
    - apply bind_Some in Hv1 as (w' & Hstep & [= <-]). simpl.
      rewrite (step_keeps_startTime a _ _ Hm Hstep).
      by rewrite decide_True.
    - by simplify_eq.
    - unfold elapsedTime in Hv1. rewrite Hk in Hv1. by simplify_eq. }
  destruct (IH v1 v' text Hk1 Hms Hrun) as [Hk' Hs'].
  split; [done | congruence].
Qed.

(** X5: the elapsed time on display is the one of the first read after
    the start. The getter gives whole seconds while these are below 60
    (also when the clock is behind the start) and minutes and seconds from
    there on, with at least one minute, less than sixty seconds, and both
    adding up to the whole seconds elapsed; but it runs at the first read
    only: as long as nothing starts polling anew, whatever responses,
    timeouts and halts there are and however far the clock moves on, a
    read returns the text of the first read. *)
Theorem elapsedTime_is_kept (w : World) (ms : list Moment) (v' : View) :
  startTime (comp w) ≠ 0 →
  forallb starts_nothing ms = true →
  moments (Renders :: ms) {| world := w; kept := None |} = Some v' →
  let seconds := (clock w - startTime (comp w)) / 1000 in
  (elapsedTime v').1 = elapsedTime_getter (startTime (comp w)) (clock w)
  ∧ startTime (comp (world v')) = startTime (comp w)
  ∧ (if seconds <? 60 then (elapsedTime v').1 = pretty seconds +:+ "秒"
     else ∃ m r, (elapsedTime v').1 = pretty m +:+ "分" +:+ pretty r +:+ "秒"
                 ∧ 1 ≤ m ∧ 0 ≤ r < 60 ∧ 60 * m + r = seconds).
Proof.
  intros Hs Hms Hrun seconds.
  change (moments ms
            {| world := w;
               kept := Some (elapsedTime_getter (startTime (comp w))
                               (clock w)) |} = Some v') in Hrun.
  destruct (moments_keep_text ms
              {| world := w;
                 kept := Some (elapsedTime_getter (startTime (comp w))
                                 (clock w)) |}
              v' _ eq_refl Hms Hrun) as [Hk Hst].
  assert ((elapsedTime v').1
          = elapsedTime_getter (startTime (comp w)) (clock w)) as Hread
    by (unfold elapsedTime; by rewrite Hk).
  split_and!; [done | done |]. rewrite Hread.
  apply (elapsedTime_getter_spec (startTime (comp w)) (clock w) Hs).
Qed.

Lemma elapsedTime_is_kept_witness :
  ∃ v',
    moments [Renders; Passes 126500;
             Does (Resolve 0 (payload "job-1" "uploading" None)); Renders]
      {| world := startPolling (upd (set_taskId "job-1") (fresh true 2000 1000));
         kept := None |} = Some v'
    ∧ clock (world v') = 126500
    ∧ (elapsedTime v').1 = "0秒".
Proof.
  eexists. split; [vm_compute; reflexivity |]. split; [reflexivity |].
  destruct (elapsedTime_is_kept
              (startPolling (upd (set_taskId "job-1") (fresh true 2000 1000)))
              [Passes 126500;
               Does (Resolve 0 (payload "job-1" "uploading" None)); Renders]
              _ ltac:(simpl; lia) eq_refl ltac:(vm_compute; reflexivity))
    as (_ & _ & Hshown).
  exact Hshown.
Defined.

End PollerViewFacts.

(** * Properties of every run of the progress component *)

Section PollerRunFacts.
Import Poller PollerView.

Implicit Types (w : World) (st : ProcessStatus) (e : JsError).

Lemma run_invariant (I : World → Prop) :
  (∀ a w w', I w → step a w = Some w' → I w') →
  ∀ acts w w', I w → run acts w = Some w' → I w'.
Proof.
  intros Hstep. induction acts as [|a acts IH]; intros w w' Hw Hrun.
  - by injection Hrun as <-.
  - change (step a w ≫= run acts = Some w') in Hrun.
    destruct (step a w) as [w1|] eqn:Ha; [|done].
    eapply IH; [|exact Hrun]. by eapply Hstep.
Qed.

Lemma polling_by_events_snoc evs ev :
  polling_by_events (evs ++ [ev])
  = match ev with
    | polling_start => true
    | polling_stop => false
    | _ => polling_by_events evs
    end.
Proof. unfold polling_by_events. by rewrite foldl_app. Qed.

Lemma last_update_snoc evs ev :
  last_update (evs ++ [ev])
  = match ev with
    | status_update st => Some st
    | _ => last_update evs
    end.
Proof. unfold last_update. by rewrite foldl_app. Qed.

Lemma stopPolling_in_step w :
  in_step_with_events w → in_step_with_events (stopPolling w).
Proof.
  destruct w as [[tid ap pi si em ip pt stt] ts nh fl ev ck].
  intros [Hp Hs]. unfold in_step_with_events, stopPolling in *.
  destruct pt; simpl in *;
    by rewrite polling_by_events_snoc, last_update_snoc.
Qed.

Lemma startPolling_in_step w :
  in_step_with_events w → in_step_with_events (startPolling w).
Proof.
  destruct w as [[tid ap pi si em ip pt stt] ts nh fl ev ck].
  intros [Hp Hs]. unfold in_step_with_events, startPolling in *. simpl in *.
  case_decide; [done |]. destruct ip; [done |]. simpl.
  by rewrite polling_by_events_snoc, last_update_snoc.
Qed.

Lemma watch_taskId_in_step new w :
  in_step_with_events w → in_step_with_events (watch_taskId new w).
Proof.
  intros Hw. unfold watch_taskId, initPolling. repeat case_decide.
  - apply stopPolling_in_step in Hw. destruct Hw as [Hp _].
    split; [done | by left].
  - done.
  - destruct (autoPoll (comp w)); [by apply startPolling_in_step | done].
Qed.

Lemma poll_resolved_in_step st w :
  in_step_with_events w → in_step_with_events (poll_resolved st w).
Proof.
  destruct w as [[tid ap pi si em ip pt stt] ts nh fl ev ck].
  intros [Hp Hs]. unfold in_step_with_events, poll_resolved, stopPolling in *.
  simpl in *. repeat case_decide; destruct pt, ip; simpl;
    rewrite ?polling_by_events_snoc, ?last_update_snoc;
    (split; [done | by right]).
Qed.

Lemma step_in_step a w w' :
  in_step_with_events w → step a w = Some w' → in_step_with_events w'.
Proof.
  intros Hw Hstep. destruct a as [new| | | |i st|i e|h]; simpl in Hstep.
  - injection Hstep as <-. unfold change_taskId. case_decide; [done |].
    by do 2 apply watch_taskId_in_step.
  - injection Hstep as <-. by apply startPolling_in_step.
  - injection Hstep as <-. by apply stopPolling_in_step.
  - injection Hstep as <-. by apply stopPolling_in_step.
  - destruct (inflight w !! i); [|done]. injection Hstep as <-.
    by apply poll_resolved_in_step.
  - destruct (inflight w !! i); [|done]. injection Hstep as <-.
    by apply stopPolling_in_step.
  - destruct (timer_set h w); [|done]. by injection Hstep as <-.
Qed.

(** X6: in every run of the component from its setup, whatever the
    parent, the user, the responses and the timeouts do, [isPolling] is
    true exactly when the last start or stop event emitted was a start, and
    the status on display is either none or the payload of the last update
    event. *)
Theorem refs_in_step_with_events
    (auto : bool) (interval now : Z) (acts : list Action) (w : World) :
  run acts (setup auto interval now) = Some w →
  isPolling (comp w) = polling_by_events (emitted w)
  ∧ (statusInfo (comp w) = None
     ∨ statusInfo (comp w) = last_update (emitted w)).
Proof.
  apply (run_invariant in_step_with_events); [apply step_in_step |].
  split; [reflexivity | by left].
Qed.

Lemma refs_in_step_with_events_witness :
  ∃ w, run [ChangeTaskId "job-1"; ClickStop; ClickStart;
            Resolve 1 (payload "job-1" "cleaning" None);
            Resolve 0 (payload "job-1" "completed" None)]
           (setup true 2000 0) = Some w
    ∧ isPolling (comp w) = polling_by_events (emitted w)
    ∧ isPolling (comp w) = false
    ∧ statusInfo (comp w) = last_update (emitted w).
Proof.
  eexists. split; [vm_compute; reflexivity |].
  split; [|by vm_compute].
  apply (refs_in_step_with_events true 2000 0
           [ChangeTaskId "job-1"; ClickStop; ClickStart;
            Resolve 1 (payload "job-1" "cleaning" None);
            Resolve 0 (payload "job-1" "completed" None)]).
  vm_compute; reflexivity.
Defined.

(** ** One response, one timeout *)

(** X7: a response whose status is neither completed nor failed is stored
    and emitted as one update event. While the poller is polling it sets
    exactly one timeout, with the configured interval, and keeps its
    handle; when the poller has been halted in the meantime (the request
    is not cancelled by a halt) it sets none. *)
Theorem nonterminal_response (w : World) (i : nat) (id : string) st :
  inflight w !! i = Some id →
  status st ≠ "completed" → status st ≠ "failed" →
  ∃ w', step (Resolve i st) w = Some w'
    ∧ statusInfo (comp w') = Some st
    ∧ since w w' = [status_update st]
    ∧ inflight w' = delete i (inflight w)
    ∧ isPolling (comp w') = isPolling (comp w)
    ∧ if isPolling (comp w)
      then timers w' = timers w ++ [(next_handle w, pollInterval (comp w))]
           ∧ pollTimer (comp w') = Some (next_handle w)
      else timers w' = timers w
           ∧ pollTimer (comp w') = pollTimer (comp w).
Proof.
  intros Hi Hc Hf. eexists. split; [by simpl; rewrite Hi |].
  destruct w as [[tid ap pi si em ip pt stt] ts nh fl ev ck].
  unfold poll_resolved. rewrite !decide_False by done.
  destruct ip; simpl; (split_and!; try done); by apply since_app.
Qed.

Lemma nonterminal_response_witness :
  ∃ w', step (Resolve 0 (payload "job-1" "cleaning" None))
             (stopPolling
                (startPolling (upd (set_taskId "job-1") (fresh true 2000 0))))
        = Some w'
    ∧ statusInfo (comp w') = Some (payload "job-1" "cleaning" None)
    ∧ timers w' = [].
Proof.
  destruct (nonterminal_response
              (stopPolling
                 (startPolling (upd (set_taskId "job-1") (fresh true 2000 0))))
              0 "job-1" (payload "job-1" "cleaning" None))
    as (w' & Hstep & Hsi & _ & _ & _ & Hts & _);
    [reflexivity | discriminate | discriminate |].
  exists w'. split_and!; [exact Hstep | exact Hsi | exact Hts].
Defined.

(** X8: a second start changes nothing: [startPolling] after
    [startPolling] is [startPolling], so a session never runs two loops
    from two starts in a row. *)
Theorem startPolling_idempotent w :
  startPolling (startPolling w) = startPolling w.
Proof.
  destruct w as [[tid ap pi si em ip pt stt] ts nh fl ev ck].
  unfold startPolling. simpl.
  destruct (decide (tid = "")) as [He|He]; simpl.
  - by rewrite decide_True.
  - destruct ip; simpl; by rewrite decide_False.
Qed.

(** ** A session that is left alone *)

Lemma session_or_halted w0 acts : ∀ w w',
  session w0 w ∨ halted w →
  forallb environment acts = true →
  run acts w = Some w' →
  session w0 w' ∨ halted w'.
Proof.
  induction acts as [|a acts IH]; intros w w' Hw Henv Hrun.
  - by injection Hrun as <-.
  - simpl in Henv. apply andb_prop in Henv as [Ha Henv].
    change (step a w ≫= run acts = Some w') in Hrun.
    destruct Hw as [Hs | Hh].
    + destruct (step a w) as [w1|] eqn:Hstep; [|done].
      eapply IH; [|done | exact Hrun].
      by eapply session_step; [| apply Is_true_true_2 |].
    + by rewrite (halted_stuck _ a Hh (Is_true_true_2 _ Ha)) in Hrun.
Qed.

(** X9: in a session that starts with nothing pending and is then left to
    its responses and timeouts, at every moment at most one thing is
    pending: one request or one timeout, never both and never two; a
    pending timeout is the one whose handle [pollTimer] keeps, so that a
    halt cancels it; and once the poller is no longer polling nothing is
    pending at all. *)
Theorem session_one_pending (w0 : World) (acts : list Action) (w : World) :
  taskId (comp w0) ≠ "" →
  isPolling (comp w0) = false →
  inflight w0 = [] →
  timers w0 = [] →
  forallb environment acts = true →
  run (ClickStart :: acts) w0 = Some w →
  (length (timers w) + length (inflight w) ≤ 1)%nat
  ∧ (∀ h d, (h, d) ∈ timers w → pollTimer (comp w) = Some h)
  ∧ (isPolling (comp w) = false → timers w = [] ∧ inflight w = [])
  ∧ timers (stopPolling w) = [].
Proof.
  intros Hid Hp Hfl Hts Henv Hrun.
  change (run acts (startPolling w0) = Some w) in Hrun.
  destruct (session_or_halted w0 acts (startPolling w0) w) as [Hs | Hh];
    [left; by apply startPolling_session | done | done | |].
  - destruct Hs as [id evs Hp' _ Hfl' Hts' _ _ | h d evs Hp' _ Hfl' Hts' Hpt _ _].
    + rewrite stopPolling_timers, Hfl', Hts'. split_and!; simpl.
      * lia.
      * intros h d Hin. by apply elem_of_nil in Hin.
      * by rewrite Hp'.
      * by destruct (pollTimer (comp w)).
    + rewrite stopPolling_timers, Hfl', Hts', Hpt. split_and!; simpl.
      * lia.
      * by intros h' d' [= -> ->]%list_elem_of_singleton.
      * by rewrite Hp'.
      * apply filter_own_handle.
  - destruct Hh as (Hp' & Hfl' & Hts').
    rewrite stopPolling_timers, Hfl', Hts'. split_and!; simpl.
    + lia.
    + intros h d Hin. by apply elem_of_nil in Hin.
    + done.
    + by destruct (pollTimer (comp w)).
Qed.

Lemma session_one_pending_witness :
  ∃ w, run [ClickStart; Resolve 0 (payload "job-1" "cleaning" None)]
           (upd (set_taskId "job-1") (fresh false 2000 0)) = Some w
    ∧ (length (timers w) + length (inflight w) ≤ 1)%nat
    ∧ timers (stopPolling w) = [].
Proof.
  eexists. split; [vm_compute; reflexivity |].
  edestruct (session_one_pending
               (upd (set_taskId "job-1") (fresh false 2000 0))
               [Resolve 0 (payload "job-1" "cleaning" None)])
    as (Hle & _ & _ & Hstop);
    [done | reflexivity | reflexivity | reflexivity | reflexivity
    | vm_compute; reflexivity |].
  split; [exact Hle | exact Hstop].
Defined.

End PollerRunFacts.

(** * Properties of [pollTaskStatus] *)

Section ApiPollingFacts.
Import Poller ApiPolling.

Lemma poll_loop_spec answers maxAttempts : ∀ fuel attempts,
  (Z.to_nat maxAttempts - attempts < fuel)%nat →
  ∃ outcome n,
    poll_loop fuel answers maxAttempts attempts = Some (outcome, n)
    ∧ (attempts < n)%nat
    ∧ (n ≤ S attempts `max` Z.to_nat maxAttempts)%nat
    ∧ (∀ k, (attempts ≤ k < pred n)%nat → goes_on (answers k))
    ∧ match outcome with
      | Resolved st => answers (pred n) = inl st ∧ terminal st = true
      | Rejected error =>
          answers (pred n) = inr error
          ∨ (error = timeout_error ∧ goes_on (answers (pred n))
             ∧ maxAttempts ≤ Z.of_nat n)
      end.
Proof.
  induction fuel as [|fuel IH]; intros attempts Hfuel; [lia |].
  simpl. destruct (answers attempts) as [st|error] eqn:Ha.
  - destruct (terminal st) eqn:Ht.
    + exists (Resolved st), (S attempts). simpl.
      repeat split; try done; lia.
    + destruct (Z.geb_spec (Z.of_nat (S attempts)) maxAttempts) as [Hmax|Hmax].
      * exists (Rejected timeout_error), (S attempts). simpl.
        split; [done |]. split; [lia |]. split; [lia |]. split; [lia |].
        right. repeat split; [by exists st | lia].
      * destruct (IH (S attempts))
          as (outcome & n & Hloop & Hlt & Hle & Hon & Hout); [lia |].
        exists outcome, n. split; [done |].
        split; [lia |]. split; [lia |]. split; [|done].
        intros k Hk. destruct (decide (k = attempts)) as [->|Hne].
        -- by exists st.
        -- apply Hon. lia.
  - exists (Rejected error), (S attempts). simpl.
    split; [done |]. split; [lia |]. split; [lia |]. split; [lia |].
    by left.
Qed.

(** X10: [pollTaskStatus] always settles, after at least one request and
    at most [maxAttempts] of them (one when [maxAttempts] is below one).
    Every answer before the last was a status that made it go on. It
    resolves exactly with a completed or failed status, also when this is
    the answer to the last request allowed; it rejects with the error of a
    failed request, or with the time-out error when the last request
    allowed was answered by a status that is neither. *)
Theorem pollTaskStatus_settles (answers : nat → ProcessStatus + JsError)
    (maxAttempts : Z) :
  ∃ outcome n,
    pollTaskStatus answers maxAttempts = Some (outcome, n)
    ∧ (1 ≤ n)%nat
    ∧ Z.of_nat n ≤ Z.max 1 maxAttempts
    ∧ (∀ k, (k < pred n)%nat → goes_on (answers k))
    ∧ match outcome with
      | Resolved st => answers (pred n) = inl st ∧ terminal st = true
      | Rejected error =>
          answers (pred n) = inr error
          ∨ (error = timeout_error ∧ goes_on (answers (pred n))
             ∧ Z.of_nat n = Z.max 1 maxAttempts)
      end.
Proof.
  destruct (poll_loop_spec answers maxAttempts (S (Z.to_nat maxAttempts)) O)
    as (outcome & n & Hloop & Hlt & Hle & Hon & Hout); [lia |].
  exists outcome, n. split; [done |].
  split; [lia |]. split; [lia |]. split.
  - intros k Hk. apply Hon. lia.
  - destruct outcome as [st|error]; [done |].
    destruct Hout as [Herr | (-> & Hgo & Hmax)]; [by left |].
    right. repeat split; [done | lia].
Qed.

End ApiPollingFacts.

(** * More properties of a segmentation run *)

Section EditorRunFacts.
Import Store Editor EditorOps.

Implicit Types (w : World) (e : JsError).

Lemma mapM_imap_Some {A B} (l : list A) : ∀ (f : nat → A → option B),
  (∀ k x, l !! k = Some x → is_Some (f k x)) →
  ∃ ys, mapM id (imap f l) = Some ys
        ∧ length ys = length l
        ∧ ∀ k x, l !! k = Some x → ∃ y, ys !! k = Some y ∧ f k x = Some y.
Proof.
  induction l as [|x l IH]; intros f Hf.
  - exists []. by split_and!.
  - destruct (Hf O x eq_refl) as [y Hy].
    destruct (IH (f ∘ S)) as (ys & Hys & Hlen & Hlook).
    { intros k x' Hk. by apply (Hf (S k)). }
    exists (y :: ys). rewrite imap_cons. simpl. rewrite Hy. simpl.
    rewrite Hys. simpl. split_and!; [done | by rewrite Hlen |].
    intros [|k] x' Hk; simplify_eq/=; [by exists y |]. by apply Hlook.
Qed.

Lemma mapM_imap_None {A B} (l : list A) (f : nat → A → option B) k x :
  l !! k = Some x → f k x = None → mapM id (imap f l) = None.
Proof.
  intros Hk Hx. apply mapM_None_2, Exists_exists. exists None.
  split; [|done]. apply list_elem_of_lookup. exists k.
  by rewrite list_lookup_imap, Hk, <-Hx.
Qed.

Lemma format_segment_Some w k seg :
  seg ≠ JNull →
  ∃ f, format_segment w k seg = Some f
       ∧ get_field "chunkIndex" f = Some (JNum (inject_Z (Z.of_nat k)))
       ∧ get_field "id" f
         = Some (or_else (get_field "id" seg)
                   (JStr ("rag-" +:+ pretty (clock w) +:+ "-" +:+ pretty k)))
       ∧ get_field "content" f
         = Some (or_else (or_opt (get_field "content" seg)
                                 (get_field "text" seg)) (JStr "")).
Proof. intros Hseg. destruct seg; try done; by eexists. Qed.

(** X11: when the response is an array without [null], the working
    collection becomes the list of the formatted segments, one for each
    segment of the response and in its order, the segment at position [k]
    with [chunkIndex] [k], with the id of the response or else the id made
    from the clock and [k], and with the content, else the text, of the
    response. The success event and the update event carry the reference
    of the new working array itself, and the run stays in progress until
    the timeout set here fires. *)
Theorem segmentation_success (w : World) (i : nat)
    (request : Api.RAGProcessRequest) (segs : list json) :
  requests w !! i = Some request →
  JNull ∉ segs →
  ∃ w' formatted,
    step (Respond i (JArr segs)) w = Some w'
    ∧ collection w' = Some (JArr formatted)
    ∧ length formatted = length segs
    ∧ (∀ k seg, segs !! k = Some seg →
         ∃ f, formatted !! k = Some f
           ∧ get_field "chunkIndex" f = Some (JNum (inject_Z (Z.of_nat k)))
           ∧ get_field "id" f
             = Some (or_else (get_field "id" seg)
                       (JStr ("rag-" +:+ pretty (clock w) +:+ "-"
                              +:+ pretty k)))
           ∧ get_field "content" f
             = Some (or_else (or_opt (get_field "content" seg)
                                     (get_field "text" seg)) (JStr "")))
    ∧ emitted w'
      = emitted w ++ [rag_success (editedSegments (comp w'));
                      segments_update (editedSegments (comp w'))]
    ∧ isProcessing (comp w') = isProcessing (comp w)
    ∧ resets w' = S (resets w)
    ∧ requests w' = delete i (requests w).
Proof.
  intros Hi Hnull.
  destruct (mapM_imap_Some segs (format_segment (finish_request i w)))
    as (formatted & Hf & Hlen & Hlook).
  { intros k seg Hk.
    destruct (format_segment_Some (finish_request i w) k seg) as (f & -> & _);
      [|done].
    intros ->. apply Hnull. by eapply list_elem_of_lookup_2. }
  destruct (parse_reads_back (store (finish_request i w)) (JArr formatted))
    as (ext & copy & Hp & Hread & _).
  eexists _, formatted. split.
  { unfold step. rewrite Hi. unfold processRAGContent_resolved.
    rewrite Hf, Hp. reflexivity. }
  split_and!; try done.
  - intros k seg Hk. destruct (Hlook k seg Hk) as (f & Hfk & Hfmt).
    exists f. split; [done |].
    destruct (format_segment_Some (finish_request i w) k seg)
      as (f' & Hf' & ? & ? & ?).
    { intros ->. apply Hnull. by eapply list_elem_of_lookup_2. }
    by simplify_eq.
  - simpl. by rewrite <-(assoc_L (++)).
Qed.

Lemma segmentation_success_witness :
  ∃ w', step (Respond 0 (JArr [JObj [("content", JStr "hello")];
                               JObj [("text", JStr "world")]]))
             (processRAGContent mounted) = Some w'
    ∧ collection w'
      = Some (JArr [
          JObj [("id", JStr "rag-0-0"); ("fileId", JStr "file-1");
                ("content", JStr "hello"); ("chunkIndex", JNum 0);
                ("metadata", JObj [("confidence", JNum (9 # 10))])];
          JObj [("id", JStr "rag-0-1"); ("fileId", JStr "file-1");
                ("content", JStr "world"); ("chunkIndex", JNum 1);
                ("metadata", JObj [("confidence", JNum (9 # 10))])]]).
Proof.
  destruct (segmentation_success (processRAGContent mounted) 0
              {| Api.content := "hello world"; Api.chunk_size := 500;
                 Api.overlap := 50; Api.llm_backend := "deepseek";
                 Api.llm_model := "deepseek-chat"; Api.llm_timeout := 60 |}
              [JObj [("content", JStr "hello")]; JObj [("text", JStr "world")]])
    as (w' & formatted & Hstep & Hc & _); [reflexivity | |].
  { intros Hin. repeat (apply elem_of_cons in Hin as [Hin|Hin]; [done |]).
    by apply elem_of_nil in Hin. }
  exists w'. split; [exact Hstep |].
  vm_compute in Hstep. injection Hstep as <-. by vm_compute.
Defined.

(** X12: the ids made for the segments of one response that have no id of
    their own are different from one another. *)
Theorem made_ids_differ (w : World) (k1 k2 : nat) (seg1 seg2 f1 f2 : json) :
  format_segment w k1 seg1 = Some f1 →
  format_segment w k2 seg2 = Some f2 →
  has_id seg1 = false → has_id seg2 = false →
  k1 ≠ k2 →
  get_field "id" f1 ≠ get_field "id" f2.
Proof.
  intros H1 H2 Hid1 Hid2 Hk.
  assert (seg1 ≠ JNull) as Hn1 by (intros ->; discriminate).
  assert (seg2 ≠ JNull) as Hn2 by (intros ->; discriminate).
  destruct (format_segment_Some w k1 seg1 Hn1) as (f1' & Hf1 & _ & Hid1' & _).
  destruct (format_segment_Some w k2 seg2 Hn2) as (f2' & Hf2 & _ & Hid2' & _).
  simplify_eq. rewrite Hid1', Hid2'.
  unfold has_id, or_else in *.
  destruct (get_field "id" seg1) as [id1|];
    destruct (get_field "id" seg2) as [id2|];
    rewrite ?Hid1, ?Hid2; intros [= Heq];
    do 3 apply (inj (String.app _)) in Heq; by apply (inj pretty) in Heq.
Qed.

Lemma made_ids_differ_witness :
  get_field "id"
    (JObj [("id", JStr "rag-7-0"); ("fileId", JStr "");
           ("content", JStr "hello"); ("chunkIndex", JNum 0);
           ("metadata", JObj [("confidence", JNum (9 # 10))])])
  ≠ get_field "id"
      (JObj [("id", JStr "rag-7-1"); ("fileId", JStr "");
             ("content", JStr "world"); ("chunkIndex", JNum 1);
             ("metadata", JObj [("confidence", JNum (9 # 10))])]).
Proof.
  apply (made_ids_differ
           {| comp := initial_refs VNull None VNull; store := [];
              requests := []; resets := O; emitted := []; clock := 7 |}
           0 1 (JObj [("content", JStr "hello")])
           (JObj [("text", JStr "world")]));
    by vm_compute.
Defined.

(** X13: a response that is not an array, or an array with a [null] in
    it, ends in the [catch] branch: the working collection and the store
    stay as they were (no segment of the response is taken over), one
    error event is emitted, which carries the [TypeError] of the engine,
    and the run is over. *)
Theorem malformed_response_keeps_collection (w : World) (i : nat)
    (request : Api.RAGProcessRequest) (response : json) :
  requests w !! i = Some request →
  (∀ segs, response = JArr segs → JNull ∈ segs) →
  ∃ w', step (Respond i response) w = Some w'
    ∧ store w' = store w
    ∧ collection w' = collection w
    ∧ emitted w' = emitted w ++ [rag_error engine_TypeError]
    ∧ isProcessing (comp w') = false
    ∧ resets w' = resets w.
Proof.
  intros Hi Hbad.
  exists (processRAGContent_catch engine_TypeError (finish_request i w)).
  split; [|by split_and!].
  simpl. rewrite Hi. f_equal. unfold processRAGContent_resolved.
  destruct response as [| | | |segs|]; try done.
  pose proof (Hbad segs eq_refl) as Hin.
  apply list_elem_of_lookup in Hin as [k Hk].
  by rewrite (mapM_imap_None segs _ k JNull Hk).
Qed.

Lemma malformed_response_keeps_collection_witness :
  ∃ w', step (Respond 0 (JArr [JObj [("content", JStr "hello")]; JNull]))
             (processRAGContent mounted) = Some w'
    ∧ collection w' = collection (processRAGContent mounted)
    ∧ emitted w' = emitted (processRAGContent mounted)
                   ++ [rag_error engine_TypeError].
Proof.
  destruct (malformed_response_keeps_collection (processRAGContent mounted) 0
              {| Api.content := "hello world"; Api.chunk_size := 500;
                 Api.overlap := 50; Api.llm_backend := "deepseek";
                 Api.llm_model := "deepseek-chat"; Api.llm_timeout := 60 |}
              (JArr [JObj [("content", JStr "hello")]; JNull]))
    as (w' & Hstep & _ & Hc & Hev & _); [reflexivity | |].
  { intros segs [= <-]. right. left. }
  exists w'. split_and!; [exact Hstep | exact Hc | exact Hev].
Defined.

(** ** One run at a time *)

Lemma step_one_run a w w' :
  one_run_at_a_time w → step a w = Some w' → one_run_at_a_time w'.
Proof.
  intros Hw Hstep. unfold one_run_at_a_time in *.
  destruct a as [new|new|l c|sid| | |i response|i e|]; simpl in Hstep.
  - injection Hstep as <-. unfold change_segments, watch_segments.
    case_decide; [done |]. simpl.
    destruct (to_json _ _); [|done]. by destruct (parse _ _).
  - injection Hstep as <-. unfold change_ragContent, watch_ragContent.
    case_decide; [done |]. by case_match.
  - by injection Hstep as <-.
  - injection Hstep as <-. unfold editSegment. by case_decide.
  - injection Hstep as <-. unfold processRAGContent.
    destruct (ragContent (comp w)) as [text|]; [|done].
    case_decide; [done |].
    destruct (isProcessing (comp w)) eqn:Hp.
    { destruct Hw as [? | [(? & ? & ?) | (? & ? & ?)]];
        [by left | by right; left | by right; right]. }
    simpl.
    destruct Hw as [[Hr Ht] | [(Hp' & _) | (Hp' & _)]]; [|congruence ..].
    right; left. by rewrite Hr, Ht.
  - by injection Hstep as <-.
  - destruct (requests w !! i) as [request|] eqn:Hi; [|done].
    injection Hstep as <-.
    destruct Hw as [[Hr Ht] | [(Hp & Hlen & Ht) | (Hp & Hr & Ht)]];
      [by rewrite Hr in Hi | | by rewrite Hr in Hi].
    assert (delete i (requests w) = []) as Hdel.
    { destruct (requests w) as [|r [|r' rs]]; simplify_eq/=.
      destruct i; simplify_eq/=. done. }
    unfold processRAGContent_resolved.
    assert (one_run_at_a_time
              (processRAGContent_catch engine_TypeError (finish_request i w))) as Hcatch.
    { left. simpl. by rewrite Hdel, Ht. }
    destruct response as [| | | |segs|]; try exact Hcatch.
    destruct (mapM id _); [|exact Hcatch].
    destruct (parse _ _) as [h v]. right; right. simpl.
    by rewrite Hdel, Ht, Hp.
  - destruct (requests w !! i) as [request|] eqn:Hi; [|done].
    injection Hstep as <-.
    destruct Hw as [[Hr Ht] | [(Hp & Hlen & Ht) | (Hp & Hr & Ht)]];
      [by rewrite Hr in Hi | | by rewrite Hr in Hi].
    left. simpl. split; [|done].
    destruct (requests w) as [|r [|r' rs]]; simplify_eq/=.
    destruct i; simplify_eq/=. done.
  - destruct (resets w) as [|n] eqn:Ht; [done |]. injection Hstep as <-.
    destruct Hw as [[Hr Ht'] | [(Hp & Hlen & Ht') | (Hp & Hr & Ht')]];
      simplify_eq/=.
    left. simpl. by rewrite Hr, Ht.
Qed.

Lemma run_one_run acts : ∀ w0 w,
  one_run_at_a_time w0 → run acts w0 = Some w → one_run_at_a_time w.
Proof.
  induction acts as [|a acts IH]; intros w0 w H0 Hrun.
  - by injection Hrun as <-.
  - change (step a w0 ≫= run acts = Some w) in Hrun.
    destruct (step a w0) as [w1|] eqn:Ha; [|done].
    eapply IH; [|exact Hrun]. by eapply step_one_run.
Qed.

(** X14: in every run of the editor from its setup, at most one
    segmentation request is out at any time, at most one of the two-second
    timeouts is set, and never both; while either is so, [isProcessing] is
    on, so that a click on the button starts nothing. *)
Theorem one_run_at_any_time (h : heap) (segs : val) (text : option string)
    (now : Z) (acts : list Action) (w : World) :
  run acts (setup h segs text now) = Some w →
  (length (requests w) + resets w ≤ 1)%nat
  ∧ ((length (requests w) + resets w = 1)%nat →
     isProcessing (comp w) = true ∧ processRAGContent w = w).
Proof.
  intros Hrun.
  assert (one_run_at_a_time w) as Hw.
  { eapply run_one_run; [|exact Hrun].
    left. unfold setup, watch_ragContent, watch_segments. simpl.
    destruct (to_json _ _); [destruct (parse _ _) |]; simpl; by case_match. }
  destruct Hw as [[Hr Ht] | [(Hp & Hlen & Ht) | (Hp & Hr & Ht)]].
  - rewrite Hr, Ht. simpl. split; [lia | lia].
  - rewrite Hlen, Ht. split; [lia |]. intros _. split; [done |].
    unfold processRAGContent. rewrite Hp. by repeat case_match.
  - rewrite Hr, Ht. simpl. split; [lia |]. intros _. split; [done |].
    unfold processRAGContent. rewrite Hp. by repeat case_match.
Qed.

Lemma one_run_at_any_time_witness :
  ∃ w, run [ClickProcess; ClickProcess] mounted = Some w
       ∧ length (requests w) = 1%nat
       ∧ processRAGContent w = w.
Proof.
  eexists. split; [vm_compute; reflexivity |]. split; [reflexivity |].
  apply (one_run_at_any_time three_segments (VRef 3) (Some "hello world") 0
           [ClickProcess; ClickProcess]);
    [vm_compute; reflexivity | reflexivity].
Defined.

End EditorRunFacts.

(** * Properties of the editing operations *)

Section EditorOpsFacts.
Import Store Editor EditorOps.

Implicit Types (w : World) (h : heap) (v : val) (j : json).

(** ** Visits *)

Lemma Forall2_impl_Forall {A B} (P Q : A → B → Prop) l k :
  Forall2 P l k → Forall (λ x, ∀ y, P x y → Q x y) l → Forall2 Q l k.
Proof.
  induction 1 as [|x y l k Hxy _ IH]; intros Hall; [constructor |].
  apply Forall_cons in Hall as [Hx Hl]. constructor; [by apply Hx | by apply IH].
Qed.

Lemma visit_ref f h l j fp :
  visit (S f) h (VRef l) = Some (j, fp) ↔
  ∃ c rs, h !! l = Some c
          ∧ Forall2 (λ x r, visit f h x = Some r) (cell_values c) rs
          ∧ j = rebuild c (rs.*1) ∧ fp = l :: mjoin (rs.*2).
Proof.
  simpl. destruct (h !! l) as [c|] eqn:Hc.
  - split.
    + intros (rs & Hrs & [= <- <-])%bind_Some.
      apply mapM_Some in Hrs. by exists c, rs.
    + intros (c' & rs & [= <-] & Hrs & -> & ->).
      apply bind_Some. exists rs. split; [by apply mapM_Some | done].
  - split; [done | by intros (? & ? & ? & _)].
Qed.

Lemma visit_stringify f : ∀ h v j fp,
  visit f h v = Some (j, fp) → stringify f h v = Some j.
Proof.
  induction f as [|f IH]; intros h v j fp Hv.
  - destruct v; by simplify_eq/=.
  - destruct v as [| | | |l]; [by simplify_eq/= .. |].
    apply visit_ref in Hv as (c & rs & Hc & Hrs & -> & ->).
    apply stringify_ref. exists c, (rs.*1). split_and!; [done | | done].
    apply Forall2_fmap_r. eapply Forall2_impl; [exact Hrs |].
    intros x [j fp] Hx. by eapply IH.
Qed.

Lemma visit_mono f : ∀ h v r f',
  visit f h v = Some r → (f ≤ f')%nat → visit f' h v = Some r.
Proof.
  induction f as [|f IH]; intros h v [j fp] f' Hv Hle.
  - destruct v; by destruct f'.
  - destruct v as [| | | |l]; try by destruct f'.
    destruct f' as [|f']; [lia |].
    apply visit_ref in Hv as (c & rs & Hc & Hrs & -> & ->).
    apply visit_ref. exists c, rs. split_and!; [done | | done | done].
    eapply Forall2_impl; [exact Hrs |].
    intros x r Hx. eapply IH; [exact Hx | lia].
Qed.

(** What is visited is in the store. *)
Lemma visit_in_store f : ∀ h v j fp l,
  visit f h v = Some (j, fp) → l ∈ fp → (l < length h)%nat.
Proof.
  induction f as [|f IH]; intros h v j fp l Hv Hl.
  - destruct v; simplify_eq/=; by apply elem_of_nil in Hl.
  - destruct v as [| | | |l0]; [simplify_eq/=; by apply elem_of_nil in Hl .. |].
    apply visit_ref in Hv as (c & rs & Hc & Hrs & -> & ->).
    apply elem_of_cons in Hl as [-> | Hl]; [by eapply lookup_lt_Some |].
    apply list_elem_of_join in Hl as (fp & Hl & Hfp).
    apply list_elem_of_fmap in Hfp as ([j' fp'] & -> & Hr).
    apply list_elem_of_lookup in Hr as [k Hk].
    destruct (Forall2_lookup_r _ _ _ _ _ Hrs Hk) as (x & _ & Hx).
    by eapply IH.
Qed.

(** A visit only depends on the cells it visits. *)
Lemma visit_frame f : ∀ h h' v j fp,
  visit f h v = Some (j, fp) →
  (∀ l, l ∈ fp → h' !! l = h !! l) →
  visit f h' v = Some (j, fp).
Proof.
  induction f as [|f IH]; intros h h' v j fp Hv Hsame.
  - destruct v; by simplify_eq/=.
  - destruct v as [| | | |l]; [by simplify_eq/= .. |].
    apply visit_ref in Hv as (c & rs & Hc & Hrs & -> & ->).
    apply visit_ref. exists c, rs. split_and!; [|  | done | done].
    { rewrite Hsame; [done | left]. }
    eapply Forall2_impl; [exact (Forall2_with_elem _ _ _ Hrs) |].
    intros x [j fp] [Hx Hin]. simpl in *. eapply IH; [exact Hx |].
    intros l' Hl'. apply Hsame. right.
    apply list_elem_of_join. exists fp. split; [done |].
    by apply (list_elem_of_fmap_2 snd _ (j, fp)).
Qed.

Lemma visit_insert f h v j fp o c :
  visit f h v = Some (j, fp) → o ∉ fp →
  visit f (<[o := c]> h) v = Some (j, fp).
Proof.
  intros Hv Ho. eapply visit_frame; [exact Hv |].
  intros l Hl. apply list_lookup_insert_ne. by intros ->.
Qed.

Lemma visit_app f h v j fp ext :
  visit f h v = Some (j, fp) → visit f (h ++ ext) v = Some (j, fp).
Proof.
  intros Hv. eapply visit_frame; [exact Hv |].
  intros l Hl. apply lookup_app_l. by eapply visit_in_store.
Qed.

Lemma reads_apart_collection n w j :
  reads_apart n (store w) (editedSegments (comp w)) j →
  collection w = Some j.
Proof.
  intros (f & fp & Hv & _). eapply to_json_complete, visit_stringify, Hv.
Qed.

(** ** Reading a segment *)

Lemma stringify_str f h v s : stringify f h v = Some (JStr s) → v = VStr s.
Proof.
  destruct f as [|f]; destruct v as [| | | |l];
    try (by intros [=]); try (by intros [= ->]).
  intros (c & js & _ & _ & Hj)%stringify_ref. by destruct c.
Qed.

Lemma stringify_atomic f h v j :
  stringify f h v = Some j → atomic j = true → visit O h v = Some (j, []).
Proof.
  destruct f as [|f]; destruct v as [| | | |l];
    try (by intros [=]); try (by intros [= <-]).
  intros (c & js & _ & _ & ->)%stringify_ref. by destruct c.
Qed.

Lemma stringify_truthy f h v j :
  stringify f h v = Some j → val_truthy v = truthy j.
Proof.
  destruct f as [|f]; destruct v as [| | | |l];
    try (by intros [=]); try (by intros [= <-]).
  intros (c & js & _ & _ & ->)%stringify_ref. by destruct c.
Qed.

Lemma assoc_zip {A B} (P : A → B → Prop) k (fields : list (string * A)) ys :
  Forall2 P (fields.*2) ys →
  match assoc k fields with
  | Some x => ∃ y, assoc k (zip (fields.*1) ys) = Some y ∧ P x y
  | None => assoc k (zip (fields.*1) ys) = None
  end.
Proof.
  revert ys. induction fields as [|[k' x] fields IH]; intros ys Hys.
  - by apply Forall2_nil_inv_l in Hys as ->.
  - apply Forall2_cons_inv_l in Hys as (y & ys' & Hxy & Hys & ->).
    specialize (IH ys' Hys). unfold assoc in *. simpl.
    destruct (bool_decide (k' = k)); simpl; [by exists y | done].
Qed.

Lemma id_is_reads f h s seg id :
  stringify f h s = Some seg → seg ≠ JNull →
  id_is h id s = Some (is_id id seg).
Proof.
  intros Hs Hnn.
  destruct f as [|f]; destruct s as [| b | q | t | o]; simplify_eq/=; try done.
  apply stringify_ref in Hs as (c & js & Hc & Hjs & ->).
  rewrite Hc. destruct c as [items | fields]; [done |]. simpl in *. f_equal.
  unfold is_id. simpl.
  pose proof (assoc_zip _ "id" fields js Hjs) as Ha.
  destruct (assoc "id" fields) as [x|].
  - destruct Ha as (y & -> & Hxy).
    destruct y as [| | | t | |];
      try (apply bool_decide_eq_false; intros [= ->]; by destruct f).
    apply stringify_str in Hxy as ->.
    apply bool_decide_ext. naive_solver.
  - rewrite Ha. by apply bool_decide_eq_false.
Qed.

Lemma find_segment_reads f h id : ∀ items segs n,
  Forall2 (λ s seg, stringify f h s = Some seg) items segs →
  Forall (λ seg, seg ≠ JNull) segs →
  find_segment h id items n =
    match index_of_id id segs with
    | Some i =>
        match items !! i with
        | Some s => Found (n + i) s
        | None => NotFound
        end
    | None => NotFound
    end.
Proof.
  intros items segs n Hall. revert n.
  induction Hall as [|s seg items segs Hs _ IH]; intros n Hnn; [done |].
  apply Forall_cons in Hnn as [Hseg Hnn]. simpl.
  rewrite (id_is_reads f h s seg id Hs Hseg).
  destruct (is_id id seg); simpl; [by rewrite Nat.add_0_r |].
  rewrite (IH (S n) Hnn).
  destruct (index_of_id id segs) as [i|]; simpl; [| done].
  destruct (items !! i); [| done]. f_equal. lia.
Qed.

Lemma index_of_id_lookup id : ∀ segs i,
  index_of_id id segs = Some i →
  ∃ fields, segs !! i = Some (JObj fields) ∧ is_id id (JObj fields) = true.
Proof.
  induction segs as [|seg segs IH]; intros i Hi; [done |]. simpl in Hi.
  destruct (is_id id seg) eqn:Hid.
  - simplify_eq. destruct seg; try done. by eexists.
  - apply fmap_Some in Hi as (i' & Hi' & ->). by apply IH.
Qed.

Lemma content_length_reads units f h s seg :
  stringify f h s = Some seg →
  content_length units h s = characters units seg.
Proof.
  intros Hs.
  destruct f as [|f]; destruct s as [| b | q | t | o]; simplify_eq/=; try done.
  apply stringify_ref in Hs as (c & js & Hc & Hjs & ->).
  rewrite Hc. destruct c as [items | fields]; [done |].
  unfold characters. simpl in *.
  pose proof (assoc_zip _ "content" fields js Hjs) as Ha.
  destruct (assoc "content" fields) as [x|]; [| by rewrite Ha].
  destruct Ha as (y & -> & Hxy).
  destruct f as [|f]; destruct x as [| | | |l]; simplify_eq/=; try done.
  apply stringify_ref in Hxy as (c & js' & -> & Hjs' & ->).
  destruct c as [items' | fields']; [| done]. simpl in *.
  by rewrite (Forall2_length _ _ _ Hjs').
Qed.

Lemma collection_array w segs :
  collection w = Some (JArr segs) →
  ∃ a f items,
    editedSegments (comp w) = VRef a
    ∧ store w !! a = Some (CArr items)
    ∧ Forall2 (λ s seg, stringify f (store w) s = Some seg) items segs.
Proof.
  unfold collection, to_json. intros Hc.
  destruct (length (store w)) as [|f];
    destruct (editedSegments (comp w)) as [| | | |a]; simplify_eq/=.
  apply stringify_ref in Hc as (c & js & Ha & Hjs & Hj).
  destruct c as [items | fields]; [| done]. simpl in *. simplify_eq.
  by exists a, f, items.
Qed.

(** X15. [totalCharacters], which walks the working array in the store,
    is the sum of the lengths of the contents of the segments of the
    working collection read as a document: of the code units of a content
    that is a string, of the items of one that is an array (the model
    leaves both sides open where a content is neither). *)
Theorem totalCharacters_is_sum (units : string → nat) (w : World)
    (segs : list json) :
  collection w = Some (JArr segs) →
  totalCharacters units w = sum_characters units segs.
Proof.
  intros (a & f & items & Ha & Hi & Hall)%collection_array.
  unfold totalCharacters, working_items, sum_characters. rewrite Ha, Hi. simpl.
  clear Hi. generalize (Some O). induction Hall as [|s seg items' segs' Hs _ IH];
    intros total; [done |].
  simpl. rewrite (content_length_reads units f _ s seg Hs). apply IH.
Qed.

Lemma totalCharacters_is_sum_witness :
  totalCharacters String.length mounted = Some 3%nat.
Proof.
  apply (totalCharacters_is_sum String.length mounted
           [segment_json "a" "x"; segment_json "b" "y"; segment_json "c" "z"]).
  vm_compute. reflexivity.
Defined.

(** ** Collections that share nothing *)

Lemma mjoin_delete_sublist {A} (xs : list (list A)) i :
  mjoin (delete i xs) `sublist_of` mjoin xs.
Proof.
  revert i. induction xs as [|x xs IH]; intros [|i]; simpl; try done.
  - by apply sublist_inserts_l.
  - by apply sublist_app.
Qed.

Lemma mjoin_insert_sublist {A} (xs : list (list A)) i x x' :
  xs !! i = Some x → x' `sublist_of` x →
  mjoin (<[i := x']> xs) `sublist_of` mjoin xs.
Proof.
  revert i. induction xs as [|y xs IH]; intros [|i] Hi Hx; simplify_eq/=.
  - by apply sublist_app.
  - apply sublist_app; [done | by eapply IH].
Qed.

Lemma mjoin_lookup_apart {A} (xs : list (list A)) i k x y l :
  NoDup (mjoin xs) → xs !! i = Some x → xs !! k = Some y → i ≠ k →
  l ∈ x → l ∉ y.
Proof.
  revert i k. induction xs as [|z xs IH]; intros i k Hnd Hi Hk Hik Hx Hy;
    [done |].
  simpl in Hnd. apply NoDup_app in Hnd as (_ & Hdis & Hnd).
  destruct i as [|i], k as [|k]; simplify_eq/=.
  - eapply Hdis; [exact Hx |]. apply list_elem_of_join. exists y.
    split; [done | by eapply list_elem_of_lookup_2].
  - eapply Hdis; [exact Hy |]. apply list_elem_of_join. exists x.
    split; [done | by eapply list_elem_of_lookup_2].
  - eapply (IH i k); eauto.
Qed.

Lemma reads_apart_array n h a segs :
  reads_apart n h (VRef a) (JArr segs) →
  ∃ f items rs,
    h !! a = Some (CArr items)
    ∧ Forall2 (λ x r, visit f h x = Some r) items rs
    ∧ segs = rs.*1
    ∧ NoDup (a :: mjoin (rs.*2))
    ∧ ∀ l, l ∈ a :: mjoin (rs.*2) → (n ≤ l)%nat.
Proof.
  intros (f & fp & Hv & Hnd & Hn). destruct f as [|f]; [done |].
  apply visit_ref in Hv as (c & rs & Hc & Hrs & Hj & ->).
  destruct c as [items | fields]; [| done]. simpl in *. simplify_eq.
  by exists f, items, rs.
Qed.

Lemma reads_apart_array_intro n h a f items rs fp :
  h !! a = Some (CArr items) →
  Forall2 (λ x r, visit f h x = Some r) items rs →
  mjoin (rs.*2) `sublist_of` fp →
  NoDup (a :: fp) →
  (∀ l, l ∈ a :: fp → (n ≤ l)%nat) →
  reads_apart n h (VRef a) (JArr (rs.*1)).
Proof.
  intros Ha Hrs Hsub Hnd Hn. exists (S f), (a :: mjoin (rs.*2)). split_and!.
  - apply visit_ref. by exists (CArr items), rs.
  - eapply sublist_NoDup; [exact Hnd | by apply sublist_skip].
  - intros l Hl. apply Hn. eapply elem_of_sublist; [exact Hl |].
    by apply sublist_skip.
Qed.

Lemma visit_all_stringify f h items (rs : list (json * list nat)) :
  Forall2 (λ x r, visit f h x = Some r) items rs →
  Forall2 (λ s seg, stringify f h s = Some seg) items (rs.*1).
Proof.
  intros Hrs. apply Forall2_fmap_r. eapply Forall2_impl; [exact Hrs |].
  intros x [j fp] Hx. by eapply visit_stringify.
Qed.

(** A write to a cell that the items do not visit. *)
Lemma visit_all_insert f h items (rs : list (json * list nat)) o c :
  Forall2 (λ x r, visit f h x = Some r) items rs →
  o ∉ mjoin (rs.*2) →
  Forall2 (λ x r, visit f (<[o := c]> h) x = Some r) items rs.
Proof.
  intros Hrs Ho.
  eapply Forall2_impl; [exact (Forall2_with_elem _ _ _ Hrs) |].
  intros x [j fp] [Hx Hin]. simpl in *. apply visit_insert; [done |].
  intros Hfp. apply Ho, list_elem_of_join. exists fp. split; [done |].
  by apply (list_elem_of_fmap_2 snd _ (j, fp)).
Qed.

(** The working collection of the example is a copy that shares nothing. *)
Lemma mounted_reads_apart :
  reads_apart 6 (store mounted) (VRef 9)
    (JArr [segment_json "a" "x"; segment_json "b" "y"; segment_json "c" "z"]).
Proof.
  exists 2%nat, [9; 6; 7; 8]%nat. split_and!.
  - vm_compute. reflexivity.
  - by apply (bool_decide_unpack _).
  - intros l Hl. repeat (apply elem_of_cons in Hl as [-> | Hl]; [lia |]).
    by apply elem_of_nil in Hl.
Qed.

(** [deleteSegment] in a collection that shares nothing. *)
Lemma deleteSegment_apart (n : nat) (w : World) (a : nat)
    (segs : list json) (id : string) :
  editedSegments (comp w) = VRef a →
  reads_apart n (store w) (VRef a) (JArr segs) →
  Forall (λ seg, seg ≠ JNull) segs →
  match index_of_id id segs with
  | Some i =>
      reads_apart n (store (deleteSegment id w)) (VRef a)
        (JArr (delete i segs))
      ∧ emitted (deleteSegment id w) = emitted w ++ [segments_update (VRef a)]
      ∧ comp (deleteSegment id w) = comp w
      ∧ take n (store (deleteSegment id w)) = take n (store w)
  | None => deleteSegment id w = w
  end.
Proof.
  intros Ha Hr Hnn.
  destruct (reads_apart_array _ _ _ _ Hr)
    as (f & items & rs & Hi & Hrs & -> & Hnd & Hn).
  unfold deleteSegment, working_items. rewrite Ha, Hi.
  rewrite (find_segment_reads f _ id items (rs.*1) O
             (visit_all_stringify _ _ _ _ Hrs) Hnn).
  destruct (index_of_id id (rs.*1)) as [i|] eqn:Hidx; [| done].
  destruct (index_of_id_lookup _ _ _ Hidx) as (flds & Hseg & _).
  destruct (lookup_lt_is_Some_2 items i) as [s Hs].
  { rewrite (Forall2_length _ _ _ Hrs), <-(length_fmap fst).
    by eapply lookup_lt_Some. }
  rewrite Hs. simpl. rewrite Ha. split_and!; [| done | done |].
  - rewrite <-list_fmap_delete.
    apply (reads_apart_array_intro n _ a f (delete i items) _
             (mjoin (rs.*2))); [| | | done | done].
    + apply list_lookup_insert_eq. by eapply lookup_lt_Some.
    + apply Forall2_delete, visit_all_insert; [done |].
      by apply NoDup_cons in Hnd as [? _].
    + rewrite list_fmap_delete. apply mjoin_delete_sublist.
  - apply take_insert_ge, Hn. left.
Qed.

Lemma alter_as_insert {A} (g : A → A) (l : list A) i x :
  l !! i = Some x → alter g i l = <[i := g x]> l.
Proof.
  revert i. induction l as [|y l IH]; intros [|i] Hi; simplify_eq/=; [done |].
  f_equal. by apply IH.
Qed.

Lemma mjoin_lookup_NoDup {A} (xs : list (list A)) i x :
  NoDup (mjoin xs) → xs !! i = Some x → NoDup x.
Proof.
  revert i. induction xs as [|y xs IH]; intros i Hnd Hi; [done |].
  simpl in Hnd. apply NoDup_app in Hnd as (Hy & _ & Hnd).
  destruct i as [|i]; simplify_eq/=; [done | by eapply IH].
Qed.

Lemma mjoin_lookup_elem_of {A} (xs : list (list A)) i x l :
  xs !! i = Some x → l ∈ x → l ∈ mjoin xs.
Proof.
  intros Hi Hl. apply list_elem_of_join. exists x.
  split; [done | by eapply list_elem_of_lookup_2].
Qed.

(** [o.k = text] on an object whose values are read. *)
Lemma put_field_visit f h k text (fields : list (string * val))
    (crs : list (json * list nat)) :
  Forall2 (λ x r, visit f h x = Some r) (fields.*2) crs →
  ∃ crs',
    Forall2 (λ x r, visit f h x = Some r)
      ((put_field k (VStr text) fields).*2) crs'
    ∧ zip ((put_field k (VStr text) fields).*1) (crs'.*1)
      = put_field k (JStr text) (zip (fields.*1) (crs.*1))
    ∧ mjoin (crs'.*2) `sublist_of` mjoin (crs.*2).
Proof.
  revert crs. induction fields as [|[k' x] fields IH]; intros crs Hcrs.
  - apply Forall2_nil_inv_l in Hcrs as ->. exists [(JStr text, [])].
    split_and!; [| done | done]. constructor; [by destruct f | constructor].
  - apply Forall2_cons_inv_l in Hcrs as ([j fp] & crs0 & Hx & Hcrs & ->).
    simpl. destruct (decide (k' = k)) as [-> | Hne].
    + exists ((JStr text, []) :: crs0). simpl.
      split_and!; [| done | by apply sublist_inserts_l].
      constructor; [by destruct f | done].
    + destruct (IH crs0 Hcrs) as (crs' & H1 & H2 & H3).
      exists ((j, fp) :: crs'). simpl.
      split_and!; [by constructor | f_equal; exact H2 | by apply sublist_app].
Qed.

(** [updateSegmentContent] in a collection that shares nothing. *)
Lemma updateSegmentContent_apart (n : nat) (w : World) (a : nat)
    (segs : list json) (id text : string) :
  editedSegments (comp w) = VRef a →
  reads_apart n (store w) (VRef a) (JArr segs) →
  Forall (λ seg, seg ≠ JNull) segs →
  match index_of_id id segs with
  | Some i =>
      reads_apart n (store (updateSegmentContent id text w)) (VRef a)
        (JArr (alter (with_content text) i segs))
      ∧ emitted (updateSegmentContent id text w) = emitted w
      ∧ comp (updateSegmentContent id text w) = comp w
      ∧ take n (store (updateSegmentContent id text w)) = take n (store w)
  | None => updateSegmentContent id text w = w
  end.
Proof.
  intros Ha Hr Hnn.
  destruct (reads_apart_array _ _ _ _ Hr)
    as (f & items & rs & Hi & Hrs & -> & Hnd & Hn).
  unfold updateSegmentContent, working_items. rewrite Ha, Hi.
  rewrite (find_segment_reads f _ id items (rs.*1) O
             (visit_all_stringify _ _ _ _ Hrs) Hnn).
  destruct (index_of_id id (rs.*1)) as [i|] eqn:Hidx; [| done].
  destruct (index_of_id_lookup _ _ _ Hidx) as (flds & Hseg & _).
  rewrite list_lookup_fmap in Hseg.
  destruct (rs !! i) as [[seg fpi]|] eqn:Hri; simplify_eq/=.
  destruct (Forall2_lookup_r _ _ _ _ _ Hrs Hri) as (s & Hs & Hv).
  rewrite Hs.
  destruct f as [|f]; destruct s as [| | | |o]; simplify_eq/=.
  apply visit_ref in Hv as (c & crs & Ho & Hcrs & Hj & ->).
  destruct c as [? | fields]; [done |]. simpl in Hj, Hcrs. simplify_eq.
  rewrite Ho. simpl.
  apply NoDup_cons in Hnd as [Ha_out Hnd].
  assert (rs.*2 !! i = Some (o :: mjoin (crs.*2))) as Hfpi
    by (by rewrite list_lookup_fmap, Hri).
  assert (o ∈ mjoin (rs.*2)) as Ho_in
    by (eapply mjoin_lookup_elem_of; [exact Hfpi | left]).
  pose proof (mjoin_lookup_NoDup _ _ _ Hnd Hfpi) as [Ho_out _]%NoDup_cons.
  destruct (put_field_visit f (store w) "content" text fields crs Hcrs)
    as (crs' & Hc1 & Hc2 & Hc3).
  split_and!; [| done | done |].
  - rewrite (alter_as_insert _ _ _ (JObj (zip (fields.*1) (crs.*1))))
      by (by rewrite list_lookup_fmap, Hri).
    simpl.
    change (<[i := ?j]> (rs.*1))
      with (<[i := (j, o :: mjoin (crs'.*2)).1]> (rs.*1)).
    rewrite <-list_fmap_insert.
    apply (reads_apart_array_intro n _ a (S f) items _ (mjoin (rs.*2))).
    + rewrite list_lookup_insert_ne; [done |]. by intros ->.
    + apply Forall2_same_length_lookup. split.
      { rewrite length_insert. by eapply Forall2_length. }
      intros k x y Hx Hy.
      destruct (decide (k = i)) as [-> | Hki].
      * rewrite list_lookup_insert_eq in Hy by (by eapply lookup_lt_Some).
        simplify_eq. apply visit_ref.
        exists (CObj (put_field "content" (VStr text) fields)), crs'.
        split_and!; [| | exact (eq_sym (f_equal JObj Hc2)) | done].
        -- apply list_lookup_insert_eq. by eapply lookup_lt_Some.
        -- apply visit_all_insert; [done |].
           intros Hin. apply Ho_out. by eapply elem_of_sublist.
      * rewrite list_lookup_insert_ne in Hy by done.
        destruct y as [j fp].
        apply visit_insert;
          [exact (Forall2_lookup_lr _ _ _ _ _ _ Hrs Hx Hy) |].
        eapply (mjoin_lookup_apart (rs.*2) i k);
          [done | exact Hfpi | by rewrite list_lookup_fmap, Hy | done | left].
    + rewrite list_fmap_insert. simpl.
      eapply mjoin_insert_sublist; [exact Hfpi | by apply sublist_skip].
    + by apply NoDup_cons.
    + done.
  - apply take_insert_ge, Hn. by right.
Qed.

Lemma working_fileId_reads f h items segs :
  Forall2 (λ s seg, stringify f h s = Some seg) items segs →
  atomic (fileId_of_first segs) = true →
  visit O h (working_fileId h items) = Some (fileId_of_first segs, []).
Proof.
  intros [|s seg items' segs' Hs _]; [done |].
  destruct f as [|f]; destruct s as [| | | |o]; simplify_eq/=; try done.
  apply stringify_ref in Hs as (c & js & Hc & Hjs & ->).
  rewrite Hc. destruct c as [? | fields]; [done |]. simpl in *.
  pose proof (assoc_zip _ "fileId" fields js Hjs) as Ha.
  destruct (assoc "fileId" fields) as [x|]; [| by rewrite Ha].
  destruct Ha as (y & -> & Hxy). simpl.
  rewrite (stringify_truthy _ _ _ _ Hxy).
  destruct (truthy y); [| done].
  intros Hat. by eapply stringify_atomic.
Qed.

Lemma visit_all_in_store f h items (rs : list (json * list nat)) l :
  Forall2 (λ x r, visit f h x = Some r) items rs →
  l ∈ mjoin (rs.*2) → (l < length h)%nat.
Proof.
  intros Hrs (fp & Hl & Hfp)%list_elem_of_join.
  apply list_elem_of_fmap in Hfp as ([j fp'] & -> & Hr).
  apply list_elem_of_lookup in Hr as [k Hk].
  destruct (Forall2_lookup_r _ _ _ _ _ Hrs Hk) as (x & _ & Hx).
  by eapply visit_in_store.
Qed.

Lemma lookup_new_cells h (c0 c1 c2 : cell) :
  (h ++ [c0; c1; c2]) !! length h = Some c0
  ∧ (h ++ [c0; c1; c2]) !! S (length h) = Some c1
  ∧ (h ++ [c0; c1; c2]) !! S (S (length h)) = Some c2.
Proof.
  split_and!; (rewrite lookup_app_r by lia).
  - by rewrite Nat.sub_diag.
  - by replace (S (length h) - length h)%nat with 1%nat by lia.
  - by replace (S (S (length h)) - length h)%nat with 2%nat by lia.
Qed.

(** [addNewSegment] in a collection that shares nothing. *)
Lemma addNewSegment_apart (n : nat) (w : World) (a : nat)
    (segs : list json) :
  editedSegments (comp w) = VRef a →
  reads_apart n (store w) (VRef a) (JArr segs) →
  atomic (fileId_of_first segs) = true →
  reads_apart n (store (addNewSegment w)) (VRef a)
    (JArr (segs ++ [new_segment_json (clock w) (fileId_of_first segs)
                      (length segs)]))
  ∧ editingSegmentId (comp (addNewSegment w)) = new_segment_id (clock w)
  ∧ editedSegments (comp (addNewSegment w)) = VRef a
  ∧ emitted (addNewSegment w) = emitted w
  ∧ take n (store (addNewSegment w)) = take n (store w).
Proof.
  intros Ha Hr Hat.
  destruct (reads_apart_array _ _ _ _ Hr)
    as (f & items & rs & Hi & Hrs & -> & Hnd & Hn).
  pose proof (lookup_lt_Some _ _ _ Hi) as Ha_lt.
  pose proof (working_fileId_reads _ _ _ _
                (visit_all_stringify _ _ _ _ Hrs) Hat) as Hfid.
  unfold addNewSegment, working_items. rewrite Ha, Hi. simpl.
  set (h := store w) in *. set (k := length h) in *.
  set (c2 := new_segment h items (clock w) (S k)).
  set (h1 := h ++ [CArr []; new_metadata k; c2]).
  destruct (lookup_new_cells h (CArr []) (new_metadata k) c2)
    as (Hk0 & Hk1 & Hk2). fold k h1 in Hk0, Hk1, Hk2.
  apply NoDup_cons in Hnd as [Ha_out Hnd].
  split_and!; [| done | done | done |].
  - set (new := (new_segment_json (clock w) (fileId_of_first (rs.*1))
                   (length (rs.*1)), [S (S k); S k; k])).
    change (rs.*1 ++ [?j]) with (rs.*1 ++ [new].*1).
    rewrite <-fmap_app.
    apply (reads_apart_array_intro n _ a (S (S (S f)))
             (items ++ [VRef (S (S k))]) _ (mjoin ((rs ++ [new]).*2)));
      [| | done | |].
    + apply list_lookup_insert_eq. unfold h1. rewrite length_app. lia.
    + apply visit_all_insert.
      2:{ rewrite fmap_app, join_app. simpl. intros Hin.
          apply elem_of_app in Hin as [Hin | Hin]; [done |].
          repeat (apply elem_of_cons in Hin as [Hin | Hin]; [lia |]).
          by apply elem_of_nil in Hin. }
      apply Forall2_app.
      * eapply Forall2_impl; [exact Hrs |]. intros x [j fp] Hx.
        apply visit_app. eapply visit_mono; [exact Hx | lia].
      * constructor; [| constructor]. apply visit_ref.
        exists c2, [(JStr (new_segment_id (clock w)), []);
                    (fileId_of_first (rs.*1), []);
                    (JStr "新的分段内容...", []);
                    (JNum (inject_Z (Z.of_nat (length items))), []);
                    (JObj [("section", JStr "新增分段"); ("keywords", JArr []);
                           ("confidence", JNum (9 # 10))], [S k; k])].
        split_and!; [done | | |].
        -- repeat constructor.
           ++ apply visit_app. eapply visit_mono; [exact Hfid | lia].
           ++ apply visit_ref.
              exists (new_metadata k),
                [(JStr "新增分段", []); (JArr [], [k]); (JNum (9 # 10), [])].
              split_and!; [done | | done | done].
              repeat constructor. apply visit_ref. by exists (CArr []), [].
        -- unfold new, new_segment_json. simpl.
           by rewrite length_fmap, (Forall2_length _ _ _ Hrs).
        -- done.
    + apply NoDup_cons. rewrite fmap_app, join_app. simpl. split.
      * intros Hin. apply elem_of_app in Hin as [Hin | Hin]; [done |].
        repeat (apply elem_of_cons in Hin as [Hin | Hin]; [lia |]).
        by apply elem_of_nil in Hin.
      * apply NoDup_app. split_and!; [done | |].
        -- intros l Hl Hin.
           pose proof (visit_all_in_store _ _ _ _ _ Hrs Hl).
           repeat (apply elem_of_cons in Hin as [Hin | Hin]; [lia |]).
           by apply elem_of_nil in Hin.
        -- repeat (apply NoDup_cons; split);
             [.. | apply NoDup_nil_2]; intros Hin;
             repeat (apply elem_of_cons in Hin as [Hin | Hin]; [lia |]);
             by apply elem_of_nil in Hin.
    + intros l Hl. rewrite fmap_app, join_app in Hl. simpl in Hl.
      assert (n ≤ a)%nat by (apply Hn; left).
      apply elem_of_cons in Hl as [-> | Hl]; [done |].
      apply elem_of_app in Hl as [Hl | Hl]; [apply Hn; by right |].
      repeat (apply elem_of_cons in Hl as [Hl | Hl]; [lia |]).
      by apply elem_of_nil in Hl.
  - assert (n ≤ a)%nat by (apply Hn; left).
    rewrite take_insert_ge by done. apply take_app_le. lia.
Qed.

(** X16. [deleteSegment] on a working collection whose objects share
    nothing and whose segments are not [null]: the first segment with that
    id goes from the collection, in place, and the update event carries
    the working array itself; no ref of the component changes and no cell
    before the collection's is written. Without a segment of that id
    nothing happens at all, and no event is emitted. *)
Theorem deleteSegment_removes_first_match (n : nat) (w : World) (a : nat)
    (segs : list json) (id : string) :
  editedSegments (comp w) = VRef a →
  reads_apart n (store w) (VRef a) (JArr segs) →
  Forall (λ seg, seg ≠ JNull) segs →
  match index_of_id id segs with
  | Some i =>
      collection (deleteSegment id w) = Some (JArr (delete i segs))
      ∧ emitted (deleteSegment id w) = emitted w ++ [segments_update (VRef a)]
      ∧ comp (deleteSegment id w) = comp w
      ∧ take n (store (deleteSegment id w)) = take n (store w)
  | None => deleteSegment id w = w
  end.
Proof.
  intros Ha Hr Hnn.
  pose proof (deleteSegment_apart n w a segs id Ha Hr Hnn) as H.
  destruct (index_of_id id segs) as [i|]; [| done].
  destruct H as (Hr' & He & Hc & Ht). split_and!; try done.
  apply (reads_apart_collection n). by rewrite Hc, Ha.
Qed.

Lemma deleteSegment_removes_first_match_witness :
  collection (deleteSegment "b" mounted)
  = Some (JArr [segment_json "a" "x"; segment_json "c" "z"])
  ∧ emitted (deleteSegment "b" mounted)
    = emitted mounted ++ [segments_update (editedSegments (comp mounted))].
Proof.
  pose proof (deleteSegment_removes_first_match 6 mounted 9 _ "b"
                eq_refl mounted_reads_apart) as H.
  destruct H as (Hc & He & _).
  { repeat constructor; done. }
  split; [exact Hc | exact He].
Defined.

(** X17. [updateSegmentContent] on a working collection whose objects
    share nothing and whose segments are not [null]: the first segment
    with that id gets the content, in place (an existing [content] keeps
    its place among the keys), every other segment reads as before, and no
    event is emitted; no ref of the component changes and no cell before
    the collection's is written. Without a segment of that id nothing
    happens at all. *)
Theorem updateSegmentContent_sets_first_match (n : nat) (w : World) (a : nat)
    (segs : list json) (id text : string) :
  editedSegments (comp w) = VRef a →
  reads_apart n (store w) (VRef a) (JArr segs) →
  Forall (λ seg, seg ≠ JNull) segs →
  match index_of_id id segs with
  | Some i =>
      collection (updateSegmentContent id text w)
      = Some (JArr (alter (with_content text) i segs))
      ∧ emitted (updateSegmentContent id text w) = emitted w
      ∧ comp (updateSegmentContent id text w) = comp w
      ∧ take n (store (updateSegmentContent id text w)) = take n (store w)
  | None => updateSegmentContent id text w = w
  end.
Proof.
  intros Ha Hr Hnn.
  pose proof (updateSegmentContent_apart n w a segs id text Ha Hr Hnn) as H.
  destruct (index_of_id id segs) as [i|]; [| done].
  destruct H as (Hr' & He & Hc & Ht). split_and!; try done.
  apply (reads_apart_collection n). by rewrite Hc, Ha.
Qed.

Lemma updateSegmentContent_sets_first_match_witness :
  collection (updateSegmentContent "b" "new text" mounted)
  = Some (JArr [segment_json "a" "x"; segment_json "b" "new text";
                segment_json "c" "z"])
  ∧ emitted (updateSegmentContent "b" "new text" mounted) = emitted mounted.
Proof.
  pose proof (updateSegmentContent_sets_first_match 6 mounted 9 _ "b"
                "new text" eq_refl mounted_reads_apart) as H.
  destruct H as (Hc & He & _).
  { repeat constructor; done. }
  split; [exact Hc | exact He].
Defined.

(** X18. [addNewSegment] on a working collection whose objects share
    nothing and whose first segment has no array or object as file id:
    one segment is appended, in place, with the id made from the clock,
    the file id of the first segment (or the empty one), the placeholder
    content, the old length as chunk index and metadata of its own; its id
    becomes the one in edit mode; no event is emitted (the parent hears of
    the new segment only with a later update); no cell before the
    collection's is written. *)
Theorem addNewSegment_appends (n : nat) (w : World) (a : nat)
    (segs : list json) :
  editedSegments (comp w) = VRef a →
  reads_apart n (store w) (VRef a) (JArr segs) →
  atomic (fileId_of_first segs) = true →
  collection (addNewSegment w)
  = Some (JArr (segs ++ [new_segment_json (clock w) (fileId_of_first segs)
                           (length segs)]))
  ∧ editingSegmentId (comp (addNewSegment w)) = new_segment_id (clock w)
  ∧ emitted (addNewSegment w) = emitted w
  ∧ take n (store (addNewSegment w)) = take n (store w).
Proof.
  intros Ha Hr Hat.
  destruct (addNewSegment_apart n w a segs Ha Hr Hat)
    as (Hr' & Hid & Hes & He & Ht).
  split_and!; try done.
  apply (reads_apart_collection n). by rewrite Hes.
Qed.

Lemma addNewSegment_appends_witness :
  collection (addNewSegment mounted)
  = Some (JArr [segment_json "a" "x"; segment_json "b" "y";
                segment_json "c" "z";
                new_segment_json 0 (JStr "file-1") 3])
  ∧ editingSegmentId (comp (addNewSegment mounted)) = new_segment_id 0.
Proof.
  destruct (addNewSegment_appends 6 mounted 9 _ eq_refl mounted_reads_apart
              eq_refl) as (Hc & He & _).
  split; [exact Hc | exact He].
Defined.

(** ** The copy of the watcher *)

Lemma alloc_items_apart items :
  Forall (λ j, ∀ h, ∃ ext v f fp,
            parse j h = (h ++ ext, v)
            ∧ visit f (h ++ ext) v = Some (j, fp)
            ∧ NoDup fp ∧ ∀ l, l ∈ fp → (length h ≤ l)%nat) items →
  ∀ h, ∃ ext vs f rs,
    alloc_list parse items h = (h ++ ext, vs)
    ∧ Forall2 (λ x r, visit f (h ++ ext) x = Some r) vs rs
    ∧ rs.*1 = items
    ∧ NoDup (mjoin (rs.*2))
    ∧ ∀ l, l ∈ mjoin (rs.*2) → (length h ≤ l)%nat.
Proof.
  induction 1 as [|j items Hj _ IH]; intros h.
  - exists [], [], O, []. simpl. rewrite (right_id_L [] (++)).
    split_and!; [done | constructor | done | constructor |].
    intros l Hl. by apply elem_of_nil in Hl.
  - destruct (Hj h) as (e1 & v & f1 & fp1 & Hp & Hv & Hnd & Hge).
    destruct (IH (h ++ e1)) as (e2 & vs & f2 & rs & Ha & Hrs & Hit & Hnds & Hges).
    exists (e1 ++ e2), (v :: vs), (f1 `max` f2)%nat, ((j, fp1) :: rs).
    simpl. rewrite Hp, Ha. rewrite length_app in Hges.
    split_and!.
    + by rewrite (assoc_L (++)).
    + rewrite (assoc_L (++)). constructor.
      * apply visit_app. eapply visit_mono; [exact Hv | lia].
      * eapply Forall2_impl; [exact Hrs |]. intros x r Hx.
        eapply visit_mono; [exact Hx | lia].
    + f_equal. exact Hit.
    + apply NoDup_app. split_and!; [done | | done].
      intros l Hl Hin. apply Hges in Hin.
      pose proof (visit_in_store _ _ _ _ _ _ Hv Hl) as Hlt.
      rewrite length_app in Hlt. lia.
    + intros l [Hl | Hl]%elem_of_app; [by apply Hge |].
      apply Hges in Hl. lia.
Qed.

Lemma alloc_fields_apart (fields : list (string * json)) :
  Forall (λ kv, ∀ h, ∃ ext v f fp,
            parse kv.2 h = (h ++ ext, v)
            ∧ visit f (h ++ ext) v = Some (kv.2, fp)
            ∧ NoDup fp ∧ ∀ l, l ∈ fp → (length h ≤ l)%nat) fields →
  ∀ h, ∃ ext fs f rs,
    alloc_list (λ kv h, let '(h1, v) := parse kv.2 h in (h1, (kv.1, v)))
      fields h = (h ++ ext, fs)
    ∧ Forall2 (λ x r, visit f (h ++ ext) x = Some r) (fs.*2) rs
    ∧ zip (fs.*1) (rs.*1) = fields
    ∧ NoDup (mjoin (rs.*2))
    ∧ ∀ l, l ∈ mjoin (rs.*2) → (length h ≤ l)%nat.
Proof.
  induction 1 as [|[k j] fields Hj _ IH]; intros h.
  - exists [], [], O, []. simpl. rewrite (right_id_L [] (++)).
    split_and!; [done | constructor | done | constructor |].
    intros l Hl. by apply elem_of_nil in Hl.
  - destruct (Hj h) as (e1 & v & f1 & fp1 & Hp & Hv & Hnd & Hge).
    destruct (IH (h ++ e1)) as (e2 & fs & f2 & rs & Ha & Hrs & Hit & Hnds & Hges).
    exists (e1 ++ e2), ((k, v) :: fs), (f1 `max` f2)%nat, ((j, fp1) :: rs).
    simpl in *. rewrite Hp, Ha. rewrite length_app in Hges.
    split_and!.
    + by rewrite (assoc_L (++)).
    + rewrite (assoc_L (++)). constructor.
      * apply visit_app. eapply visit_mono; [exact Hv | lia].
      * eapply Forall2_impl; [exact Hrs |]. intros x r Hx.
        eapply visit_mono; [exact Hx | lia].
    + f_equal. exact Hit.
    + apply NoDup_app. split_and!; [done | | done].
      intros l Hl Hin. apply Hges in Hin.
      pose proof (visit_in_store _ _ _ _ _ _ Hv Hl) as Hlt.
      rewrite length_app in Hlt. lia.
    + intros l [Hl | Hl]%elem_of_app; [by apply Hge |].
      apply Hges in Hl. lia.
Qed.

(** [JSON.parse] builds a value that shares nothing, in new cells. *)
Lemma parse_apart j : ∀ h, ∃ ext v f fp,
  parse j h = (h ++ ext, v)
  ∧ visit f (h ++ ext) v = Some (j, fp)
  ∧ NoDup fp ∧ ∀ l, l ∈ fp → (length h ≤ l)%nat.
Proof.
  induction j as [| b | q | s | items IH | fields IH] using json_tree_ind;
    intros h.
  1-4: eexists [], _, O, []; simpl; rewrite (right_id_L [] (++));
       (split_and!; [reflexivity | reflexivity | constructor |]);
       intros l Hl; by apply elem_of_nil in Hl.
  - destruct (alloc_items_apart items IH h)
      as (ext & vs & f & rs & Ha & Hrs & Hit & Hnd & Hge).
    exists (ext ++ [CArr vs]), (VRef (length (h ++ ext))), (S f),
      (length (h ++ ext) :: mjoin (rs.*2)).
    simpl parse. rewrite Ha. rewrite (assoc_L (++)). split_and!.
    + done.
    + apply visit_ref. exists (CArr vs), rs. split_and!.
      * by apply list_lookup_middle.
      * eapply Forall2_impl; [exact Hrs |]. intros x [j fp] Hx.
        by apply visit_app.
      * simpl. f_equal. by symmetry.
      * done.
    + apply NoDup_cons. split; [| done]. intros Hin.
      pose proof (visit_all_in_store _ _ _ _ _ Hrs Hin). lia.
    + intros l [-> | Hl]%elem_of_cons; [rewrite length_app; lia |].
      by apply Hge.
  - destruct (alloc_fields_apart fields IH h)
      as (ext & fs & f & rs & Ha & Hrs & Hit & Hnd & Hge).
    exists (ext ++ [CObj fs]), (VRef (length (h ++ ext))), (S f),
      (length (h ++ ext) :: mjoin (rs.*2)).
    simpl parse. rewrite Ha. rewrite (assoc_L (++)). split_and!.
    + done.
    + apply visit_ref. exists (CObj fs), rs. split_and!.
      * by apply list_lookup_middle.
      * eapply Forall2_impl; [exact Hrs |]. intros x [j fp] Hx.
        by apply visit_app.
      * simpl. f_equal. by symmetry.
      * done.
    + apply NoDup_cons. split; [| done]. intros Hin.
      pose proof (visit_all_in_store _ _ _ _ _ Hrs Hin). lia.
    + intros l [-> | Hl]%elem_of_cons; [rewrite length_app; lia |].
      by apply Hge.
Qed.

Lemma change_segments_apart w new j fuel :
  new ≠ segments (comp w) →
  stringify fuel (store w) new = Some j →
  reads_apart (length (store w)) (store (change_segments new w))
    (editedSegments (comp (change_segments new w))) j
  ∧ take (length (store w)) (store (change_segments new w)) = store w.
Proof.
  intros Hnew Hj%to_json_complete. unfold change_segments, watch_segments.
  rewrite decide_False by done. simpl. rewrite Hj.
  destruct (parse_apart j (store w)) as (ext & v & f & fp & -> & Hv & Hnd & Hge).
  simpl. split; [by exists f, fp | by rewrite take_app_length].
Qed.

(** X19. When the parent passes another value as [segments], the working
    collection becomes a copy in which no object or array occurs twice
    and which lies wholly in cells that did not exist before: the
    situation in which the editing operations above work on one segment
    at a time. *)
Theorem watcher_copy_shares_nothing (w : World) (new : val) (j : json)
    (fuel : nat) :
  new ≠ segments (comp w) →
  stringify fuel (store w) new = Some j →
  reads_apart (length (store w)) (store (change_segments new w))
    (editedSegments (comp (change_segments new w))) j.
Proof. intros Hnew Hj. by apply (change_segments_apart w new j fuel). Qed.

Lemma watcher_copy_shares_nothing_witness :
  reads_apart 10 (store (change_segments (VRef 4) mounted))
    (editedSegments (comp (change_segments (VRef 4) mounted)))
    (JArr [segment_json "a" "x"; segment_json "c" "z"]).
Proof.
  apply (watcher_copy_shares_nothing mounted (VRef 4) _ 2); [done |].
  vm_compute. reflexivity.
Defined.

(** ** Edits stay in the copy *)

Lemma stringify_visit f : ∀ h v j,
  stringify f h v = Some j → ∃ fp, visit f h v = Some (j, fp).
Proof.
  induction f as [|f IH]; intros h v j Hj.
  - destruct v; simplify_eq/=; by eexists.
  - destruct v as [| | | |l]; [simplify_eq/=; by eexists .. |].
    apply stringify_ref in Hj as (c & js & Hc & Hjs & ->).
    assert (∃ rs, Forall2 (λ x r, visit f h x = Some r) (cell_values c) rs
                  ∧ rs.*1 = js) as (rs & Hrs & <-).
    { induction Hjs as [|x y l' k Hxy _ IHl]; [by exists [] |].
      destruct (IH _ _ _ Hxy) as [fp Hfp].
      destruct IHl as (rs & Hrs & <-).
      exists ((y, fp) :: rs). split; [by constructor | done]. }
    eexists. apply visit_ref. by exists c, rs.
Qed.

Lemma stringify_app f h v j ext :
  stringify f h v = Some j → stringify f (h ++ ext) v = Some j.
Proof.
  intros [fp Hv]%stringify_visit.
  eapply visit_stringify, visit_app, Hv.
Qed.

Lemma assoc_put_field_ne {V} k k' (v : V) fields :
  k ≠ k' → assoc k' (put_field k v fields) = assoc k' fields.
Proof.
  intros Hne. unfold assoc.
  induction fields as [|[k0 v0] fields IH]; simpl.
  - by rewrite bool_decide_false.
  - destruct (decide (k0 = k)) as [-> |]; simpl.
    + by rewrite !bool_decide_false.
    + destruct (bool_decide (k0 = k')); [done | apply IH].
Qed.

Lemma workable_with_content text seg :
  workable seg → workable (with_content text seg).
Proof.
  destruct seg as [| | | | |fields]; try done. intros [_ Hf].
  split; [done |]. intros v. simpl. rewrite assoc_put_field_ne by done.
  apply Hf.
Qed.

Lemma workable_new now fid m :
  atomic fid = true → workable (new_segment_json now fid m).
Proof.
  intros Hat. split; [done |]. intros v Hv.
  unfold new_segment_json, get_field, assoc in Hv. simpl in Hv. by simplify_eq.
Qed.

Lemma fileId_of_first_atomic segs :
  Forall workable segs → atomic (fileId_of_first segs) = true.
Proof.
  intros Hall. destruct segs as [|[| | | | |fields] segs]; try done.
  apply Forall_cons in Hall as [[_ Hf] _]. simpl in *.
  destruct (assoc "fileId" fields) as [v|]; simpl; [| done].
  destruct (truthy v); [by apply Hf | done].
Qed.

Lemma edit_invariant n a e w segs :
  editedSegments (comp w) = VRef a →
  reads_apart n (store w) (VRef a) (JArr segs) →
  Forall workable segs →
  ∃ segs',
    editedSegments (comp (edit e w)) = VRef a
    ∧ reads_apart n (store (edit e w)) (VRef a) (JArr segs')
    ∧ Forall workable segs'
    ∧ take n (store (edit e w)) = take n (store w).
Proof.
  intros Ha Hr Hall.
  assert (Forall (λ seg, seg ≠ JNull) segs) as Hnn
    by (eapply Forall_impl; [exact Hall | by intros ? [? _]]).
  destruct e as [id text | id |]; simpl.
  - pose proof (updateSegmentContent_apart n w a segs id text Ha Hr Hnn) as H.
    destruct (index_of_id id segs) as [i|].
    + destruct H as (Hr' & _ & Hc & Ht).
      exists (alter (with_content text) i segs). rewrite Hc.
      split_and!; [done | done | | done].
      apply Forall_alter; [done |]. intros. by apply workable_with_content.
    + rewrite H. by exists segs.
  - pose proof (deleteSegment_apart n w a segs id Ha Hr Hnn) as H.
    destruct (index_of_id id segs) as [i|].
    + destruct H as (Hr' & _ & Hc & Ht).
      exists (delete i segs). rewrite Hc.
      split_and!; [done | done | by apply Forall_delete | done].
    + rewrite H. by exists segs.
  - pose proof (fileId_of_first_atomic segs Hall) as Hat.
    destruct (addNewSegment_apart n w a segs Ha Hr Hat)
      as (Hr' & _ & Hes & _ & Ht).
    eexists. split_and!; [done | exact Hr' | | done].
    apply Forall_app. split; [done |].
    constructor; [by apply workable_new | constructor].
Qed.

Lemma edits_invariant n a es : ∀ w segs,
  editedSegments (comp w) = VRef a →
  reads_apart n (store w) (VRef a) (JArr segs) →
  Forall workable segs →
  ∃ segs',
    editedSegments (comp (edits es w)) = VRef a
    ∧ reads_apart n (store (edits es w)) (VRef a) (JArr segs')
    ∧ Forall workable segs'
    ∧ take n (store (edits es w)) = take n (store w).
Proof.
  induction es as [|e es IH]; intros w segs Ha Hr Hall; [by exists segs |].
  destruct (edit_invariant n a e w segs Ha Hr Hall)
    as (segs1 & Ha1 & Hr1 & Hall1 & Ht1).
  destruct (IH (edit e w) segs1 Ha1 Hr1 Hall1)
    as (segs2 & Ha2 & Hr2 & Hall2 & Ht2).
  exists segs2. split_and!; try done. simpl. by rewrite Ht2.
Qed.

(** X20. The other side of the copy: once the working collection is the
    watcher's copy of segments that are not [null] and have no array or
    object as file id, no sequence of retyping, deleting and adding
    segments writes a cell that was there before the copy, so that the
    value the parent passed still reads as the document it was; and the
    working collection stays a list of such segments. *)
Theorem edits_stay_in_copy (w : World) (new : val) (segs : list json)
    (fuel : nat) (es : list Edit) :
  new ≠ segments (comp w) →
  stringify fuel (store w) new = Some (JArr segs) →
  Forall workable segs →
  take (length (store w)) (store (edits es (change_segments new w))) = store w
  ∧ to_json (store (edits es (change_segments new w))) new
    = Some (JArr segs)
  ∧ ∃ segs',
      collection (edits es (change_segments new w)) = Some (JArr segs')
      ∧ Forall workable segs'.
Proof.
  intros Hnew Hj Hall.
  destruct (change_segments_apart w new _ fuel Hnew Hj) as [Hr Ht].
  assert (∃ a, editedSegments (comp (change_segments new w)) = VRef a)
    as [a Ha].
  { destruct Hr as (f & fp & Hv & _).
    destruct f; destruct (editedSegments _); simplify_eq/=. by eexists. }
  rewrite Ha in Hr.
  destruct (edits_invariant _ a es _ segs Ha Hr Hall)
    as (segs' & Ha' & Hr' & Hall' & Ht').
  rewrite Ht in Ht'. split_and!; [done | |].
  - rewrite <-(take_drop (length (store w))
                 (store (edits es (change_segments new w)))), Ht'.
    eapply to_json_complete, stringify_app, Hj.
  - exists segs'. split; [| done].
    apply (reads_apart_collection (length (store w))). by rewrite Ha'.
Qed.

Lemma edits_stay_in_copy_witness :
  to_json
    (store (edits [Remove "a"; Append; Retype "c" "new text"]
              (change_segments (VRef 4) mounted)))
    (VRef 4)
  = Some (JArr [segment_json "a" "x"; segment_json "c" "z"]).
Proof.
  apply (edits_stay_in_copy mounted (VRef 4) _ 2); [done | |].
  - vm_compute. reflexivity.
  - repeat constructor; try done.
    all: intros v Hv; vm_compute in Hv; by simplify_eq.
Defined.

Lemma edit_keeps_ref e w :
  editedSegments (comp (edit e w)) = editedSegments (comp w).
Proof.
  destruct e; simpl;
    unfold updateSegmentContent, deleteSegment, addNewSegment;
    repeat case_match; done.
Qed.

(** X21. The update event of [saveAllSegments] carries the working array
    itself, not a copy of it: whatever is retyped, deleted or added
    afterwards, the payload reads as the working collection does then. *)
Theorem saved_payload_follows_edits (w : World) (es : list Edit) :
  emitted (saveAllSegments w)
  = emitted w ++ [segments_update (editedSegments (comp w))]
  ∧ to_json (store (edits es (saveAllSegments w))) (editedSegments (comp w))
    = collection (edits es (saveAllSegments w)).
Proof.
  split; [done |]. unfold collection. f_equal.
  change (editedSegments (comp w))
    with (editedSegments (comp (saveAllSegments w))).
  generalize (saveAllSegments w). clear w.
  induction es as [|e es IH]; intros w; [done |].
  simpl. by rewrite <-IH, edit_keeps_ref.
Qed.

End EditorOpsFacts.
